(** * StoryBoard: the comic generator of [src/index.tsx]

    A shallow embedding of the parts of [index.tsx] that carry logic:
    - the streaming script parser inside [generateScripts], together with a
      model of the platform's [JSON.parse];
    - the asynchronous handlers of [App] ([handleStartImageGeneration],
      [handleRegenerateImage], [handleRegenerateSingleScript], [startOver]);
    - the navigation state of [SlideshowModal], and what its effects do when
      [App] renders;
    - the handlers that write the script ([handleGenerate],
      [handleRegenerateScripts], [handleUpdateScene]) and the script dialog;
    - what [App], [ScriptReview] and [ComicBookDisplay] render of a session;
    - [dataURLtoBlob] with [handleDownloadAll], and [loadVoices].

    Conventions.  A JavaScript string is a Rocq [string]; every UTF-16 code
    unit is stored as one to three bytes (the UTF-8 pattern applied to the
    single unit), so that plain ASCII text is stored as itself.  A JavaScript
    number is the exact rational denoted by its literal; rounding to a double
    is not modelled.  A JavaScript object is a finite map from property names
    to values; property order is not modelled. *)

From Stdlib Require Import Ascii String NArith ZArith QArith.
From stdpp Require Import gmap strings list fin_maps pretty sorting.

Local Set Warnings "-register-all".

(** ** JSON values *)

Inductive value :=
| JNull
| JBool (b : bool)
| JNumber (q : Q)
| JString (s : string)
| JArray (l : list value)
| JObject (m : gmap string value).

(** ** [JSON.parse]

    The grammar of ECMA-404 as a pushdown machine that reads the text one
    character at a time.  [JSON_parse] runs the machine from [init] over the
    whole text and asks [finish] for the value; [None] stands for the
    [SyntaxError] that [JSON.parse] throws. *)
Module JSON.

(** Position inside a number literal: an optional minus sign; then a single
    zero, or a digit from one to nine followed by any digits; then optionally
    a point and at least one digit; then optionally e or E, an optional sign
    and at least one digit. *)
Inductive numPos :=
| NMinus | NZero | NInt | NDot | NFrac | NExp | NExpSign | NExpDigits.

(** What has been read of a number: sign, all digits of the integer and
    fraction parts as one natural number, how many of them stood after the
    point, and the exponent. *)
Record numAcc := NumAcc {
  nneg : bool; mant : N; scale : N; eneg : bool; eabs : N
}.

(** Position inside a string literal. *)
Inductive strEsc :=
| SPlain
| SBackslash
| SHex (acc : N) (count : nat).

(** An open container: the elements read so far of an array, or the members
    read so far of an object together with the name of the member whose value
    is being read. *)
Inductive frame :=
| FArr (elems : list value)
| FObj (props : gmap string value) (key : string).

(** The three literal names. *)
Inductive literal := LTrue | LFalse | LNull.

Definition literal_value (x : literal) : value :=
  match x with
  | LTrue => JBool true
  | LFalse => JBool false
  | LNull => JNull
  end.

Inductive mode :=
| MValue (first : bool)     (* a value must start; [first]: right after the opening bracket *)
| MKey (first : bool)       (* a member name must start; [first]: right after the opening brace *)
| MColon                    (* a member name was read *)
| MAfter                    (* a value inside a container was read *)
| MString (isKey : bool) (acc : string) (esc : strEsc)
| MNumber (pos : numPos) (acc : numAcc)
| MLiteral (rest : string) (x : literal)   (* [rest] is still to come *)
| MDone (v : value).        (* the outermost value was read *)

Record pstate := PState { stack : list frame; pmode : mode }.

Definition init : pstate := PState [] (MValue false).

Definition is_ws (c : ascii) : bool :=
  ((c =? " ") || (c =? "009") || (c =? "010") || (c =? "013"))%char.

Definition digit_of (c : ascii) : option N :=
  let n := N_of_ascii c in
  if ((48 <=? n) && (n <=? 57))%N then Some (n - 48)%N else None.

Definition hex_of (c : ascii) : option N :=
  let n := N_of_ascii c in
  if ((48 <=? n) && (n <=? 57))%N then Some (n - 48)%N
  else if ((65 <=? n) && (n <=? 70))%N then Some (n - 55)%N
  else if ((97 <=? n) && (n <=? 102))%N then Some (n - 87)%N
  else None.

(** The bytes that store one code unit. *)
Definition encode_unit (u : N) : string :=
  if (u <? 128)%N then String (ascii_of_N u) ""
  else if (u <? 2048)%N then
    String (ascii_of_N (192 + u / 64)) (String (ascii_of_N (128 + u mod 64)) "")
  else
    String (ascii_of_N (224 + u / 4096))
      (String (ascii_of_N (128 + (u / 64) mod 64))
         (String (ascii_of_N (128 + u mod 64)) "")).

Definition snoc (s : string) (c : ascii) : string := s +:+ String c "".

(** *** Numbers *)

Definition accepting (p : numPos) : bool :=
  match p with
  | NZero | NInt | NFrac | NExpDigits => true
  | _ => false
  end.

Definition num_value (a : numAcc) : Q :=
  let m := if nneg a then (- Z.of_N (mant a))%Z else Z.of_N (mant a) in
  let e := ((if eneg a then - Z.of_N (eabs a) else Z.of_N (eabs a)) - Z.of_N (scale a))%Z in
  if (0 <=? e)%Z then Qred ((m * 10 ^ e)%Z # 1)
  else Qred (m # Z.to_pos (10 ^ (- e))).

Inductive numRes :=
| NCont (p : numPos) (a : numAcc)   (* the character belongs to the number *)
| NStop                             (* the number ended before the character *)
| NBad.                             (* the number is cut short *)

Definition is_e (c : ascii) : bool := ((c =? "e") || (c =? "E"))%char.

Definition add_digit (a : numAcc) (d : N) (frac : bool) : numAcc :=
  NumAcc (nneg a) (10 * mant a + d) (if frac then scale a + 1 else scale a)%N
         (eneg a) (eabs a).

Definition add_exp_digit (a : numAcc) (d : N) : numAcc :=
  NumAcc (nneg a) (mant a) (scale a) (eneg a) (10 * eabs a + d).

Definition num_step (p : numPos) (a : numAcc) (c : ascii) : numRes :=
  match p with
  | NMinus =>
      match digit_of c with
      | Some d => if (d =? 0)%N then NCont NZero a else NCont NInt (add_digit a d false)
      | None => NBad
      end
  | NZero =>
      if (c =? ".")%char then NCont NDot a
      else if is_e c then NCont NExp a
      else NStop
  | NInt =>
      match digit_of c with
      | Some d => NCont NInt (add_digit a d false)
      | None =>
          if (c =? ".")%char then NCont NDot a
          else if is_e c then NCont NExp a
          else NStop
      end
  | NDot =>
      match digit_of c with
      | Some d => NCont NFrac (add_digit a d true)
      | None => NBad
      end
  | NFrac =>
      match digit_of c with
      | Some d => NCont NFrac (add_digit a d true)
      | None => if is_e c then NCont NExp a else NStop
      end
  | NExp =>
      match digit_of c with
      | Some d => NCont NExpDigits (add_exp_digit a d)
      | None =>
          if (c =? "+")%char then NCont NExpSign a
          else if (c =? "-")%char then
            NCont NExpSign (NumAcc (nneg a) (mant a) (scale a) true (eabs a))
          else NBad
      end
  | NExpSign =>
      match digit_of c with
      | Some d => NCont NExpDigits (add_exp_digit a d)
      | None => NBad
      end
  | NExpDigits =>
      match digit_of c with
      | Some d => NCont NExpDigits (add_exp_digit a d)
      | None => NStop
      end
  end.

(** *** Values and containers *)

(** A value [v] is complete: it becomes the result, or joins the innermost
    open container. *)
Definition push_value (v : value) (st : list frame) : pstate :=
  match st with
  | [] => PState [] (MDone v)
  | FArr es :: st' => PState (FArr (es ++ [v]) :: st') MAfter
  | FObj ps k :: st' => PState (FObj (<[k:=v]> ps) k :: st') MAfter
  end.

Definition num0 (neg : bool) (m : N) : numAcc := NumAcc neg m 0 false 0.

(** The first character of a value. *)
Definition start_value (c : ascii) (st : list frame) : option pstate :=
  if (c =? "[")%char then Some (PState (FArr [] :: st) (MValue true))
  else if (c =? "{")%char then Some (PState (FObj ∅ "" :: st) (MKey true))
  else if (c =? "034")%char then Some (PState st (MString false "" SPlain))
  else if (c =? "-")%char then Some (PState st (MNumber NMinus (num0 true 0)))
  else if (c =? "t")%char then Some (PState st (MLiteral "rue" LTrue))
  else if (c =? "f")%char then Some (PState st (MLiteral "alse" LFalse))
  else if (c =? "n")%char then Some (PState st (MLiteral "ull" LNull))
  else
    match digit_of c with
    | Some d =>
        Some (PState st (MNumber (if (d =? 0)%N then NZero else NInt) (num0 false d)))
    | None => None
    end.

Definition close_array (st : list frame) : option pstate :=
  match st with
  | FArr es :: st' => Some (push_value (JArray es) st')
  | _ => None
  end.

Definition close_object (st : list frame) : option pstate :=
  match st with
  | FObj ps _ :: st' => Some (push_value (JObject ps) st')
  | _ => None
  end.

Definition end_string (isKey : bool) (s : string) (st : list frame) : option pstate :=
  if isKey then
    match st with
    | FObj ps _ :: st' => Some (PState (FObj ps s :: st') MColon)
    | _ => None
    end
  else Some (push_value (JString s) st).

Definition string_step (isKey : bool) (acc : string) (esc : strEsc)
    (c : ascii) (st : list frame) : option pstate :=
  match esc with
  | SPlain =>
      if (c =? "034")%char then end_string isKey acc st
      else if (c =? "\")%char then Some (PState st (MString isKey acc SBackslash))
      else if (N_of_ascii c <? 32)%N then None
      else Some (PState st (MString isKey (snoc acc c) SPlain))
  | SBackslash =>
      let plain x := Some (PState st (MString isKey (snoc acc x) SPlain)) in
      if (c =? "034")%char then plain "034"%char
      else if (c =? "\")%char then plain "\"%char
      else if (c =? "/")%char then plain "/"%char
      else if (c =? "b")%char then plain "008"%char
      else if (c =? "f")%char then plain "012"%char
      else if (c =? "n")%char then plain "010"%char
      else if (c =? "r")%char then plain "013"%char
      else if (c =? "t")%char then plain "009"%char
      else if (c =? "u")%char then Some (PState st (MString isKey acc (SHex 0 0)))
      else None
  | SHex u n =>
      match hex_of c with
      | Some h =>
          let u' := (16 * u + h)%N in
          if (n =? 3)%nat
          then Some (PState st (MString isKey (acc +:+ encode_unit u') SPlain))
          else Some (PState st (MString isKey acc (SHex u' (S n))))
      | None => None
      end
  end.

(** One character, in every mode but [MNumber]. *)
Definition step_main (σ : pstate) (c : ascii) : option pstate :=
  let st := stack σ in
  match pmode σ with
  | MValue first =>
      if is_ws c then Some σ
      else if first && (c =? "]")%char then close_array st
      else start_value c st
  | MKey first =>
      if is_ws c then Some σ
      else if first && (c =? "}")%char then close_object st
      else if (c =? "034")%char then Some (PState st (MString true "" SPlain))
      else None
  | MColon =>
      if is_ws c then Some σ
      else if (c =? ":")%char then Some (PState st (MValue false))
      else None
  | MAfter =>
      if is_ws c then Some σ
      else if (c =? ",")%char then
        match st with
        | FArr _ :: _ => Some (PState st (MValue false))
        | FObj _ _ :: _ => Some (PState st (MKey false))
        | [] => None
        end
      else if (c =? "]")%char then close_array st
      else if (c =? "}")%char then close_object st
      else None
  | MString isKey acc esc => string_step isKey acc esc c st
  | MLiteral rest x =>
      match rest with
      | String c' rest' =>
          if (c =? c')%char then
            match rest' with
            | "" => Some (push_value (literal_value x) st)
            | _ => Some (PState st (MLiteral rest' x))
            end
          else None
      | "" => None
      end
  | MDone _ => if is_ws c then Some σ else None
  | MNumber _ _ => None
  end.

(** One character.  A number has no closing character: it ends at the first
    character that cannot continue it, and that character is then read in the
    mode that follows the number. *)
Definition step (σ : pstate) (c : ascii) : option pstate :=
  match pmode σ with
  | MNumber p a =>
      match num_step p a c with
      | NCont p' a' => Some (PState (stack σ) (MNumber p' a'))
      | NStop => step_main (push_value (JNumber (num_value a)) (stack σ)) c
      | NBad => None
      end
  | _ => step_main σ c
  end.

Fixpoint run (σ : pstate) (s : string) : option pstate :=
  match s with
  | "" => Some σ
  | String c s' =>
      match step σ c with
      | Some σ' => run σ' s'
      | None => None
      end
  end.

(** The end of the text. *)
Definition finish (σ : pstate) : option value :=
  match pmode σ, stack σ with
  | MDone v, _ => Some v
  | MNumber p a, [] => if accepting p then Some (JNumber (num_value a)) else None
  | _, _ => None
  end.

(** The elements of the outermost array that are complete: those of the
    array at the bottom of the stack, or of the result once it is an array. *)
Definition bottom (st : list frame) : list value :=
  match last st with
  | Some (FArr es) => es
  | _ => []
  end.

Definition committed (σ : pstate) : list value :=
  match pmode σ with
  | MDone (JArray l) => l
  | MDone _ => []
  | _ => bottom (stack σ)
  end.

End JSON.

Definition JSON_parse (text : string) : option value :=
  match JSON.run JSON.init text with
  | Some σ => JSON.finish σ
  | None => None
  end.


(** ** Scenes

    [interface Scene] names the properties [scene], [script], [image_prompt],
    [panel_text] and the optional [imageUrl].  At run time a scene is the
    object that [JSON.parse] returned with [scene] and [imageUrl] written
    over it, so a scene is a finite map from property names to values; a
    missing property reads as [None] (JavaScript's [undefined]). *)
Abbreviation Scene := (gmap string value).

(** The comment on [imageUrl] in the source: a URL, [null] (loading),
    ['RETRYING'], or ['FAILED'].  The source has a single representation,
    [null], for an image that was not requested yet and for one whose request
    is in flight. *)
Inductive ImageStatus :=
| Loading                  (* [null], or no [imageUrl] at all: pending or in flight *)
| Retrying
| Failed
| Ready (imageRef : string).

Definition statusOfUrl (u : option value) : ImageStatus :=
  match u with
  | Some (JString s) =>
      if String.eqb s "RETRYING" then Retrying
      else if String.eqb s "FAILED" then Failed
      else if String.eqb s "" then Loading
      else Ready s
  | _ => Loading
  end.

Definition imageStatus (s : Scene) : ImageStatus := statusOfUrl (s !! "imageUrl").

Definition resolved (st : ImageStatus) : bool :=
  match st with
  | Ready _ | Failed => true
  | _ => false
  end.

(** The code units of a string, each one as the bytes that store it. *)
Fixpoint units (s : string) : list string :=
  match s with
  | "" => []
  | String a s1 =>
      if (N_of_ascii a <? 192)%N then String a "" :: units s1
      else
        match s1 with
        | "" => [String a ""]
        | String b s2 =>
            if (N_of_ascii a <? 224)%N then String a (String b "") :: units s2
            else
              match s2 with
              | "" => [String a (String b "")]
              | String c s3 => String a (String b (String c "")) :: units s3
              end
        end
  end.

Definition index_map {A} (l : list A) : gmap string A :=
  list_to_map (imap (λ i x, (pretty i, x)) l).

(** The properties that [{...v}] copies: an object's own properties, the
    indexed elements of an array, the indexed code units of a string, and
    nothing for [null], a boolean or a number. *)
Definition spread (v : value) : gmap string value :=
  match v with
  | JObject m => m
  | JArray l => index_map l
  | JString s => index_map (JString <$> units s)
  | _ => ∅
  end.

Definition number_of_nat (n : nat) : value := JNumber (inject_Z (Z.of_nat n)).

(** [(s, i) => ({...s, scene: i+1, imageUrl: null})] *)
Definition pendingScene (i : nat) (s : value) : Scene :=
  <["imageUrl" := JNull]> (<["scene" := number_of_nat (i + 1)]> (spread s)).

(** ** The streaming script parser (the loop of [generateScripts]) *)

Definition endsWith (s suffix : string) : bool :=
  String.prefix (String.rev suffix) (String.rev s).

(** The variables of the loop. *)
Record StreamState := Stream {
  buffer : string;
  lastParsedLength : nat
}.

(** [buffer + (buffer.endsWith(',') ? ']' : ']')] *)
Definition potentialArray (buffer : string) : string :=
  buffer +:+ (if endsWith buffer "," then "]" else "]").

(** One iteration of [for await (const chunk of responseStream)].  The second
    component is the argument of [setScenes] when the iteration calls it. *)
Definition processChunk (st : StreamState) (chunk : string)
    : StreamState * option (list Scene) :=
  let buffer := buffer st +:+ chunk in
  match JSON_parse buffer with
  | Some parsed =>
      match parsed with
      | JArray l => (Stream buffer (length l), Some (imap pendingScene l))
      | _ => (Stream buffer (lastParsedLength st), None)
      end
  | None =>
      match JSON_parse (potentialArray buffer) with
      | Some (JArray l) =>
          if (lastParsedLength st <? length l)%nat
          then (Stream buffer (length l), Some (imap pendingScene l))
          else (Stream buffer (lastParsedLength st), None)
      | _ => (Stream buffer (lastParsedLength st), None)
      end
  end.

Fixpoint streamLoop (st : StreamState) (chunks : list string)
    : list (option (list Scene)) :=
  match chunks with
  | [] => []
  | chunk :: rest =>
      let '(st', out) := processChunk st chunk in
      out :: streamLoop st' rest
  end.

(** The variables of the loop after some iterations. *)
Definition streamState (st : StreamState) (chunks : list string) : StreamState :=
  foldl (λ s chunk, fst (processChunk s chunk)) st chunks.

(** What [generateScripts] passes to [setScenes], fragment by fragment. *)
Definition generateScripts (chunks : list string) : list (option (list Scene)) :=
  streamLoop (Stream "" 0) chunks.

(** The panel lists that were emitted, in order. *)
Definition emissions (trace : list (option (list Scene))) : list (list Scene) :=
  omap id trace.

(** The value of [scenes] once the stream has ended; [handleGenerate] clears
    it before the stream starts. *)
Definition scenesAfter (trace : list (option (list Scene))) : list Scene :=
  default [] (last (emissions trace)).

(** The text received so far. *)
Definition received (chunks : list string) : string :=
  foldl String.app "" chunks.

Definition isObject (v : value) : Prop :=
  match v with
  | JObject _ => True
  | _ => False
  end.

(** The buffer ends inside a string literal. *)
Definition insideString (text : string) : bool :=
  match JSON.run JSON.init text with
  | Some σ =>
      match JSON.pmode σ with
      | JSON.MString _ _ _ => true
      | _ => false
      end
  | None => false
  end.

(** ** The state of [App]

    One field for each [useState] of [App]; the two lists of voices, which
    only the voice picker reads, are left out. *)
Record AppState := mkApp {
  storyIdea : string;
  genre : string;
  isLoading : bool;
  progressMessage : string;
  scenes : list Scene;
  isGenerated : bool;
  isReviewingScript : bool;
  isSlideshowOpen : bool;
  isDevMode : bool;
  editingScene : option Scene;
  numPanels : nat;
  characterImageB64 : option string;
  isRegeneratingImage : bool;
  isRegeneratingScript : bool;
  selectedVoiceURI : option string
}.

Definition with_storyIdea (v : string) (st : AppState) : AppState :=
  mkApp v (genre st) (isLoading st) (progressMessage st) (scenes st) (isGenerated st) (isReviewingScript st) (isSlideshowOpen st) (isDevMode st) (editingScene st) (numPanels st) (characterImageB64 st) (isRegeneratingImage st) (isRegeneratingScript st) (selectedVoiceURI st).

Definition with_isLoading (v : bool) (st : AppState) : AppState :=
  mkApp (storyIdea st) (genre st) v (progressMessage st) (scenes st) (isGenerated st) (isReviewingScript st) (isSlideshowOpen st) (isDevMode st) (editingScene st) (numPanels st) (characterImageB64 st) (isRegeneratingImage st) (isRegeneratingScript st) (selectedVoiceURI st).

Definition with_progressMessage (v : string) (st : AppState) : AppState :=
  mkApp (storyIdea st) (genre st) (isLoading st) v (scenes st) (isGenerated st) (isReviewingScript st) (isSlideshowOpen st) (isDevMode st) (editingScene st) (numPanels st) (characterImageB64 st) (isRegeneratingImage st) (isRegeneratingScript st) (selectedVoiceURI st).

Definition with_scenes (v : list Scene) (st : AppState) : AppState :=
  mkApp (storyIdea st) (genre st) (isLoading st) (progressMessage st) v (isGenerated st) (isReviewingScript st) (isSlideshowOpen st) (isDevMode st) (editingScene st) (numPanels st) (characterImageB64 st) (isRegeneratingImage st) (isRegeneratingScript st) (selectedVoiceURI st).

Definition with_isGenerated (v : bool) (st : AppState) : AppState :=
  mkApp (storyIdea st) (genre st) (isLoading st) (progressMessage st) (scenes st) v (isReviewingScript st) (isSlideshowOpen st) (isDevMode st) (editingScene st) (numPanels st) (characterImageB64 st) (isRegeneratingImage st) (isRegeneratingScript st) (selectedVoiceURI st).

Definition with_isReviewingScript (v : bool) (st : AppState) : AppState :=
  mkApp (storyIdea st) (genre st) (isLoading st) (progressMessage st) (scenes st) (isGenerated st) v (isSlideshowOpen st) (isDevMode st) (editingScene st) (numPanels st) (characterImageB64 st) (isRegeneratingImage st) (isRegeneratingScript st) (selectedVoiceURI st).

Definition with_editingScene (v : option Scene) (st : AppState) : AppState :=
  mkApp (storyIdea st) (genre st) (isLoading st) (progressMessage st) (scenes st) (isGenerated st) (isReviewingScript st) (isSlideshowOpen st) (isDevMode st) v (numPanels st) (characterImageB64 st) (isRegeneratingImage st) (isRegeneratingScript st) (selectedVoiceURI st).

Definition with_characterImageB64 (v : option string) (st : AppState) : AppState :=
  mkApp (storyIdea st) (genre st) (isLoading st) (progressMessage st) (scenes st) (isGenerated st) (isReviewingScript st) (isSlideshowOpen st) (isDevMode st) (editingScene st) (numPanels st) v (isRegeneratingImage st) (isRegeneratingScript st) (selectedVoiceURI st).

Definition with_isRegeneratingImage (v : bool) (st : AppState) : AppState :=
  mkApp (storyIdea st) (genre st) (isLoading st) (progressMessage st) (scenes st) (isGenerated st) (isReviewingScript st) (isSlideshowOpen st) (isDevMode st) (editingScene st) (numPanels st) (characterImageB64 st) v (isRegeneratingScript st) (selectedVoiceURI st).

Definition with_isRegeneratingScript (v : bool) (st : AppState) : AppState :=
  mkApp (storyIdea st) (genre st) (isLoading st) (progressMessage st) (scenes st) (isGenerated st) (isReviewingScript st) (isSlideshowOpen st) (isDevMode st) (editingScene st) (numPanels st) (characterImageB64 st) (isRegeneratingImage st) v (selectedVoiceURI st).

(** ** Effects

    What a handler does between two suspensions: calls of the state setters,
    of the console, of [alert] and of [window.speechSynthesis]. *)
Inductive Cmd :=
| SetStoryIdea (v : string)
| SetIsLoading (v : bool)
| SetProgressMessage (v : string)
| SetScenes (f : list Scene → list Scene)          (* [setScenes(prev => f(prev))] *)
| SetIsGenerated (v : bool)
| SetIsReviewingScript (v : bool)
| SetEditingScene (f : option Scene → option Scene)
| SetCharacterImageB64 (v : option string)
| SetIsRegeneratingImage (v : bool)
| SetIsRegeneratingScript (v : bool)
| SetModalIsRegenerating (v : bool)                (* [isRegenerating] of [ScriptEditModal] *)
| ConsoleWarn (msg : string)
| ConsoleError (msg : string)
| Alert (msg : string)
| SpeechCancel
| SpeechSpeak (text : string).

(** What a handler awaits. *)
Inductive Request :=
| GenerateImages (idea genre : string)                        (* in [generateCharacterImage] *)
| GenerateSceneContent (scene : Scene) (charImgB64 genre : string)   (* in [generateSceneImage] *)
| GenerateScriptContent (sceneToRegen : Scene) (idea genre : string) (* in [handleRegenerateSingleScript] *)
| Timeout (ms : nat).

(** How an awaited promise settles.  The payload is the part of the response
    that the code reads: the image bytes, the inline data of the image part,
    the text; [None] when the response has no such part. *)
Inductive Response :=
| Fulfilled (payload : option string)
| Rejected (error : string).

(** The code of an asynchronous function.  [F] is the type of what
    [Promise.all] is given: [Empty_set] for a function that never calls it. *)
Inductive Prog (F A : Type) : Type :=
| Ret (a : A)
| Throw (error : string)
| Do (c : Cmd) (k : Prog F A)
| Await (r : Request) (k : Response → Prog F A)
| All (tasks : F) (k : option string → Prog F A).   (* [None]: all fulfilled; [Some e]: rejected *)

Arguments Ret {F A} a.
Arguments Throw {F A} error.
Arguments Do {F A} c k.
Arguments Await {F A} r k.
Arguments All {F A} tasks k.

Fixpoint bind {F A B} (p : Prog F A) (f : A → Prog F B) : Prog F B :=
  match p with
  | Ret a => f a
  | Throw e => Throw e
  | Do c k => Do c (bind k f)
  | Await r k => Await r (λ x, bind (k x) f)
  | All ts k => All ts (λ x, bind (k x) f)
  end.

Global Instance Prog_ret F : MRet (Prog F) := λ A a, Ret a.
Global Instance Prog_bind F : MBind (Prog F) := λ A B f p, bind p f.

(** [try { p } catch (error) { h error }] *)
Fixpoint tryCatch {F A} (p : Prog F A) (h : string → Prog F A) : Prog F A :=
  match p with
  | Ret a => Ret a
  | Throw e => h e
  | Do c k => Do c (tryCatch k h)
  | Await r k => Await r (λ x, tryCatch (k x) h)
  | All ts k => All ts (λ x, tryCatch (k x) h)
  end.

(** [try { p } finally { fin }] *)
Fixpoint finally {F A} (p : Prog F A) (fin : Prog F unit) : Prog F A :=
  match p with
  | Ret a => fin ;; Ret a
  | Throw e => fin ;; Throw e
  | Do c k => Do c (finally k fin)
  | Await r k => Await r (λ x, finally (k x) fin)
  | All ts k => All ts (λ x, finally (k x) fin)
  end.

Definition exec {F} (c : Cmd) : Prog F unit := Do c (Ret tt).

(** [await promise]: a rejection is thrown at the [await]. *)
Definition await {F} (r : Request) : Prog F (option string) :=
  Await r (λ resp,
    match resp with
    | Fulfilled payload => Ret payload
    | Rejected e => Throw e
    end).

(** [await new Promise(res => setTimeout(res, ms))] *)
Definition sleep {F} (ms : nat) : Prog F unit := Await (Timeout ms) (λ _, Ret tt).

(** [await Promise.all(tasks)] *)
Definition awaitAll {F} (tasks : F) : Prog F unit :=
  All tasks (λ r,
    match r with
    | None => Ret tt
    | Some e => Throw e
    end).

Abbreviation Task := (Prog Empty_set).
Abbreviation Handler := (Prog (list (Prog Empty_set unit))).

(** *** Running the code *)

Inductive Event :=
| Warned (msg : string)
| Errored (msg : string)
| Alerted (msg : string)
| Cancelled                                  (* [window.speechSynthesis.cancel()] *)
| Spoke (text : string)
| Requested (r : Request) (shown : AppState). (* a request goes out; [shown] is the state on display meanwhile *)

Record World := mkWorld {
  app : AppState;
  modalIsRegenerating : bool;
  log : list Event
}.

Definition on_app (f : AppState → AppState) (w : World) : World :=
  mkWorld (f (app w)) (modalIsRegenerating w) (log w).

Definition record (e : Event) (w : World) : World :=
  mkWorld (app w) (modalIsRegenerating w) (log w ++ [e]).

Definition perform (c : Cmd) (w : World) : World :=
  match c with
  | SetStoryIdea v => on_app (with_storyIdea v) w
  | SetIsLoading v => on_app (with_isLoading v) w
  | SetProgressMessage v => on_app (with_progressMessage v) w
  | SetScenes f => on_app (λ st, with_scenes (f (scenes st)) st) w
  | SetIsGenerated v => on_app (with_isGenerated v) w
  | SetIsReviewingScript v => on_app (with_isReviewingScript v) w
  | SetEditingScene f => on_app (λ st, with_editingScene (f (editingScene st)) st) w
  | SetCharacterImageB64 v => on_app (with_characterImageB64 v) w
  | SetIsRegeneratingImage v => on_app (with_isRegeneratingImage v) w
  | SetIsRegeneratingScript v => on_app (with_isRegeneratingScript v) w
  | SetModalIsRegenerating v => mkWorld (app w) v (log w)
  | ConsoleWarn msg => record (Warned msg) w
  | ConsoleError msg => record (Errored msg) w
  | Alert msg => record (Alerted msg) w
  | SpeechCancel => record Cancelled w
  | SpeechSpeak text => record (Spoke text) w
  end.

(** Where a function stands when it stops running. *)
Inductive Status (F A : Type) : Type :=
| Returned (a : A)
| Thrown (error : string)
| Waiting (r : Request) (k : Response → Prog F A)
| Forked (tasks : F) (k : option string → Prog F A).

Arguments Returned {F A} a.
Arguments Thrown {F A} error.
Arguments Waiting {F A} r k.
Arguments Forked {F A} tasks k.

(** Run until the function returns, throws or suspends. *)
Fixpoint advance {F A} (p : Prog F A) (w : World) : Status F A * World :=
  match p with
  | Ret a => (Returned a, w)
  | Throw e => (Thrown e, w)
  | Do c k => advance k (perform c w)
  | Await r k => (Waiting r k, record (Requested r (app w)) w)
  | All ts k => (Forked ts k, w)
  end.

(** A function on its own: each response resumes it at its [await]. *)
Fixpoint resume {F A} (s : Status F A) (rs : list Response) (w : World)
    : Status F A * World :=
  match rs with
  | [] => (s, w)
  | r :: rs' =>
      match s with
      | Waiting _ k => let '(s', w') := advance (k r) w in resume s' rs' w'
      | _ => (s, w)
      end
  end.

Definition runTask {F A} (p : Prog F A) (rs : list Response) (w : World)
    : Status F A * World :=
  let '(s, w') := advance p w in resume s rs w'.

(** The functions given to [Promise.all], each where it stands. *)
Abbreviation Pool := (list (Status Empty_set unit)).

(** [tasks.map(async ...)]: every function runs, in order, up to its first
    [await]. *)
Fixpoint spawn (tasks : list (Task unit)) (w : World) : Pool * World :=
  match tasks with
  | [] => ([], w)
  | t :: ts =>
      let '(s, w1) := advance t w in
      let '(pool, w2) := spawn ts w1 in
      (s :: pool, w2)
  end.

(** The response to the request of function [i] arrives. *)
Definition deliver (i : nat) (r : Response) (pool : Pool) (w : World) : Pool * World :=
  match pool !! i with
  | Some (Waiting _ k) => let '(s, w') := advance (k r) w in (<[i:=s]> pool, w')
  | _ => (pool, w)
  end.

Definition thrown (s : Status Empty_set unit) : option string :=
  match s with
  | Thrown e => Some e
  | _ => None
  end.

Definition returned (s : Status Empty_set unit) : bool :=
  match s with
  | Returned _ => true
  | _ => false
  end.

(** How [Promise.all] stands: [Some (Some e)] once a function has thrown,
    [Some None] once all have returned, [None] while it waits. *)
Definition verdict (pool : Pool) : option (option string) :=
  match omap thrown pool with
  | e :: _ => Some (Some e)
  | [] => if forallb returned pool then Some None else None
  end.

(** A handler is on its own, or waits at [Promise.all]. *)
Inductive HState (A : Type) : Type :=
| Solo (s : Status (list (Task unit)) A)
| Join (pool : Pool) (k : option string → Handler A).

Arguments Solo {A} s.
Arguments Join {A} pool k.

Fixpoint start {A} (p : Handler A) (w : World) : HState A * World :=
  match p with
  | Ret a => (Solo (Returned a), w)
  | Throw e => (Solo (Thrown e), w)
  | Do c k => start k (perform c w)
  | Await r k => (Solo (Waiting r k), record (Requested r (app w)) w)
  | All ts k =>
      let '(pool, w') := spawn ts w in
      match verdict pool with
      | Some x => start (k x) w'
      | None => (Join pool k, w')
      end
  end.

(** What the environment does: it settles the request of the handler, or
    the request of function [i] of the pool. *)
Inductive Move :=
| Reply (r : Response)
| ReplyTo (i : nat) (r : Response).

Definition hstep {A} (m : Move) (h : HState A) (w : World) : HState A * World :=
  match h, m with
  | Solo (Waiting _ k), Reply r => start (k r) w
  | Join pool k, ReplyTo i r =>
      let '(pool', w') := deliver i r pool w in
      match verdict pool' with
      | Some x => start (k x) w'
      | None => (Join pool' k, w')
      end
  | _, _ => (h, w)
  end.

Fixpoint hrun {A} (ms : list Move) (h : HState A) (w : World) : HState A * World :=
  match ms with
  | [] => (h, w)
  | m :: ms' => let '(h', w') := hstep m h w in hrun ms' h' w'
  end.

Definition runHandler {A} (p : Handler A) (ms : list Move) (w : World)
    : HState A * World :=
  let '(h, w') := start p w in hrun ms h w'.

(** ** The handlers of [App] *)

(** The text of a value inside a template literal.  A number that is not an
    integer is written as a fraction here; the source writes its decimal
    expansion. *)
Fixpoint textOfValue (v : value) : string :=
  match v with
  | JNull => "null"
  | JBool true => "true"
  | JBool false => "false"
  | JNumber q =>
      if (Qden q =? 1)%positive then pretty (Qnum q)
      else pretty (Qnum q) +:+ "/" +:+ pretty (Zpos (Qden q))
  | JString s => s
  | JArray l =>
      (fix join (l : list value) : string :=
         match l with
         | [] => ""
         | x :: l' =>
             let t := match x with JNull => "" | _ => textOfValue x end in
             match l' with
             | [] => t
             | _ => t +:+ "," +:+ join l'
             end
         end) l
  | JObject _ => "[object Object]"
  end.

Definition textOf (v : option value) : string :=
  match v with
  | Some v => textOfValue v
  | None => "undefined"
  end.

(** [a === b].  Two containers are equal only when they are the same object;
    the model has no identities and answers [false] for them.  The [scene]
    property, the only one compared, is a number in every scene that
    [generateScripts] makes. *)
Definition strict_eq (a b : option value) : bool :=
  match a, b with
  | None, None => true
  | Some JNull, Some JNull => true
  | Some (JBool x), Some (JBool y) => Bool.eqb x y
  | Some (JNumber x), Some (JNumber y) => Qeq_bool x y
  | Some (JString x), Some (JString y) => String.eqb x y
  | _, _ => false
  end.

(** [prev.map((s, i) => i === index ? {...s, imageUrl} : s)] *)
Definition setImageUrl (index : nat) (imageUrl : value) (prev : list Scene) : list Scene :=
  imap (λ i s, if decide (i = index) then <["imageUrl" := imageUrl]> s else s) prev.

Section Handlers.
Context {F : Type}.

(** Of the responses to [generateImages] the model has two: one with the
    bytes of the image, and one whose [generatedImages] is empty, [None], on
    which reading [image] throws. *)
Definition generateCharacterImage (idea selectedGenre : string) : Prog F string :=
  imageResponse ← await (GenerateImages idea selectedGenre);
  match imageResponse with
  | Some imageBytes => Ret imageBytes
  | None => Throw "Cannot read properties of undefined (reading 'image')"
  end.

(** [scene] is [None] when the caller read it from an index outside the
    list: building the prompt then throws. *)
Definition generateSceneImage (scene : option Scene) (charImgB64 selectedGenre : string)
    : Prog F string :=
  match scene with
  | None => Throw "Cannot read properties of undefined (reading 'image_prompt')"
  | Some scene =>
      response ← await (GenerateSceneContent scene charImgB64 selectedGenre);
      match response with
      | Some data => Ret ("data:image/png;base64," +:+ data)
      | None =>
          exec (ConsoleError "Model response did not contain an image part:");;
          Throw ("Panel " +:+ textOf (scene !! "scene")
                 +:+ " image generation failed. The model did not return a valid image part.")
      end
  end.

(** The function that [handleStartImageGeneration] maps over [scenes]. *)
Definition imageGenerationPromise (charImgB64 genre : string) (index : nat) (scene : Scene)
    : Prog F unit :=
  tryCatch
    (imageUrl ← generateSceneImage (Some scene) charImgB64 genre;
     exec (SetScenes (setImageUrl index (JString imageUrl))))
    (λ e1,
      exec (ConsoleWarn ("Panel " +:+ pretty (index + 1) +:+ " failed once. Retrying..."));;
      exec (SetScenes (setImageUrl index (JString "RETRYING")));;
      tryCatch
        (sleep 500;;
         imageUrl ← generateSceneImage (Some scene) charImgB64 genre;
         exec (SetScenes (setImageUrl index (JString imageUrl))))
        (λ e2,
          exec (ConsoleError ("Panel " +:+ pretty (index + 1) +:+ " failed on second attempt."));;
          exec (SetScenes (setImageUrl index (JString "FAILED"))))).


Definition handleRegenerateImage (st : AppState) (sceneIndex : nat) : Prog F unit :=
  match characterImageB64 st with
  | Some characterImageB64 =>
      if String.eqb characterImageB64 "" || isRegeneratingImage st then Ret tt
      else
        exec (SetIsRegeneratingImage true);;
        let sceneToRegen := scenes st !! sceneIndex in
        exec (SetScenes (setImageUrl sceneIndex JNull));;
        finally
          (tryCatch
             (imageUrl ← generateSceneImage sceneToRegen characterImageB64 (genre st);
              exec (SetScenes (setImageUrl sceneIndex (JString imageUrl))))
             (λ e1,
               exec (ConsoleWarn ("Panel " +:+ pretty (sceneIndex + 1)
                                  +:+ " failed once. Retrying..."));;
               exec (SetScenes (setImageUrl sceneIndex (JString "RETRYING")));;
               tryCatch
                 (sleep 500;;
                  imageUrl ← generateSceneImage sceneToRegen characterImageB64 (genre st);
                  exec (SetScenes (setImageUrl sceneIndex (JString imageUrl))))
                 (λ e2,
                   exec (ConsoleError ("Panel " +:+ pretty (sceneIndex + 1)
                                       +:+ " failed on second attempt."));;
                   exec (SetScenes (setImageUrl sceneIndex (JString "FAILED"))))))
          (exec (SetIsRegeneratingImage false))
  | None => Ret tt
  end.

Definition startOver : Prog F unit :=
  exec (SetIsGenerated false);;
  exec (SetScenes (λ _, []));;
  exec (SetStoryIdea "");;
  exec (SetIsReviewingScript false).

End Handlers.

(** [random i] is the text of the number that the [i]-th call of
    [Math.random] returns. *)
Definition handleStartImageGeneration (random : nat → string) (st : AppState)
    : Handler unit :=
  exec (SetIsReviewingScript false);;
  exec (SetIsLoading true);;
  finally
    (tryCatch
       ((if isDevMode st then
           exec (SetProgressMessage "Generating placeholder images for Development Mode...");;
           let finalScenes :=
             imap (λ i scene,
                     <["imageUrl" := JString ("https://picsum.photos/seed/"
                                              +:+ textOf (scene !! "scene") +:+ random i
                                              +:+ "/1600/900")]> scene)
                  (scenes st) in
           exec (SetScenes (λ _, finalScenes));;
           sleep 1000
         else
           exec (SetProgressMessage "Designing your main character...");;
           charImgB64 ← generateCharacterImage (storyIdea st) (genre st);
           exec (SetCharacterImageB64 (Some charImgB64));;
           exec (SetProgressMessage ("Generating " +:+ pretty (numPanels st)
                                     +:+ " comic panels in parallel..."));;
           let imageGenerationPromises :=
             imap (imageGenerationPromise charImgB64 (genre st)) (scenes st) in
           awaitAll imageGenerationPromises);;
        exec (SetProgressMessage "Your comic is complete!");;
        exec (SetIsGenerated true))
       (λ error,
         exec (ConsoleError "An error occurred during generation:");;
         exec (SetProgressMessage ("Error: " +:+ error +:+ ". Please try again."))))
    (exec (SetIsLoading false)).

Module ScriptEditModal.


End ScriptEditModal.

(** *** Failures of an attempt *)

(** The two ways an attempt of [generateSceneImage] fails: the request is
    rejected, or the response has no image part. *)
Inductive Failure :=
| Reject (error : string)
| NoImagePart.

Definition failed (f : Failure) : Response :=
  match f with
  | Reject e => Rejected e
  | NoImagePart => Fulfilled None
  end.

(** What a failed attempt writes on the console before it throws. *)
Definition failureLog (f : Failure) : list Event :=
  match f with
  | Reject _ => []
  | NoImagePart => [Errored "Model response did not contain an image part:"]
  end.

Definition dataUrl (data : string) : string := "data:image/png;base64," +:+ data.

Definition withScenes (f : list Scene → list Scene) (st : AppState) : AppState :=
  with_scenes (f (scenes st)) st.

(** ** [SlideshowModal] *)

(** A value in a condition. *)
Definition truthy (v : option value) : bool :=
  match v with
  | None | Some JNull | Some (JBool false) => false
  | Some (JNumber q) => negb (Qeq_bool q 0)
  | Some (JString s) => negb (String.eqb s "")
  | _ => true
  end.

Module SlideshowModal.

(** The property [isOpen] and the two [useState] variables. *)
Record State := mkState {
  isOpen : bool;
  currentIndex : Z;
  isCompleted : bool
}.

Global Instance State_eq_dec : EqDecision State.
Proof. solve_decision. Defined.

(** The first render: [useState(0)], [useState(false)], closed. *)
Definition initial : State := mkState false 0 false.

Section Slideshow.
Variable scenes : list Scene.

Definition at_index (i : Z) : option Scene :=
  if (i <? 0)%Z then None else scenes !! Z.to_nat i.

(** *** The callbacks *)

Definition goToPrevious (s : State) : State :=
  mkState (isOpen s)
          (if (0 <? currentIndex s)%Z then (currentIndex s - 1)%Z else 0%Z)
          (isCompleted s).

Definition goToNext (s : State) : State :=
  if (currentIndex s <? Z.of_nat (length scenes) - 1)%Z
  then mkState (isOpen s) (currentIndex s + 1)%Z (isCompleted s)
  else mkState (isOpen s) (currentIndex s) true.     (* stay on the last index *)

Definition handleRestart (s : State) : State :=
  mkState (isOpen s) 0%Z false.

Definition onClose (s : State) : State :=
  mkState false (currentIndex s) (isCompleted s).

Inductive Key := Escape | ArrowLeft | ArrowRight | OtherKey.

Definition handleKeyDown (key : Key) (s : State) : State :=
  match key with
  | Escape => onClose s
  | _ =>
      if isCompleted s then s
      else
        match key with
        | ArrowLeft => goToPrevious s
        | ArrowRight => goToNext s
        | _ => s
        end
  end.

(** *** The effects *)

(** The narration effect: its body, as calls of [window.speechSynthesis]. *)
Definition narrate (s : State) : list Event :=
  if isOpen s then
    Cancelled ::
      (if isCompleted s then [Spoke "The slideshow is completed. Do you want to restart?"]
       else if (0 <? length scenes)%nat then
         match at_index (currentIndex s) with
         | Some scene =>
             if truthy (scene !! "panel_text")
             then [Spoke (textOf (scene !! "panel_text"))]
             else []
         | None => []
         end
       else [])
  else [Cancelled].

(** The keyboard effect: what its body does to the state when [isOpen]. *)
Definition keyEffect (s : State) : State :=
  if isOpen s then mkState (isOpen s) 0%Z false else s.

(** The dependencies that can change while the modal is mounted: of the
    narration effect [isOpen], [currentIndex] and [isCompleted]; of the
    keyboard effect [isOpen] and [isCompleted]. *)
Definition narrationDeps (s : State) : bool * Z * bool :=
  (isOpen s, currentIndex s, isCompleted s).

Definition keyDeps (s : State) : bool * bool := (isOpen s, isCompleted s).

(** One commit: the state went from [old] to [cur].  The clean-up of the
    keyboard effect (which cancels speech) runs first, then the bodies of the
    effects whose dependencies changed, in the order of the source. *)
Definition pass (old cur : State) : State * list Event :=
  let keyChanged := bool_decide (keyDeps cur ≠ keyDeps old) in
  let narrationChanged := bool_decide (narrationDeps cur ≠ narrationDeps old) in
  ((if keyChanged then keyEffect cur else cur),
   (if keyChanged then [Cancelled] else [])
   ++ (if narrationChanged then narrate cur else [])).

(** Commits follow one another until an effect no longer changes the state. *)
Fixpoint settle (fuel : nat) (old cur : State) : State * list Event :=
  match fuel with
  | 0 => (cur, [])
  | S fuel' =>
      let '(next, events) := pass old cur in
      if decide (next = cur) then (cur, events)
      else
        let '(final, events') := settle fuel' cur next in
        (final, events ++ events')
  end.

(** *** What the user does *)

Inductive Input :=
| OpenSlideshow        (* "Play Slideshow": [setIsSlideshowOpen(true)] *)
| Close                (* the close button or the overlay: [onClose] *)
| KeyDown (key : Key)
| ClickPrevious
| ClickNext
| ClickRestart.

(** The panel and its two arrows are rendered when the slideshow is open, not
    completed, and [scenes[currentIndex]] exists. *)
Definition panelShown (s : State) : bool :=
  isOpen s && negb (isCompleted s) && bool_decide (is_Some (at_index (currentIndex s))).

Definition handle (input : Input) (s : State) : State :=
  match input with
  | OpenSlideshow => mkState true (currentIndex s) (isCompleted s)
  | Close => if isOpen s then onClose s else s
  | KeyDown key => if isOpen s then handleKeyDown key s else s
  | ClickPrevious =>
      if panelShown s && negb (currentIndex s =? 0)%Z then goToPrevious s else s
  | ClickNext => if panelShown s then goToNext s else s
  | ClickRestart => if isOpen s && isCompleted s then handleRestart s else s
  end.

(** An input, and the commits that follow it. *)
Definition dispatch (input : Input) (s : State) : State * list Event :=
  settle 3 s (handle input s).

Fixpoint dispatchAll (inputs : list Input) (s : State) : State :=
  match inputs with
  | [] => s
  | input :: rest => dispatchAll rest (dispatch input s).1
  end.

End Slideshow.
End SlideshowModal.

(** ** Writing the script: [handleGenerate] and [handleRegenerateScripts]

    The response stream as [generateScripts] meets it: the fragments that it
    yields, and the error with which it ends when the request or a later
    read is rejected.  A request rejected at once is a stream without
    fragments.  No other handler is taken to run while the stream is read,
    so the suspensions of the loop are left out. *)
Record ScriptStream := mkStream {
  fragments : list string;
  failure : option string
}.

Section ScriptHandlers.
Context {F : Type}.

(** One iteration of the loop of [generateScripts]: [setScenes(...)] when
    the iteration emits, then the iterations that follow. *)
Definition emit (emitted : option (list Scene)) (rest : Prog F unit) : Prog F unit :=
  match emitted with
  | Some parsed => exec (SetScenes (λ _, parsed));; rest
  | None => rest
  end.

(** [generateScripts] with its calls of [setScenes]. *)
Definition generateScriptsOn (stream : ScriptStream) : Prog F unit :=
  foldr emit
        (match failure stream with
         | Some error => Throw error
         | None => Ret tt
         end)
        (generateScripts (fragments stream)).

Definition generateAndStreamScripts (stream : ScriptStream) : Prog F unit :=
  tryCatch
    (generateScriptsOn stream;;
     exec (SetProgressMessage "Please review the generated script."))
    (λ error,
      exec (ConsoleError "An error occurred during script generation:");;
      exec (SetProgressMessage ("Error: " +:+ error +:+ ". Please try again."))).

Definition handleGenerate (stream : ScriptStream) : Prog F unit :=
  exec (SetIsGenerated false);;
  exec (SetScenes (λ _, []));;
  exec (SetCharacterImageB64 None);;
  exec (SetIsReviewingScript true);;
  exec (SetIsLoading false);;
  exec (SetProgressMessage "Writing your comic book script...");;
  generateAndStreamScripts stream.

Definition handleRegenerateScripts (stream : ScriptStream) : Prog F unit :=
  exec (SetIsRegeneratingScript true);;
  exec (SetScenes (λ _, []));;
  exec (SetIsGenerated false);;
  generateAndStreamScripts stream;;
  exec (SetIsRegeneratingScript false).

(** [handleUpdateScene]:
    [currentScenes.map(s => s.scene === updatedScene.scene ? updatedScene : s)] *)
Definition handleUpdateScene (updatedScene : Scene) : Prog F unit :=
  exec (SetScenes (fmap (λ s, if strict_eq (s !! "scene") (updatedScene !! "scene")
                              then updatedScene else s))).

End ScriptHandlers.

(** [ScriptEditModal]: its state [editedScene], and what [handleChange] and
    [handleSave] do.  [onSave] is [handleUpdateScene] and [onClose] is
    [() => setEditingScene(null)]. *)
Module ScriptEdit.



End ScriptEdit.

(** ** What [App] renders

    The conditions of the JSX of [App], one for each part of the page. *)
Module Page.

(** [!isGenerated && !isLoading && !isReviewingScript]: the story form. *)
Definition storyForm (st : AppState) : bool :=
  negb (isGenerated st) && negb (isLoading st) && negb (isReviewingScript st).

(** [isLoading && !isReviewingScript]: [ComicBookDisplaySkeleton]. *)
Definition skeleton (st : AppState) : bool :=
  isLoading st && negb (isReviewingScript st).

(** [isReviewingScript]: [ScriptReview]. *)
Definition scriptReview (st : AppState) : bool := isReviewingScript st.

(** [isGenerated && scenes.length > 0]: [ComicBookDisplay]. *)
Definition comicBookDisplay (st : AppState) : bool :=
  isGenerated st && (0 <? length (scenes st))%nat.

(** [isGenerated && !isLoading]: the voices and the final controls
    (slideshow, download, start over). *)
Definition generationOptions (st : AppState) : bool :=
  isGenerated st && negb (isLoading st).

End Page.

(** [ScriptReview], given [scenes], [numPanels] and [isRegenerating] (which
    is [isRegeneratingScript]). *)
Module ScriptReview.

(** [scenes.length < numPanels]: the script is still being written. *)
Definition writing (st : AppState) : bool :=
  (length (scenes st) <? numPanels st)%nat.

(** [disabled={scenes.length < numPanels || isRegenerating}], on both
    buttons, Regenerate Full Script and Approve. *)
Definition disabled (st : AppState) : bool :=
  writing st || isRegeneratingScript st.

End ScriptReview.

(** ** [ComicBookDisplay]

    What the component puts on the page, as far as it depends on the
    [imageUrl] of a panel.  In JSX [a && b] renders [b] when [a] is truthy
    and otherwise [a] itself, of which React shows nothing unless it is a
    number. *)
Module ComicBookDisplay.

Inductive Node :=
| Spinner                         (* the spinner over the main panel, or [card-spinner] *)
| RetryingLabel                   (* [<span>Retrying...</span>] *)
| FailurePlaceholder              (* [panel-failure-placeholder] *)
| Img (src : value)               (* [<img src={imageUrl}>] *)
| RegenerateButton
| Zero.                           (* the text 0 *)

(** What React shows of a falsy value. *)
Definition falsy (v : option value) : list Node :=
  match v with
  | Some (JNumber _) => [Zero]
  | _ => []
  end.

(** [['RETRYING', 'FAILED'].includes(v)] *)
Definition isMark (v : option value) : bool :=
  strict_eq v (Some (JString "RETRYING")) || strict_eq v (Some (JString "FAILED")).

(** [scenes[index]?.imageUrl] *)
Definition imageUrlAt (scenes : list Scene) (index : nat) : option value :=
  scenes !! index ≫= λ scene, scene !! "imageUrl".

(** [selectPanel(index)]: the new [currentSceneIndex], or [None] for the
    [TypeError] of reading [imageUrl] of [undefined]. *)
Definition selectPanel (scenes : list Scene) (index currentSceneIndex : nat) : option nat :=
  match scenes !! index with
  | None => None
  | Some scene =>
      if strict_eq (scene !! "imageUrl") (Some (JString "RETRYING"))
      then Some currentSceneIndex
      else Some index
  end.

Definition hasFailed (scenes : list Scene) (currentSceneIndex : nat) : bool :=
  strict_eq (imageUrlAt scenes currentSceneIndex) (Some (JString "FAILED")).

(** The main panel: the spinner, the failure placeholder, or the image. *)
Definition mainPanel (scenes : list Scene) (currentSceneIndex : nat)
    (isRegeneratingImage : bool) : list Node :=
  let imageUrl := imageUrlAt scenes currentSceneIndex in
  if isRegeneratingImage && strict_eq imageUrl (Some JNull) then [Spinner]
  else if hasFailed scenes currentSceneIndex then [FailurePlaceholder]
  else if truthy imageUrl then [Img (default JNull imageUrl)]
  else falsy imageUrl.

(** [isReadyForRegen && ...]: the overlay with the Regenerate Image button. *)
Definition regenerateOverlay (scenes : list Scene) (currentSceneIndex : nat)
    (isRegeneratingImage : bool) : list Node :=
  let imageUrl := imageUrlAt scenes currentSceneIndex in
  if truthy imageUrl then
    if negb isRegeneratingImage && negb (isMark imageUrl) then [RegenerateButton] else []
  else falsy imageUrl.

(** The visuals of one card of the filmstrip. *)
Definition cardVisuals (scene : Scene) : list Node :=
  let imageUrl := scene !! "imageUrl" in
  (if truthy imageUrl then [] else [Spinner])
  ++ (if strict_eq imageUrl (Some (JString "RETRYING")) then [RetryingLabel] else [])
  ++ (if strict_eq imageUrl (Some (JString "FAILED")) then [FailurePlaceholder] else [])
  ++ (if truthy imageUrl
      then (if isMark imageUrl then [] else [Img (default JNull imageUrl)])
      else falsy imageUrl).

(** What stands for a status on a card. *)
Definition nodeOfStatus (st : ImageStatus) : Node :=
  match st with
  | Loading => Spinner
  | Retrying => RetryingLabel
  | Failed => FailurePlaceholder
  | Ready imageRef => Img (JString imageRef)
  end.

End ComicBookDisplay.

(** ** Downloading the panels: [dataURLtoBlob] and [handleDownloadAll] *)

(** A computation that returns or throws. *)
Inductive Result (A : Type) : Type :=
| Done (a : A)
| Fails (error : string).

Arguments Done {A} a.
Arguments Fails {A} error.

(** [s.split(sep)] for a separator of one character. *)
Fixpoint split (sep : ascii) (s : string) : list string :=
  match s with
  | "" => [""]
  | String c s' =>
      if (c =? sep)%char then "" :: split sep s'
      else
        match split sep s' with
        | piece :: pieces => String c piece :: pieces
        | [] => [String c ""]
        end
  end.

(** A line terminator starts here: line feed, carriage return, or the code
    unit 2028 or 2029 (hexadecimal), stored as three bytes. *)
Definition lineTerminator (s : string) : bool :=
  match s with
  | String c rest =>
      (c =? "010")%char || (c =? "013")%char
      || ((c =? "226")%char
          && match rest with
             | String c1 (String c2 _) =>
                 (c1 =? "128")%char && ((c2 =? "168")%char || (c2 =? "169")%char)
             | _ => false
             end)
  | "" => false
  end.

(** [(.*?);] at the start of [s]: the shortest run of characters other than
    line terminators that a semicolon follows. *)
Fixpoint upToSemicolon (s : string) : option string :=
  match s with
  | "" => None
  | String c rest =>
      if (c =? ";")%char then Some ""
      else if lineTerminator s then None
      else String c <$> upToSemicolon rest
  end.

(** [s.match(/:(.*?);/)]: the group of the leftmost match. *)
Fixpoint mimeMatch (s : string) : option string :=
  match s with
  | "" => None
  | String c rest =>
      if (c =? ":")%char then
        match upToSemicolon rest with
        | Some mime => Some mime
        | None => mimeMatch rest
        end
      else mimeMatch rest
  end.

(** *** [atob]

    The forgiving decoding of base 64 that [atob] is defined by: white space
    is dropped; if the length is then a multiple of four, one or two equals
    signs at the end are dropped; a length that leaves one modulo four, or a
    character outside the alphabet, is an error; every four characters give
    three bytes, and of two or three characters left over the bits that fill
    no byte are dropped. *)
Module Base64.

Definition whitespace (c : ascii) : bool :=
  ((c =? "009") || (c =? "010") || (c =? "012") || (c =? "013") || (c =? " "))%char.

Definition sextet (c : ascii) : option N :=
  let n := N_of_ascii c in
  if ((65 <=? n) && (n <=? 90))%N then Some (n - 65)%N
  else if ((97 <=? n) && (n <=? 122))%N then Some (n - 71)%N
  else if ((48 <=? n) && (n <=? 57))%N then Some (n + 4)%N
  else if (c =? "+")%char then Some 62%N
  else if (c =? "/")%char then Some 63%N
  else None.

(** One or two equals signs at the end are dropped. *)
Definition unpad (l : list ascii) : list ascii :=
  match reverse l with
  | c1 :: tl =>
      if (c1 =? "=")%char then
        match tl with
        | c2 :: tl' => if (c2 =? "=")%char then reverse tl' else reverse tl
        | [] => reverse tl
        end
      else l
  | [] => l
  end.

Fixpoint bytes (sextets : list N) : list N :=
  match sextets with
  | a :: b :: c :: d :: rest =>
      let n := (a * 262144 + b * 4096 + c * 64 + d)%N in
      (n / 65536)%N :: ((n / 256) mod 256)%N :: (n mod 256)%N :: bytes rest
  | [a; b; c] =>
      let n := ((a * 4096 + b * 64 + c) / 4)%N in
      [(n / 256)%N; (n mod 256)%N]
  | [a; b] => [((a * 64 + b) / 16)%N]
  | _ => []
  end.

(** The code units of the decoded text, each below 256; [None] for the
    [InvalidCharacterError]. *)
Definition decode (data : string) : option (list N) :=
  let stripped := filter (λ c, whitespace c = false) (list_ascii_of_string data) in
  let data := if (length stripped mod 4 =? 0)%nat then unpad stripped else stripped in
  if (length data mod 4 =? 1)%nat then None
  else bytes <$> mapM sextet data.

End Base64.

Definition atob (data : string) : option (list N) := Base64.decode data.

(** The arguments of [new Blob([u8arr], {type: mime})]: the elements of the
    array and the type. *)
Record Blob := mkBlob {
  blobBytes : list N;
  blobType : string
}.

(** [arr[1]] goes through [atob] as a text: [undefined], when the address
    has no comma, is read as the text undefined. *)
Definition dataURLtoBlob (dataurl : string) : Result Blob :=
  let arr := split "," dataurl in
  match mimeMatch (default "" (arr !! 0)) with
  | None => Fails "Invalid data URL"
  | Some mime =>
      match atob (default "undefined" (arr !! 1)) with
      | None => Fails "InvalidCharacterError"
      | Some bstr => Done (mkBlob bstr mime)
      end
  end.

(** The link that [handleDownloadAll] clicks: the blob behind [href], and
    [download]. *)
Record Download := mkDownload {
  content : Blob;
  download : string
}.

(** One step of [scenes.forEach((scene, index) => ...)]: the panel is
    skipped, or its image is downloaded, or the step throws.  An [imageUrl]
    that is truthy and not a string has no [split]. *)
Definition downloadPanel (index : nat) (scene : Scene) : Result (list Download) :=
  let imageUrl := scene !! "imageUrl" in
  if truthy imageUrl && negb (ComicBookDisplay.isMark imageUrl) then
    match imageUrl with
    | Some (JString dataurl) =>
        match dataURLtoBlob dataurl with
        | Done blob => Done [mkDownload blob ("panel-" +:+ pretty (index + 1) +:+ ".png")]
        | Fails error => Fails error
        end
    | _ => Fails "dataurl.split is not a function"
    end
  else Done [].

(** [handleDownloadAll]: the downloads made, in order, and the error that
    ended the loop if a step threw. *)
Fixpoint downloadFrom (index : nat) (scenes : list Scene) : list Download * option string :=
  match scenes with
  | [] => ([], None)
  | scene :: rest =>
      match downloadPanel index scene with
      | Done links =>
          let '(more, error) := downloadFrom (S index) rest in (links ++ more, error)
      | Fails error => ([], Some error)
      end
  end.

Definition handleDownloadAll (st : AppState) : list Download * option string :=
  downloadFrom 0 (scenes st).

(** ** The voices of the narration

    [loadVoices] of the first effect of [App].  The effect has no
    dependencies: it runs once, after the first render, and the function it
    installs as [onvoiceschanged] is the one of that render, in which
    [selectedVoiceURI] is [null]. *)
Module Voices.

(** The properties of a [SpeechSynthesisVoice] that the code reads. *)
Record Voice := mkVoice {
  name : string;
  lang : string;
  voiceURI : string
}.

(** [allVoices], [curatedVoices] and [selectedVoiceURI]. *)
Record State := mkState {
  allVoices : list Voice;
  curatedVoices : list Voice;
  selectedVoiceURI : option string
}.

(** [s.startsWith(p)] *)
Definition startsWith (s p : string) : bool := String.prefix p s.

Section LoadVoices.
(** [l.sort((a, b) => a.name.localeCompare(b.name))]: the order is that of
    the locale of the browser. *)
Variable sortByName : list Voice → list Voice.

(** [loadVoices], with the [selectedVoiceURI] that its closure holds and
    the result of [getVoices()]. *)
Definition loadVoices (selected : option string) (availableVoices : list Voice)
    (st : State) : State :=
  if (0 <? length availableVoices)%nat then
    let enVoices :=
      sortByName (filter (λ v, startsWith (lang v) "en" = true) availableVoices) in
    let limitedVoices := take 12 enVoices in
    mkState availableVoices limitedVoices
      (match selected, limitedVoices with
       | None, first :: _ | Some "", first :: _ => Some (voiceURI first)
       | _, _ => selectedVoiceURI st
       end)
  else st.

(** The [voiceschanged] event, and the call at the end of the effect. *)
Definition onvoiceschanged (availableVoices : list Voice) (st : State) : State :=
  loadVoices None availableVoices st.

End LoadVoices.
End Voices.

(** ** Vocabulary of the statements

    *** JSON texts

    The sample texts are written with an apostrophe where the text has a
    double quote (code unit 34). *)
Fixpoint json (s : string) : string :=
  match s with
  | "" => ""
  | String c s' => String (if Ascii.eqb c "'" then "034"%char else c) (json s')
  end.

(** *** The streaming parser *)

(** What one iteration does, case by case. *)
Inductive chunk_outcome (st : StreamState) (chunk : string)
    : StreamState → option (list Scene) → Prop :=
| strict_array l :
    JSON_parse (buffer st +:+ chunk) = Some (JArray l) →
    chunk_outcome st chunk (Stream (buffer st +:+ chunk) (length l))
      (Some (imap pendingScene l))
| repaired_array l :
    JSON_parse (buffer st +:+ chunk) = None →
    JSON_parse ((buffer st +:+ chunk) +:+ "]") = Some (JArray l) →
    lastParsedLength st < length l →
    chunk_outcome st chunk (Stream (buffer st +:+ chunk) (length l))
      (Some (imap pendingScene l))
| nothing_new :
    (∀ l, JSON_parse (buffer st +:+ chunk) ≠ Some (JArray l)) →
    chunk_outcome st chunk (Stream (buffer st +:+ chunk) (lastParsedLength st)) None.

(** The bound that the loop keeps on [lastParsedLength]: no array that a
    longer text can parse to is shorter. *)
Definition bounded (st : StreamState) : Prop :=
  ∀ R l', JSON_parse (buffer st +:+ R) = Some (JArray l') →
          lastParsedLength st ≤ length l'.


(** *** The slideshow *)

(** The index is on a panel. *)
Definition inRange (scenes : list Scene) (s : SlideshowModal.State) : Prop :=
  (0 ≤ SlideshowModal.currentIndex s
   ∧ SlideshowModal.currentIndex s ≤ Z.of_nat (length scenes) - 1)%Z.

(** *** The handlers *)

(** What the functions of the bulk pipeline have in common:

    [proto j n cur p]: the code [p] works on panel [j] alone.  It writes only
    the [imageUrl] of panel [j], otherwise only on the console; it suspends at
    most [n] times; it does not throw; and when it returns, the last thing it
    wrote on the panel, [cur] if it writes nothing more, is an image or
    FAILED. *)

Definition terminalUrl (u : value) : Prop :=
  resolved (statusOfUrl (Some u)) = true.

Definition silent (c : Cmd) : Prop :=
  match c with
  | ConsoleWarn _ | ConsoleError _ => True
  | _ => False
  end.

Inductive proto (j : nat) : nat → option value → Task unit → Prop :=
| proto_ret n u :
    terminalUrl u → proto j n (Some u) (Ret tt)
| proto_set n cur u k :
    proto j n (Some u) k → proto j n cur (Do (SetScenes (setImageUrl j u)) k)
| proto_log n cur c k :
    silent c → proto j n cur k → proto j n cur (Do c k)
| proto_await n cur r k :
    (∀ resp, proto j n cur (k resp)) → proto j (S n) cur (Await r k).

(** The panel [j] of [scs] carries what the function last wrote. *)
Definition written (j : nat) (cur : option value) (scs : list Scene) : Prop :=
  ∀ u, cur = Some u → ∃ sc, scs !! j = Some sc ∧ sc !! "imageUrl" = Some u.

(** A function of the pool and its panel agree: a function that has returned
    left the panel resolved, a suspended one goes on as [proto] says, and none
    has thrown. *)
Definition panel_ok (n : nat) (scs : list Scene) (j : nat)
    (s : Status Empty_set unit) : Prop :=
  match s with
  | Returned _ => ∃ sc, scs !! j = Some sc ∧ resolved (imageStatus sc) = true
  | Waiting _ k => ∃ cur, (∀ resp, proto j n cur (k resp)) ∧ written j cur scs
  | _ => False
  end.

Definition pool_ok (n : nat) (scs : list Scene) (pool : Pool) : Prop :=
  length pool = length scs ∧ ∀ j s, pool !! j = Some s → panel_ok n scs j s.

(** Only the scenes differ between two states of the session, and there are
    as many. *)
Definition same_but_scenes (st st' : AppState) : Prop :=
  with_scenes (scenes st) st' = st ∧ length (scenes st') = length (scenes st).

(** Only panel [j] differs between two lists of scenes. *)
Definition only_panel (j : nat) (scs scs' : list Scene) : Prop :=
  length scs' = length scs ∧ ∀ i, i ≠ j → scs' !! i = scs !! i.

(** [{...s, ...newScriptData}] on the scene whose number is that of
    [sceneToRegen]. *)
Definition revise (sceneToRegen : Scene) (nd : gmap string value) (s : Scene) : Scene :=
  if strict_eq (s !! "scene") (sceneToRegen !! "scene") then nd ∪ s else s.

(** The session when [handleStartImageGeneration] has run to its end after
    [Promise.all] was fulfilled, and when it has caught [e]. *)
Definition complete (w : World) : World :=
  on_app (λ st, with_isLoading false
                  (with_isGenerated true
                     (with_progressMessage "Your comic is complete!" st))) w.

Definition failedWith (e : string) (w : World) : World :=
  on_app (λ st, with_isLoading false
                  (with_progressMessage ("Error: " +:+ e +:+ ". Please try again.") st))
         (record (Errored "An error occurred during generation:") w).

(** What [generateCharacterImage] throws on a response. *)
Definition characterFailure (r : Response) : option string :=
  match r with
  | Rejected e => Some e
  | Fulfilled None => Some "Cannot read properties of undefined (reading 'image')"
  | Fulfilled (Some _) => None
  end.

(** The session while the character image is awaited, and once it has come. *)
Definition designing (w : World) : World :=
  record (Requested (GenerateImages (storyIdea (app w)) (genre (app w)))
            (with_progressMessage "Designing your main character..."
               (with_isLoading true (with_isReviewingScript false (app w)))))
         (on_app (λ st, with_progressMessage "Designing your main character..."
                          (with_isLoading true (with_isReviewingScript false st))) w).

Definition designed (c : string) (w : World) : World :=
  on_app (λ st, with_progressMessage ("Generating " +:+ pretty (numPanels st)
                                      +:+ " comic panels in parallel...")
                  (with_characterImageB64 (Some c) st))
         (designing w).

(** Where [handleStartImageGeneration] can stand, outside development mode,
    after the moves [moves] from the session of [w]. *)
Definition settles (w : World) (moves : list Move) (h : HState unit) (w' : World) : Prop :=
  match h with
  | Solo (Returned _) =>
      isLoading (app w') = false ∧
      (isGenerated (app w') = true ∧
       length (scenes (app w')) = length (scenes (app w)) ∧
       Forall (λ sc, resolved (imageStatus sc) = true) (scenes (app w'))
       ∨ ∃ r e, Reply r ∈ moves ∧ characterFailure r = Some e ∧
                w' = failedWith e (designing w))
  | Solo (Waiting r _) => r = GenerateImages (storyIdea (app w)) (genre (app w))
  | Join pool _ => omap thrown pool = [] ∧ forallb returned pool = false
  | _ => False
  end.


(** Three responses for function [i] of the pool, and three for each of the
    first [n] functions in turn: enough for every function to come to its
    end. *)
Definition answers (rs : nat → nat → Response) (i : nat) : list Move :=
  [ReplyTo i (rs i 0); ReplyTo i (rs i 1); ReplyTo i (rs i 2)].

Definition allAnswers (rs : nat → nat → Response) (n : nat) : list Move :=
  flat_map (answers rs) (seq 0 n).

(** ** More vocabulary

    *** The streaming parser *)

(** While a literal name is read, no comma is among the characters that are
    still to come. *)
Definition expects_no_comma (σ : JSON.pstate) : Prop :=
  match JSON.pmode σ with
  | JSON.MLiteral rest _ => ∀ i, String.get i rest ≠ Some ","%char
  | _ => True
  end.

(** Where the machine stands right after a comma that it accepted: a value
    or a member name must follow, or the comma was inside a string. *)
Definition after_comma (σ : JSON.pstate) : Prop :=
  match JSON.pmode σ with
  | JSON.MValue false | JSON.MKey false | JSON.MString _ _ JSON.SPlain => True
  | _ => False
  end.

(** *** Scripts *)

(** The panels carry their numbers: panel [i], counted from zero, has
    [scene] equal to [i + 1], as [generateScripts] writes it. *)
Definition numbered (scs : list Scene) : Prop :=
  ∀ i sc, scs !! i = Some sc → sc !! "scene" = Some (number_of_nat (i + 1)).

(** The session when [generateAndStreamScripts] has run on a stream: the
    last emission, if there is one, is in [scenes], and the progress message
    asks for a review or reports the error, which is also on the console. *)
Definition streamed (stream : ScriptStream) (w : World) : World :=
  let written st :=
    with_scenes (default (scenes st) (last (emissions (generateScripts (fragments stream)))))
      st in
  match failure stream with
  | None =>
      on_app (λ st, with_progressMessage "Please review the generated script." (written st)) w
  | Some error =>
      on_app (λ st, with_progressMessage ("Error: " +:+ error +:+ ". Please try again.")
                      (written st))
             (record (Errored "An error occurred during script generation:") w)
  end.

(** The session after [handleGenerate] or [handleRegenerateScripts] has the
    panels [scs] written on it. *)
Definition drafted (scs : list Scene) (st : AppState) : AppState :=
  with_scenes scs
    (with_isLoading false
       (with_isReviewingScript true
          (with_characterImageB64 None (with_isGenerated false st)))).

Definition redrafted (scs : list Scene) (st : AppState) : AppState :=
  with_isRegeneratingScript false (with_isGenerated false (with_scenes scs st)).

(** *** Images *)

(** The placeholder that development mode writes on panel [i]. *)
Definition placeholderUrl (random : nat → string) (i : nat) (scene : Scene) : string :=
  "https://picsum.photos/seed/" +:+ textOf (scene !! "scene") +:+ random i +:+ "/1600/900".

(** The session while [handleRegenerateImage] waits for its first attempt on
    panel [i], and while it waits before and for its second. *)
Definition regenerating (i : nat) (st : AppState) : AppState :=
  withScenes (setImageUrl i JNull) (with_isRegeneratingImage true st).

Definition retryingPanel (i : nat) (st : AppState) : AppState :=
  withScenes (setImageUrl i (JString "RETRYING")) (regenerating i st).

(** Panel [i] has become [scene] with the image [u]; nothing else differs. *)
Definition repainted (i : nat) (scene : Scene) (u : value) (st : AppState) : AppState :=
  with_scenes (<[i := <["imageUrl" := u]> scene]> (scenes st)) st.

(** [imageUrl?: string | null]: the property is absent, [null] or a string. *)
Definition typedImageUrl (imageUrl : option value) : Prop :=
  match imageUrl with
  | None | Some JNull | Some (JString _) => True
  | _ => False
  end.

(** *** Base 64, as the image service writes it

    Three bytes give four symbols of six bits each; one or two bytes left
    over give two or three symbols, and equals signs fill the last group of
    four. *)
Module Encode.

Definition alphabet : string :=
  "ABCDEFGHIJKLMNOPQRSTUVWXYZabcdefghijklmnopqrstuvwxyz0123456789+/".

Definition symbol (n : N) : ascii := default "="%char (String.get (N.to_nat n) alphabet).

Fixpoint sextets (bs : list N) : list N :=
  match bs with
  | a :: b :: c :: rest =>
      (a / 4)%N :: ((a mod 4) * 16 + b / 16)%N :: ((b mod 16) * 4 + c / 64)%N
        :: (c mod 64)%N :: sextets rest
  | [a; b] => [(a / 4)%N; ((a mod 4) * 16 + b / 16)%N; ((b mod 16) * 4)%N]
  | [a] => [(a / 4)%N; ((a mod 4) * 16)%N]
  | [] => []
  end.

Definition padding_of (left_over : nat) : list ascii :=
  match left_over with
  | 1 => ["="; "="]%char
  | 2 => ["="]%char
  | _ => []
  end.

Definition padding (bs : list N) : list ascii := padding_of (length bs mod 3).

Definition base64 (bs : list N) : string :=
  string_of_list_ascii ((symbol <$> sextets bs) ++ padding bs).

End Encode.

(** Bytes. *)
Definition octets (bs : list N) : Prop := Forall (λ b, (b < 256)%N) bs.

(** What a panel holds for [handleDownloadAll]: the image [bs], written in
    base 64 behind the prefix of [generateSceneImage], or no image at all,
    when the panel is loading, retrying or failed. *)
Definition holds (scene : Scene) (image : option (list N)) : Prop :=
  match image with
  | Some bs => octets bs ∧ scene !! "imageUrl" = Some (JString (dataUrl (Encode.base64 bs)))
  | None => typedImageUrl (scene !! "imageUrl") ∧ ∀ u, imageStatus scene ≠ Ready u
  end.

(** The link for the image [bs] of panel [index]. *)
Definition pngOf (index : nat) (bs : list N) : Download :=
  mkDownload (mkBlob bs "image/png") ("panel-" +:+ pretty (index + 1) +:+ ".png").

(** ** A render of [App], seen from the slideshow

    [App] renders [SlideshowModal] at every render, open or not, with its
    [isSlideshowOpen] as [isOpen], with its [scenes], and with an [onClose]
    that is a new function each time.  [onClose] is a dependency of the
    keyboard effect, and [scenes] one of the narration effect.  So at the
    commit of a render of [App] the clean-up of the keyboard effect runs,
    which cancels speech; then the narration effect, if the array of scenes is
    a new one or another of its dependencies changed; then the keyboard
    effect.  The commits of the state that the keyboard effect sets follow as
    in [SlideshowModal.settle]: in these [SlideshowModal] renders alone, with
    the properties it has. *)
Definition appCommit (scenes : list Scene) (newScenes : bool)
    (old cur : SlideshowModal.State) : SlideshowModal.State * list Event :=
  let narrationChanged :=
    newScenes
    || bool_decide (SlideshowModal.narrationDeps cur ≠ SlideshowModal.narrationDeps old) in
  let next := SlideshowModal.keyEffect cur in
  let events :=
    Cancelled :: (if narrationChanged then SlideshowModal.narrate scenes cur else []) in
  if decide (next = cur) then (cur, events)
  else
    let '(final, events') := SlideshowModal.settle scenes 3 cur next in
    (final, events ++ events').

(** The slideshow of a session: [isOpen] is the [isSlideshowOpen] of [App],
    [currentIndex] and [isCompleted] are the slideshow's own. *)
Definition slideshowOf (st : AppState) (currentIndex : Z) (isCompleted : bool)
    : SlideshowModal.State :=
  SlideshowModal.mkState (isSlideshowOpen st) currentIndex isCompleted.

(** A click on "Create Another Comic": [startOver], and the commit of the
    render that follows.  [setScenes([])] stores a new array, so [App] renders
    again whatever the session was, and the slideshow receives new scenes. *)
Definition clickStartOver (w : World) (currentIndex : Z) (isCompleted : bool)
    : World * SlideshowModal.State :=
  let w' := (advance (F:=Empty_set) startOver w).2 in
  let '(final, events) :=
    appCommit (scenes (app w')) true
      (slideshowOf (app w) currentIndex isCompleted)
      (slideshowOf (app w') currentIndex isCompleted) in
  (mkWorld (app w') (modalIsRegenerating w') (log w' ++ events), final).
(** * Facts

    ** Sample runs of [JSON_parse] *)

Example parse_ex1 :
  JSON_parse (json "[{'a': 'x\nA', 'b': [1, -2.50, 1e2, true, null]}, []] ")
  = Some (JArray [JObject {["a" := JString ("x" +:+ String "010" "A");
                            "b" := JArray [JNumber 1; JNumber (-5 # 2); JNumber 100;
                                           JBool true; JNull]]};
                  JArray []]).
Proof. vm_compute. reflexivity. Qed.

Example parse_ex2 : JSON_parse "[1,]" = None.
Proof. reflexivity. Qed.

Example parse_ex3 : JSON_parse " 12 " = Some (JNumber 12).
Proof. reflexivity. Qed.

Example parse_ex4 : JSON_parse "[01]" = None.
Proof. reflexivity. Qed.

Example parse_ex5 : JSON_parse (json "{'a':1,'a':2}") = Some (JObject {["a" := JNumber 2]}).
Proof. vm_compute. reflexivity. Qed.

Example parse_ex6 : JSON_parse "" = None.
Proof. reflexivity. Qed.

Example stream_ex1 :
  generateScripts [(json "[{'script':'a'}"); (json ",{'scri"); (json "pt':'b'}]")]
  = [Some [ {["script" := JString "a"; "scene" := JNumber 1; "imageUrl" := JNull]} ];
     None;
     Some [ {["script" := JString "a"; "scene" := JNumber 1; "imageUrl" := JNull]};
            {["script" := JString "b"; "scene" := JNumber 2; "imageUrl" := JNull]} ]].
Proof. vm_compute. reflexivity. Qed.

Example spread_ex : spread (JString "ab") = {["0" := JString "a"; "1" := JString "b"]}.
Proof. vm_compute. reflexivity. Qed.

(** ** The parser reads left to right *)

Module JSONFacts.
Import JSON.

(** Tests on characters are kept folded; [eval_chars] decides the closed ones. *)
Local Arguments Ascii.eqb : simpl never.
Local Arguments is_ws : simpl never.
Local Arguments digit_of : simpl never.
Local Arguments hex_of : simpl never.
Local Arguments is_e : simpl never.
Local Arguments N_of_ascii : simpl never.

Ltac char_value t :=
  let r := eval vm_compute in t in
  lazymatch r with
  | true => change t with true in *
  | false => change t with false in *
  | None => change t with r in *
  | Some _ => change t with r in *
  end.

Ltac eval_chars :=
  repeat match goal with
  | H : context [Ascii.eqb ?a ?b] |- _ => char_value (Ascii.eqb a b)
  | H : context [is_ws ?a] |- _ => char_value (is_ws a)
  | H : context [is_e ?a] |- _ => char_value (is_e a)
  | H : context [digit_of ?a] |- _ => char_value (digit_of a)
  | H : context [hex_of ?a] |- _ => char_value (hex_of a)
  | H : context [N.ltb (N_of_ascii ?a) ?n] |- _ => char_value (N.ltb (N_of_ascii a) n)
  end.


Lemma run_app σ s1 s2 :
  run σ (s1 +:+ s2) = run σ s1 ≫= λ σ', run σ' s2.
Proof.
  revert σ. induction s1 as [|c s1 IH]; intros σ; simpl; [done|].
  destruct (step σ c) as [σ'|]; simpl; [apply IH | done].
Qed.

Lemma run_none_app s1 s2 : run init s1 = None → JSON_parse (s1 +:+ s2) = None.
Proof. intros H. unfold JSON_parse. by rewrite run_app, H. Qed.

Lemma bottom_cons f g st : bottom (f :: g :: st) = bottom (g :: st).
Proof. done. Qed.

Lemma bottom_push f st : bottom st `prefix_of` bottom (f :: st).
Proof. destruct st; [apply prefix_nil | done]. Qed.

Lemma committed_lexing st md :
  (∀ v, md ≠ MDone v) → committed (PState st md) = bottom st.
Proof. intros H. destruct md; try done. by destruct (H v). Qed.

Lemma bottom_push_value v st : bottom st `prefix_of` committed (push_value v st).
Proof.
  destruct st as [|[es|ps k] [|g st]]; simpl; unfold committed; simpl;
    try (destruct v; apply prefix_nil); try done.
  unfold bottom; simpl. by apply prefix_app_r.
Qed.

Lemma bottom_close_array st σ :
  close_array st = Some σ → bottom st `prefix_of` committed σ.
Proof.
  destruct st as [|[es|ps k] st]; simpl; intros H; simplify_eq.
  destruct st as [|g st]; [done|]. rewrite bottom_cons. apply bottom_push_value.
Qed.

Lemma bottom_close_object st σ :
  close_object st = Some σ → bottom st `prefix_of` committed σ.
Proof.
  destruct st as [|[es|ps k] st]; simpl; intros H; simplify_eq.
  destruct st as [|g st]; [apply prefix_nil|]. rewrite bottom_cons. apply bottom_push_value.
Qed.

Lemma bottom_end_string isKey s st σ :
  end_string isKey s st = Some σ → bottom st `prefix_of` committed σ.
Proof.
  unfold end_string. destruct isKey; intros H.
  - destruct st as [|[es|ps k] st]; simplify_eq. by destruct st.
  - simplify_eq. apply bottom_push_value.
Qed.

Lemma bottom_start_value c st σ :
  start_value c st = Some σ → bottom st `prefix_of` committed σ.
Proof.
  unfold start_value. intros H.
  repeat case_match; simplify_eq; rewrite committed_lexing by done; simpl;
    try done; apply bottom_push.
Qed.

Lemma bottom_string_step isKey acc esc c st σ :
  string_step isKey acc esc c st = Some σ → bottom st `prefix_of` committed σ.
Proof.
  unfold string_step. intros H.
  repeat case_match; simplify_eq; eauto using bottom_end_string.
Qed.

(** Reading one more character never takes back an element of the outermost
    array. *)
Lemma step_main_committed σ c σ' :
  step_main σ c = Some σ' → committed σ `prefix_of` committed σ'.
Proof.
  destruct σ as [st md]. unfold step_main. simpl. intros H.
  destruct md; simpl in H;
    try (rewrite (committed_lexing st) by done);
    repeat case_match; simplify_eq;
    eauto using bottom_close_array, bottom_close_object, bottom_start_value,
      bottom_string_step, bottom_push_value.
Qed.

Lemma step_committed σ c σ' :
  step σ c = Some σ' → committed σ `prefix_of` committed σ'.
Proof.
  destruct σ as [st md]. unfold step. simpl. intros H.
  destruct md as [| | | | |p a| |]; try (by apply (step_main_committed _ c)).
  rewrite committed_lexing by done.
  destruct (num_step p a c); simplify_eq; [done|].
  etrans; [apply (bottom_push_value (JNumber (num_value a)))|].
  by apply step_main_committed in H.
Qed.

Lemma run_committed s σ σ' :
  run σ s = Some σ' → committed σ `prefix_of` committed σ'.
Proof.
  revert σ. induction s as [|c s IH]; intros σ; simpl; intros H; [by simplify_eq|].
  destruct (step σ c) as [σ1|] eqn:E; [|done].
  etrans; [by apply step_committed in E | by apply IH].
Qed.


Lemma finish_array σ l :
  finish σ = Some (JArray l) → pmode σ = MDone (JArray l).
Proof.
  unfold finish. destruct σ as [st md]; simpl.
  intros H. repeat case_match; by simplify_eq.
Qed.

Lemma run_done s σ σ' v :
  pmode σ = MDone v → run σ s = Some σ' → σ' = σ.
Proof.
  intros Hd. induction s as [|c s IH]; simpl; intros H; [by simplify_eq|].
  destruct σ as [st md]. simpl in Hd. subst md.
  unfold step, step_main in H. simpl in H.
  destruct (is_ws c); [by apply IH | done].
Qed.

(** The closing bracket that the repair parse appends: what it can complete. *)
Lemma repair_shape σ σ1 l :
  step σ "]" = Some σ1 → finish σ1 = Some (JArray l) →
  l = committed σ ∨
  ∃ p a es, pmode σ = MNumber p a ∧ stack σ = [FArr es] ∧
            l = es ++ [JNumber (num_value a)].
Proof.
  intros Hs Hf. apply finish_array in Hf.
  destruct σ as [st md]. destruct σ1 as [st1 md1]. simpl in Hf. subst md1.
  unfold step, step_main, start_value, string_step in Hs. simpl in Hs.
  destruct md as [[]|[]| | |isKey acc []|p a|rest x|v]; simpl in Hs;
    eval_chars; simpl in Hs; try done.
  all: try (destruct (num_step p a "]"); [done| |done]).
  - destruct st as [|[es|ps k] [|g st]]; simpl in Hs; simplify_eq; [by left|].
    destruct g; simplify_eq.
  - destruct st as [|[es|ps k] [|g st]]; simpl in Hs; simplify_eq; [by left|].
    destruct g; simplify_eq.
  - destruct st as [|[es|ps k] [|g st]]; simpl in Hs; eval_chars; simpl in Hs;
      simplify_eq.
    + right. eauto 10.
    + destruct g; simplify_eq.
  - destruct rest as [|c' [|]]; simpl in Hs; try done.
    + destruct (Ascii.eqb _ _); [|done].
      destruct st as [|[es|ps k] st]; destruct x; simplify_eq.
    + destruct (Ascii.eqb _ _); simplify_eq.
Qed.

(** A number that is being read inside the outermost array becomes, if the
    text goes on to a complete array, the element at its position. *)
Lemma pending_number s σ σ' p a es l' :
  pmode σ = MNumber p a → stack σ = [FArr es] →
  run σ s = Some σ' → pmode σ' = MDone (JArray l') →
  ∃ q, l' !! length es = Some (JNumber q).
Proof.
  revert σ p a. induction s as [|c s IH]; intros σ p a Hm Hst; simpl.
  - intros ? Hd. simplify_eq. congruence.
  - destruct (step σ c) as [σ1|] eqn:E; [|done]. intros Hr Hd.
    destruct σ as [st md]. simpl in Hm, Hst. subst st md.
    unfold step in E. simpl in E.
    destruct (num_step p a c) as [p' a'| |] eqn:En; simplify_eq.
    + by apply (IH (PState [FArr es] (MNumber p' a')) p' a').
    + pose proof (step_main_committed _ _ _ E) as H1.
      pose proof (run_committed _ _ _ Hr) as H2.
      unfold committed at 1 in H1. simpl in H1. unfold bottom in H1; simpl in H1.
      unfold committed at 2 in H2. rewrite Hd in H2.
      exists (num_value a).
      apply (prefix_lookup_Some (es ++ [JNumber (num_value a)])); [|by etrans].
      by rewrite lookup_app_r, Nat.sub_diag by done.
Qed.

(** The repair parse against the strict parse of any longer text. *)
Lemma repair_then_strict P R l l' :
  JSON_parse (P +:+ "]") = Some (JArray l) →
  JSON_parse (P +:+ R) = Some (JArray l') →
  l `prefix_of` l' ∨
  ∃ es q q', l = es ++ [JNumber q] ∧ es `prefix_of` l' ∧
             l' !! length es = Some (JNumber q').
Proof.
  unfold JSON_parse. rewrite !run_app.
  destruct (run init P) as [σ|] eqn:EP; simpl; [|done].
  destruct (step σ "]") as [σ1|] eqn:E1; [|done]. intros Hf1.
  destruct (run σ R) as [σ'|] eqn:E2; [|done]. intros Hf2.
  apply finish_array in Hf2.
  pose proof (run_committed _ _ _ E2) as Hpre.
  unfold committed at 2 in Hpre. rewrite Hf2 in Hpre.
  destruct (repair_shape _ _ _ E1 Hf1) as [->|(p & a & es & Hm & Hst & ->)]; [by left|].
  right. destruct (pending_number _ _ _ _ _ _ _ Hm Hst E2 Hf2) as [q' Hq'].
  exists es, (num_value a), q'. split_and!; [done| |done].
  destruct σ as [st md]. simpl in *. subst. done.
Qed.

Lemma repair_then_strict_length P R l l' :
  JSON_parse (P +:+ "]") = Some (JArray l) →
  JSON_parse (P +:+ R) = Some (JArray l') →
  length l ≤ length l'.
Proof.
  intros H1 H2.
  destruct (repair_then_strict _ _ _ _ H1 H2) as [Hp|(es & q & q' & -> & Hp & Hq)].
  - by apply prefix_length.
  - apply lookup_lt_Some in Hq. rewrite length_app. simpl. lia.
Qed.

(** A strict parse is final: a longer text that parses has the same value. *)
Lemma strict_then_strict P R v v' :
  JSON_parse P = Some v → JSON_parse (P +:+ R) = Some v' →
  (∀ q, v ≠ JNumber q) → v' = v.
Proof.
  unfold JSON_parse. rewrite run_app.
  destruct (run init P) as [σ|] eqn:EP; simpl; [|done]. intros Hf1.
  destruct (run σ R) as [σ'|] eqn:E2; [|done]. intros Hf2 Hn.
  assert (pmode σ = MDone v) as Hd.
  { unfold finish in Hf1. destruct σ as [st md]; simpl in *.
    repeat case_match; simplify_eq; try done. by destruct (Hn (num_value acc)). }
  apply (run_done _ _ _ _ Hd) in E2. subst. congruence.
Qed.

End JSONFacts.

(** ** The streaming script parser *)


Section Stream.
Import JSONFacts.

Lemma string_app_assoc (s1 s2 s3 : string) : (s1 +:+ s2) +:+ s3 = s1 +:+ (s2 +:+ s3).
Proof.
  induction s1 as [|c s1 IH]; [done|].
  change (String c ((s1 +:+ s2) +:+ s3) = String c (s1 +:+ (s2 +:+ s3))). by rewrite IH.
Qed.

Lemma string_app_nil_r (s : string) : s +:+ "" = s.
Proof.
  induction s as [|c s IH]; [done|].
  change (String c (s +:+ "") = String c s). by rewrite IH.
Qed.


Lemma foldl_string_app (s : string) (chunks : list string) :
  foldl String.append s chunks = s +:+ received chunks.
Proof.
  unfold received. revert s. induction chunks as [|c cs IH] using rev_ind; intros s.
  - simpl. by rewrite string_app_nil_r.
  - rewrite !foldl_snoc, IH. simpl. by rewrite string_app_assoc.
Qed.

Lemma received_app (xs ys : list string) :
  received (xs ++ ys) = received xs +:+ received ys.
Proof. unfold received at 1. rewrite foldl_app. apply foldl_string_app. Qed.

Lemma received_cons (x : string) (xs : list string) :
  received (x :: xs) = x +:+ received xs.
Proof. unfold received at 1. simpl. apply foldl_string_app. Qed.

(** Both branches of the conditional append the same bracket. *)
Lemma potentialArray_bracket (buffer : string) : potentialArray buffer = buffer +:+ "]".
Proof. unfold potentialArray. by destruct (endsWith buffer ","). Qed.

Lemma processChunk_outcome st chunk :
  chunk_outcome st chunk (processChunk st chunk).1 (processChunk st chunk).2.
Proof.
  unfold processChunk.
  destruct (JSON_parse (buffer st +:+ chunk)) as [v|] eqn:E.
  - destruct v; simpl; first [by apply strict_array | by apply nothing_new; rewrite ?E].
  - rewrite potentialArray_bracket.
    destruct (JSON_parse ((buffer st +:+ chunk) +:+ "]")) as [v|] eqn:E2;
      [destruct v|]; simpl; try (by apply nothing_new; rewrite ?E).
    destruct (lastParsedLength st <? length l)%nat eqn:El; simpl.
    + apply repaired_array; [done..|]. by apply Nat.ltb_lt.
    + by apply nothing_new; rewrite ?E.
Qed.

Lemma processChunk_buffer st chunk :
  buffer (processChunk st chunk).1 = buffer st +:+ chunk.
Proof. by destruct (processChunk_outcome st chunk). Qed.

Lemma streamState_buffer st chunks :
  buffer (streamState st chunks) = buffer st +:+ received chunks.
Proof.
  revert st. induction chunks as [|c cs IH]; intros st; simpl.
  - unfold received. simpl. by rewrite string_app_nil_r.
  - unfold streamState in *. rewrite IH, processChunk_buffer, received_cons.
    by rewrite string_app_assoc.
Qed.

Lemma streamLoop_lookup st chunks k chunk :
  chunks !! k = Some chunk →
  streamLoop st chunks !! k
  = Some (processChunk (streamState st (take k chunks)) chunk).2.
Proof.
  revert st k. induction chunks as [|c cs IH]; intros st k; [done|].
  simpl. destruct (processChunk st c) as [st' out] eqn:E.
  destruct k as [|k]; simpl.
  - intros [= ->]. by rewrite E.
  - intros H. rewrite (IH st' k H). unfold streamState. simpl. by rewrite E.
Qed.

Lemma streamLoop_length st chunks : length (streamLoop st chunks) = length chunks.
Proof.
  revert st. induction chunks as [|c cs IH]; intros st; simpl; [done|].
  destruct (processChunk st c). simpl. by rewrite IH.
Qed.

Lemma streamLoop_snoc st chunks chunk :
  streamLoop st (chunks ++ [chunk])
  = streamLoop st chunks ++ [(processChunk (streamState st chunks) chunk).2].
Proof.
  revert st. induction chunks as [|c cs IH]; intros st; simpl.
  - by destruct (processChunk st chunk).
  - destruct (processChunk st c) as [st' out] eqn:E. simpl.
    by rewrite IH.
Qed.

Lemma bounded_processChunk st chunk :
  bounded st →
  bounded (processChunk st chunk).1 ∧
  lastParsedLength st ≤ lastParsedLength (processChunk st chunk).1.
Proof.
  intros Hb. destruct (processChunk_outcome st chunk) as [l Hl|l Hn Hl Hlt|Hn].
  - split.
    + intros R l' HR. simpl in *.
      assert (JArray l' = JArray l) as [= ->]; [|done].
      by apply (strict_then_strict _ _ _ _ Hl HR).
    + simpl. apply (Hb chunk l Hl).
  - split; [|simpl; lia].
    intros R l' HR. simpl in *. by eapply repair_then_strict_length.
  - split; [|done].
    intros R l' HR. simpl in *. rewrite string_app_assoc in HR. by eapply Hb.
Qed.

Lemma processChunk_emitted st chunk e :
  (processChunk st chunk).2 = Some e →
  length e = lastParsedLength (processChunk st chunk).1.
Proof.
  destruct (processChunk_outcome st chunk); intros; simplify_eq; simpl;
    by rewrite length_imap.
Qed.

Lemma streamLoop_sorted st chunks :
  bounded st →
  Forall (λ e, lastParsedLength st ≤ length e) (emissions (streamLoop st chunks)) ∧
  StronglySorted (λ a b : list Scene, length a ≤ length b)
    (emissions (streamLoop st chunks)).
Proof.
  revert st. induction chunks as [|c cs IH]; intros st Hb; simpl.
  - split; constructor.
  - destruct (processChunk st c) as [st' out] eqn:E.
    destruct (bounded_processChunk st c Hb) as [Hb' Hle]. rewrite E in Hb', Hle.
    simpl in Hb', Hle. destruct (IH st' Hb') as [Hall Hs].
    pose proof (processChunk_emitted st c) as He. rewrite E in He. simpl in He.
    unfold emissions in *. destruct out as [e|]; simpl.
    + specialize (He e eq_refl). split.
      * constructor; [lia|]. eapply Forall_impl; [done|]. simpl. lia.
      * constructor; [done|]. eapply Forall_impl; [done|]. simpl. lia.
    + split; [|done]. eapply Forall_impl; [done|]. simpl. lia.
Qed.

Lemma StronglySorted_lookup {A} (R : A → A → Prop) (l : list A) i j a b :
  StronglySorted R l → i < j → l !! i = Some a → l !! j = Some b → R a b.
Proof.
  intros Hs. revert i j. induction Hs as [|x l Hs IH Hall]; intros i j Hij Ha Hb; [done|].
  destruct j as [|j]; [lia|]. destruct i as [|i]; simpl in *.
  - simplify_eq. rewrite Forall_forall in Hall. apply Hall.
    by eapply list_elem_of_lookup_2.
  - apply (IH i j); [lia|done..].
Qed.

Lemma bounded_init : bounded (Stream "" 0).
Proof. intros R l' _. simpl. lia. Qed.

Lemma inside_string_silent (text : string) :
  insideString text = true →
  JSON_parse text = None ∧ JSON_parse (text +:+ "]") = None.
Proof.
  unfold insideString, JSON_parse. rewrite run_app.
  destruct (JSON.run JSON.init text) as [[st md]|]; [|done]. simpl.
  destruct md as [| | | |isKey acc esc| | |]; try done. intros _. split; [done|].
  unfold JSON.step, JSON.step_main, JSON.string_step. simpl.
  destruct esc; eval_chars; done.
Qed.

Lemma received_take_S (chunks : list string) k chunk :
  chunks !! k = Some chunk →
  received (take (S k) chunks) = received (take k chunks) +:+ chunk.
Proof.
  intros H. by rewrite (take_S_r _ _ _ H), received_app.
Qed.

Lemma received_take_drop (chunks : list string) k :
  received chunks = received (take k chunks) +:+ received (drop k chunks).
Proof. by rewrite <- received_app, take_drop. Qed.

Lemma streamState_buffer_snoc (chunks : list string) chunk :
  buffer (streamState (Stream "" 0) chunks) +:+ chunk = received (chunks ++ [chunk]).
Proof. by rewrite streamState_buffer, received_app. Qed.

(** The iteration that reads fragment [k]. *)
Lemma generateScripts_lookup chunks k chunk :
  chunks !! k = Some chunk →
  ∃ st, buffer st +:+ chunk = received (take (S k) chunks) ∧
        generateScripts chunks !! k = Some (processChunk st chunk).2.
Proof.
  intros H. exists (streamState (Stream "" 0) (take k chunks)). split.
  - by rewrite streamState_buffer, (received_take_S _ _ _ H).
  - by apply streamLoop_lookup.
Qed.

Lemma pendingScene_scene i v : pendingScene i v !! "scene" = Some (number_of_nat (i + 1)).
Proof. unfold pendingScene. by rewrite lookup_insert_ne, lookup_insert_eq. Qed.

Lemma pendingScene_imageUrl i v : pendingScene i v !! "imageUrl" = Some JNull.
Proof. unfold pendingScene. by rewrite lookup_insert_eq. Qed.

Lemma pendingScene_other i v k :
  k ≠ "scene" → k ≠ "imageUrl" → pendingScene i v !! k = spread v !! k.
Proof. intros. unfold pendingScene. by rewrite !lookup_insert_ne. Qed.

Lemma imap_take {A B} (f : nat → A → B) (l : list A) n :
  imap f (take n l) = take n (imap f l).
Proof.
  revert f n. induction l as [|x l IH]; intros f [|n]; simpl; try done.
  by rewrite IH.
Qed.

End Stream.

(** C1.  Whatever the fragments are, the panel lists that [generateScripts]
    emits never get shorter: an emission is at least as long as every earlier
    one. *)
Theorem C1_emitted_length_monotone (chunks : list string) (i j : nat)
    (a b : list Scene) :
  i ≤ j →
  emissions (generateScripts chunks) !! i = Some a →
  emissions (generateScripts chunks) !! j = Some b →
  length a ≤ length b.
Proof.
  intros Hij Ha Hb.
  destruct (streamLoop_sorted (Stream "" 0) chunks bounded_init) as [_ Hs].
  destruct (decide (i = j)) as [->|Hne]; [by simplify_eq|].
  apply (StronglySorted_lookup _ _ i j a b Hs); [lia|done..].
Qed.

Lemma C1_emitted_length_monotone_witness :
  length (imap pendingScene [JObject ∅]) ≤ length (imap pendingScene [JObject ∅; JObject ∅]).
Proof.
  apply (C1_emitted_length_monotone ["[{}"; ",{"; "}]"] 0 1);
    [lia | vm_compute; reflexivity | vm_compute; reflexivity].
Defined.

(** C2.  At a buffer that ends in a comma the conditional inside
    [potentialArray] appends the bracket without removing the comma: the text
    handed to [JSON.parse] keeps the comma, the parse fails, and nothing is
    emitted although the buffer without the comma, closed, is an array of one
    complete panel. *)
Theorem C2_repair_keeps_trailing_comma :
  let complete := (json "[{'script':'a'}") in
  let buffer := complete +:+ "," in
  endsWith buffer "," = true ∧
  JSON_parse buffer = None ∧
  JSON_parse (complete +:+ "]") = Some (JArray [JObject {["script" := JString "a"]}]) ∧
  potentialArray buffer = (json "[{'script':'a'},]") ∧
  JSON_parse (potentialArray buffer) = None ∧
  generateScripts [buffer] = [None].
Proof. vm_compute. done. Qed.

(** C3.  When the fragments put together are a JSON array, the last panel
    list that [generateScripts] emits is the strict parse of the whole text,
    every element tagged with its position counted from one and with a null
    [imageUrl]; it has as many panels as the array has elements, and another
    split of the same text ends in the same list.  Panel [i] of the list has
    every other property of element [i] of the parsed array, with its value,
    and no property besides. *)
Theorem C3_final_emission_is_strict_parse (chunks chunks' : list string) (l : list value) :
  JSON_parse (received chunks) = Some (JArray l) →
  received chunks' = received chunks →
  scenesAfter (generateScripts chunks) = imap pendingScene l ∧
  length (scenesAfter (generateScripts chunks)) = length l ∧
  scenesAfter (generateScripts chunks') = scenesAfter (generateScripts chunks) ∧
  (∀ i s, scenesAfter (generateScripts chunks) !! i = Some s →
          s !! "scene" = Some (number_of_nat (i + 1)) ∧ imageStatus s = Loading) ∧
  (∀ i v, l !! i = Some v →
     ∃ s, scenesAfter (generateScripts chunks) !! i = Some s ∧
          s !! "scene" = Some (number_of_nat (i + 1)) ∧
          s !! "imageUrl" = Some JNull ∧
          (∀ k, k ≠ "scene" → k ≠ "imageUrl" → s !! k = spread v !! k) ∧
          (∀ m, v = JObject m →
             ∀ k, k ≠ "scene" → k ≠ "imageUrl" → s !! k = m !! k)).
Proof.
  assert (∀ cs, JSON_parse (received cs) = Some (JArray l) →
                scenesAfter (generateScripts cs) = imap pendingScene l) as Hmain.
  { intros cs Hp. destruct cs as [|c cs _] using rev_ind; [done|].
    unfold generateScripts, scenesAfter, emissions. rewrite streamLoop_snoc.
    destruct (processChunk_outcome (streamState (Stream "" 0) cs) c) as [l0 Hl|l0 Hn|Hn];
      rewrite streamState_buffer_snoc in *; simpl in *.
    - rewrite omap_app. simpl. rewrite last_snoc. simpl. congruence.
    - congruence.
    - by destruct (Hn l). }
  intros Hp Heq. rewrite (Hmain chunks Hp).
  split; [done|]. split; [by rewrite length_imap|]. split; [|split].
  - apply Hmain. by rewrite Heq.
  - intros i s. rewrite list_lookup_imap. intros Hs.
    destruct (l !! i) as [v|]; simpl in Hs; simplify_eq.
    split; [apply pendingScene_scene|].
    unfold imageStatus. by rewrite pendingScene_imageUrl.
  - intros i v Hv. exists (pendingScene i v). split_and!.
    + by rewrite list_lookup_imap, Hv.
    + apply pendingScene_scene.
    + apply pendingScene_imageUrl.
    + intros k. apply pendingScene_other.
    + intros m -> k. apply pendingScene_other.
Qed.

Lemma C3_final_emission_is_strict_parse_witness :
  let final :=
    scenesAfter (generateScripts [(json "[{'script':'a'},{'scr"); (json "ipt':'b'}]")]) in
  length final = 2 ∧
  (final !! 1 ≫= λ s, s !! "script") = Some (JString "b") ∧
  (final !! 1 ≫= λ s, s !! "scene") = Some (number_of_nat 2) ∧
  (final !! 1 ≫= λ s, s !! "panel_text") = None.
Proof.
  intros final.
  destruct (C3_final_emission_is_strict_parse
              [(json "[{'script':'a'},{'scr"); (json "ipt':'b'}]")]
              [(json "[{'script':'a'},{'script':'b'}]")]
              [JObject {["script" := JString "a"]}; JObject {["script" := JString "b"]}])
    as (_ & Hlen & _ & _ & Hfields).
  - vm_compute. reflexivity.
  - vm_compute. reflexivity.
  - destruct (Hfields 1 (JObject {["script" := JString "b"]}) eq_refl)
      as (s & Hs & Hscene & _ & _ & Hother).
    unfold final. rewrite Hs. cbn [mbind option_bind].
    split_and!; [exact Hlen|..].
    + by rewrite (Hother _ eq_refl "script").
    + exact Hscene.
    + by rewrite (Hother _ eq_refl "panel_text").
Defined.

(** C4.  When the fragments put together are an array of objects, every
    emitted panel list is the tagged form of a leading part of that array, so
    every emitted panel is a whole object of the source text; and a fragment
    after which the buffer ends inside a string literal emits nothing. *)
Theorem C4_no_truncated_panel (chunks : list string) (full : list value) :
  JSON_parse (received chunks) = Some (JArray full) →
  Forall isObject full →
  (∀ k e, generateScripts chunks !! k = Some (Some e) →
          e = imap pendingScene (take (length e) full)) ∧
  (∀ k, k < length chunks →
        insideString (received (take (S k) chunks)) = true →
        generateScripts chunks !! k = Some None).
Proof.
  intros Hfull Hobj. split.
  - intros k e Hk.
    assert (is_Some (chunks !! k)) as [c Hc].
    { apply lookup_lt_is_Some. apply lookup_lt_Some in Hk.
      unfold generateScripts in Hk. by rewrite streamLoop_length in Hk. }
    destruct (generateScripts_lookup _ _ _ Hc) as (st & Hbuf & Hout).
    rewrite Hk in Hout. injection Hout as Hout.
    rewrite (received_take_drop chunks (S k)), <- Hbuf in Hfull.
    destruct (processChunk_outcome st c) as [l Hl|l Hn Hl Hlt|Hn]; simplify_eq.
    + assert (JArray full = JArray l) as [= ->]
        by by apply (JSONFacts.strict_then_strict _ _ _ _ Hl Hfull).
      by rewrite length_imap, firstn_all.
    + rewrite length_imap. f_equal.
      destruct (JSONFacts.repair_then_strict _ _ _ _ Hl Hfull)
        as [[k' ->]|(es & q & q' & -> & _ & Hq)].
      * by rewrite take_app_length.
      * rewrite Forall_lookup in Hobj. by destruct (Hobj _ _ Hq).
  - intros k Hk Hin.
    destruct (lookup_lt_is_Some_2 chunks k Hk) as [c Hc].
    destruct (generateScripts_lookup _ _ _ Hc) as (st & Hbuf & Hout).
    rewrite Hout. f_equal. rewrite <- Hbuf in Hin.
    destruct (inside_string_silent _ Hin) as [H1 H2].
    destruct (processChunk_outcome st c) as [l Hl|l Hn Hl Hlt|Hn]; [congruence..|done].
Qed.

Lemma C4_no_truncated_panel_witness :
  generateScripts [(json "[{'script':'a'},{'script':'scri"); (json "pt value'}]")] !! 0
  = Some None.
Proof.
  apply (C4_no_truncated_panel
           [(json "[{'script':'a'},{'script':'scri"); (json "pt value'}]")]
           [JObject {["script" := JString "a"]};
            JObject {["script" := JString "script value"]}]).
  - vm_compute; reflexivity.
  - repeat constructor.
  - simpl; lia.
  - vm_compute; reflexivity.
Defined.

(** ** Updates of one panel *)

Arguments setImageUrl : simpl never.

Lemma setImageUrl_length index u (prev : list Scene) :
  length (setImageUrl index u prev) = length prev.
Proof. unfold setImageUrl. apply length_imap. Qed.

Lemma setImageUrl_lookup index u (prev : list Scene) :
  setImageUrl index u prev !! index = <["imageUrl" := u]> <$> prev !! index.
Proof.
  unfold setImageUrl. rewrite list_lookup_imap.
  destruct (prev !! index); simpl; [|done]. by rewrite decide_True.
Qed.

Lemma setImageUrl_lookup_ne index u (prev : list Scene) j :
  j ≠ index → setImageUrl index u prev !! j = prev !! j.
Proof.
  intros Hne. unfold setImageUrl. rewrite list_lookup_imap.
  destruct (prev !! j); simpl; [|done]. by rewrite decide_False.
Qed.

Lemma setImageUrl_ge index u (prev : list Scene) :
  length prev ≤ index → setImageUrl index u prev = prev.
Proof.
  intros Hge. apply list_eq. intros j.
  destruct (decide (j = index)) as [->|Hne].
  - rewrite setImageUrl_lookup. by rewrite (lookup_ge_None_2 prev index).
  - by apply setImageUrl_lookup_ne.
Qed.

Lemma dataUrl_ready (data : string) :
  statusOfUrl (Some (JString ("data:image/png;base64," +:+ data)))
  = Ready ("data:image/png;base64," +:+ data).
Proof. done. Qed.


(** ** The slideshow *)

Module SlideshowFacts.
Import SlideshowModal.

Section Facts.
Variable scenes : list Scene.

(** *** The callbacks on their own *)

Lemma goToPrevious_at_first s :
  currentIndex s = 0%Z → goToPrevious s = s.
Proof. destruct s as [o i c]. cbn. by intros ->. Qed.

Lemma goToNext_at_last s :
  currentIndex s = (Z.of_nat (length scenes) - 1)%Z →
  goToNext scenes s = mkState (isOpen s) (currentIndex s) true.
Proof. intros H. unfold goToNext. by rewrite H, Z.ltb_irrefl. Qed.

Lemma handleKeyDown_completed key s :
  isCompleted s = true → key ≠ Escape → handleKeyDown scenes key s = s.
Proof. intros H Hk. unfold handleKeyDown. rewrite H. by destruct key. Qed.

Lemma handleRestart_resets s :
  currentIndex (handleRestart s) = 0%Z ∧ isCompleted (handleRestart s) = false.
Proof. done. Qed.

Lemma goToPrevious_inRange s : inRange scenes s → inRange scenes (goToPrevious s).
Proof.
  unfold inRange, goToPrevious. cbn [currentIndex]. intros [H0 H1].
  destruct (Z.ltb_spec 0 (currentIndex s)); lia.
Qed.

Lemma goToNext_inRange s : inRange scenes s → inRange scenes (goToNext scenes s).
Proof.
  unfold inRange, goToNext. intros [H0 H1].
  destruct (Z.ltb_spec (currentIndex s) (Z.of_nat (length scenes) - 1));
    cbn [currentIndex]; lia.
Qed.

Lemma handleKeyDown_inRange key s : inRange scenes s → inRange scenes (handleKeyDown scenes key s).
Proof.
  intros H. unfold handleKeyDown.
  destruct key; try done; destruct (isCompleted s);
    auto using goToPrevious_inRange, goToNext_inRange.
Qed.

Lemma handle_inRange input s :
  scenes ≠ [] → inRange scenes s → inRange scenes (handle scenes input s).
Proof.
  intros Hne H.
  assert (inRange scenes (handleRestart s)).
  { unfold inRange, handleRestart. cbn [currentIndex].
    destruct scenes; [done|]. cbn [length]. lia. }
  unfold handle. destruct input; try done.
  - by destruct (isOpen s).
  - destruct (isOpen s); [|done]. by apply handleKeyDown_inRange.
  - destruct (_ && _); [|done]. by apply goToPrevious_inRange.
  - destruct (panelShown _ _); [|done]. by apply goToNext_inRange.
  - by destruct (_ && _).
Qed.

(** *** The commits *)

Lemma pass_state old cur :
  (pass scenes old cur).1
  = if bool_decide (keyDeps cur ≠ keyDeps old) then keyEffect cur else cur.
Proof. done. Qed.

Lemma pass_events old cur :
  (pass scenes old cur).2
  = (if bool_decide (keyDeps cur ≠ keyDeps old) then [Cancelled] else [])
    ++ (if bool_decide (narrationDeps cur ≠ narrationDeps old)
        then narrate scenes cur else []).
Proof. done. Qed.

Lemma settle_stable fuel old cur :
  (pass scenes old cur).1 = cur →
  settle scenes (S fuel) old cur = (cur, (pass scenes old cur).2).
Proof.
  intros H. cbn [settle]. destruct (pass scenes old cur) as [next ev]. cbn [fst snd] in *.
  by rewrite decide_True.
Qed.

Lemma settle_again fuel old cur :
  (pass scenes old cur).1 ≠ cur →
  settle scenes (S fuel) old cur
  = ((settle scenes fuel cur (pass scenes old cur).1).1,
     (pass scenes old cur).2 ++ (settle scenes fuel cur (pass scenes old cur).1).2).
Proof.
  intros H. cbn [settle]. destruct (pass scenes old cur) as [next ev]. cbn [fst snd] in *.
  rewrite decide_False by done. by destruct (settle scenes fuel cur next).
Qed.

Lemma settle_events fuel old cur :
  (pass scenes old cur).2 `prefix_of` (settle scenes (S fuel) old cur).2.
Proof.
  destruct (decide ((pass scenes old cur).1 = cur)) as [H|H].
  - by rewrite settle_stable.
  - rewrite settle_again by done. cbn [snd]. by apply prefix_app_r.
Qed.

Lemma keyEffect_inRange s : scenes ≠ [] → inRange scenes s → inRange scenes (keyEffect s).
Proof.
  intros Hne H. unfold keyEffect. destruct (isOpen s); [|done].
  unfold inRange. cbn [currentIndex]. destruct scenes; [done|]. cbn [length]. lia.
Qed.

Lemma settle_inRange fuel old cur :
  scenes ≠ [] → inRange scenes cur → inRange scenes (settle scenes fuel old cur).1.
Proof.
  intros Hne. revert old cur. induction fuel as [|fuel IH]; intros old cur Hc; [done|].
  destruct (decide ((pass scenes old cur).1 = cur)) as [H|H].
  - by rewrite settle_stable.
  - rewrite settle_again by done. cbn [fst]. apply IH.
    rewrite pass_state. destruct (bool_decide _); [|done]. by apply keyEffect_inRange.
Qed.

(** The index stays on a panel, whatever the user does. *)
Lemma index_inRange inputs s :
  scenes ≠ [] → inRange scenes s → inRange scenes (dispatchAll scenes inputs s).
Proof.
  intros Hne. revert s. induction inputs as [|input inputs IH]; intros s Hs; [done|].
  cbn [dispatchAll]. apply IH. unfold dispatch.
  apply settle_inRange; [done|]. by apply handle_inRange.
Qed.

(** Opening the slideshow starts at the first panel. *)
Lemma open_resets i c :
  (dispatch scenes OpenSlideshow (mkState false i c)).1 = mkState true 0 false.
Proof.
  unfold dispatch. cbn [handle currentIndex isCompleted].
  destruct (decide (mkState true i c = mkState true 0 false)) as [H|H].
  - rewrite H. rewrite settle_stable; [done|].
    rewrite pass_state. by rewrite bool_decide_true.
  - rewrite settle_again; rewrite pass_state, bool_decide_true by done;
      [|by cbn; congruence].
    cbn [fst keyEffect isOpen]. rewrite settle_stable; [done|].
    rewrite pass_state. by destruct (bool_decide _).
Qed.

(** The commits that follow the raising of [isCompleted] while open. *)
Lemma settle_completed i :
  (settle scenes 3 (mkState true i false) (mkState true i true)).1 = mkState true 0 false.
Proof.
  rewrite settle_again.
  - rewrite pass_state, bool_decide_true by done.
    rewrite settle_stable; [done|].
    rewrite pass_state. by rewrite bool_decide_true.
  - by rewrite pass_state, bool_decide_true by done.
Qed.

(** Closing the slideshow cancels the narration. *)
Lemma close_cancels i c :
  Cancelled ∈ (dispatch scenes Close (mkState true i c)).2.
Proof.
  unfold dispatch. cbn [handle isOpen onClose currentIndex isCompleted].
  eapply elem_of_prefix; [|apply settle_events].
  rewrite pass_events, bool_decide_true by done. set_solver.
Qed.

End Facts.
End SlideshowFacts.

(** ** One panel of the bulk pipeline *)

Lemma resume_returned {F A} (a : A) rs w :
  resume (F:=F) (Returned a) rs w = (Returned a, w).
Proof. by destruct rs. Qed.

Lemma setImageUrl_spec index u (prev : list Scene) j :
  setImageUrl index u prev !! j
  = if decide (j = index) then <["imageUrl" := u]> <$> prev !! j else prev !! j.
Proof.
  case_decide as H; [subst; apply setImageUrl_lookup | by apply setImageUrl_lookup_ne].
Qed.

Lemma insert_imageUrl_spec u (s : Scene) k :
  <["imageUrl" := u]> s !! k = if decide (k = "imageUrl") then Some u else s !! k.
Proof.
  case_decide as H; [subst; apply lookup_insert_eq | by apply lookup_insert_ne].
Qed.

(** Two worlds are compared field by field, the logs up to the grouping of
    their concatenations. *)
Ltac world_eq :=
  unfold on_app, record; cbn [app log modalIsRegenerating];
  rewrite <- ?app_assoc; try done; repeat f_equal; done.

(** C6.  One function of the bulk pipeline, run on its own with the responses
    it gets.  A first attempt that succeeds writes the returned image on the
    panel.  A first attempt that fails logs a warning, marks the panel
    RETRYING, waits 500 ms and sends the same request again; a second success
    writes the image, a second failure logs the error and marks the panel
    FAILED, and in both cases the function has returned: later responses
    change nothing.  Every update rewrites the [imageUrl] of panel [i] and
    nothing else. *)
Theorem C6_panel_protocol (c g : string) (i : nat) (scene : Scene) (w : World) :
  let req := GenerateSceneContent scene c g in
  let task : Task unit := imageGenerationPromise c g i scene in
  let retrying := withScenes (setImageUrl i (JString "RETRYING")) (app w) in
  let warned :=
    log w ++ [Requested req (app w)] in
  let retried f1 :=
    warned ++ failureLog f1
      ++ [Warned ("Panel " +:+ pretty (i + 1) +:+ " failed once. Retrying...");
          Requested (Timeout 500) retrying;
          Requested req retrying] in
  (∀ d rest,
     runTask task (Fulfilled (Some d) :: rest) w
     = (Returned tt,
        mkWorld (withScenes (setImageUrl i (JString (dataUrl d))) (app w))
                (modalIsRegenerating w) warned)) ∧
  (∀ f1 timer d rest,
     runTask task (failed f1 :: timer :: Fulfilled (Some d) :: rest) w
     = (Returned tt,
        mkWorld (withScenes (setImageUrl i (JString (dataUrl d))) retrying)
                (modalIsRegenerating w) (retried f1))) ∧
  (∀ f1 timer f2 rest,
     runTask task (failed f1 :: timer :: failed f2 :: rest) w
     = (Returned tt,
        mkWorld (withScenes (setImageUrl i (JString "FAILED")) retrying)
                (modalIsRegenerating w)
                (retried f1 ++ failureLog f2
                   ++ [Errored ("Panel " +:+ pretty (i + 1)
                                +:+ " failed on second attempt.")]))) ∧
  (∀ u prev j,
     setImageUrl i u prev !! j
     = if decide (j = i) then <["imageUrl" := u]> <$> prev !! j else prev !! j) ∧
  (∀ u (s : Scene) k,
     <["imageUrl" := u]> s !! k = if decide (k = "imageUrl") then Some u else s !! k) ∧
  (∀ d (s : Scene),
     imageStatus (<["imageUrl" := JString (dataUrl d)]> s) = Ready (dataUrl d) ∧
     imageStatus (<["imageUrl" := JString "RETRYING"]> s) = Retrying ∧
     imageStatus (<["imageUrl" := JString "FAILED"]> s) = Failed).
Proof.
  intros req task retrying warned retried. split_and!.
  - intros d rest. unfold runTask, task. cbn. by rewrite resume_returned.
  - intros f1 timer d rest. unfold runTask, task, retried, warned.
    destruct f1; cbn; rewrite resume_returned; world_eq.
  - intros f1 timer f2 rest. unfold runTask, task, retried, warned.
    destruct f1, f2; cbn; rewrite resume_returned; world_eq.
  - apply setImageUrl_spec.
  - apply insert_imageUrl_spec.
  - intros d s. unfold imageStatus. by rewrite !lookup_insert_eq.
Qed.

(** ** Regenerating one image *)

Lemma imageStatus_null (s : Scene) : imageStatus (<["imageUrl" := JNull]> s) = Loading.
Proof. unfold imageStatus. by rewrite lookup_insert_eq. Qed.

Lemma imageStatus_dataUrl d (s : Scene) :
  imageStatus (<["imageUrl" := JString (dataUrl d)]> s) = Ready (dataUrl d).
Proof. unfold imageStatus. by rewrite lookup_insert_eq. Qed.

(** Without a character image, or while another regeneration runs, the
    handler returns at once. *)
Lemma handleRegenerateImage_guard (w : World) (i : nat) :
  match characterImageB64 (app w) with
  | Some c => String.eqb c "" || isRegeneratingImage (app w)
  | None => true
  end = true →
  advance (F:=Empty_set) (handleRegenerateImage (app w) i) w = (Returned tt, w).
Proof.
  unfold handleRegenerateImage. destruct (characterImageB64 (app w)); [|done].
  by intros ->.
Qed.

(** C7 (as the code has it).  With a character image at hand and no other
    regeneration running, regenerating panel [i] first writes [null] on it,
    and that state, in which the panel is loading, is the one on display
    while the first attempt is in flight, whatever the panel showed before;
    a first attempt that succeeds then makes the panel ready. *)
Theorem C7_regenerate_shows_loading_first (w : World) (i : nat) (scene : Scene)
    (c : string) :
  characterImageB64 (app w) = Some c → c ≠ "" →
  isRegeneratingImage (app w) = false →
  scenes (app w) !! i = Some scene →
  let loading := withScenes (setImageUrl i JNull) (with_isRegeneratingImage true (app w)) in
  let req := GenerateSceneContent scene c (genre (app w)) in
  (∃ k, advance (F:=Empty_set) (handleRegenerateImage (app w) i) w
        = (Waiting req k,
           mkWorld loading (modalIsRegenerating w) (log w ++ [Requested req loading]))) ∧
  imageStatus <$> scenes loading !! i = Some Loading ∧
  (∀ d rest,
     let w' := (runTask (F:=Empty_set) (handleRegenerateImage (app w) i)
                  (Fulfilled (Some d) :: rest) w).2 in
     imageStatus <$> scenes (app w') !! i = Some (Ready (dataUrl d)) ∧
     isRegeneratingImage (app w') = false).
Proof.
  intros Hc Hne Hreg Hi loading req.
  assert (String.eqb c "" = false) as Hc' by by apply String.eqb_neq.
  split_and!.
  - unfold handleRegenerateImage. rewrite Hc, Hc', Hreg, Hi. cbn. eexists. world_eq.
  - unfold loading, withScenes. cbn. rewrite setImageUrl_lookup.
    destruct w as [[] ? ?]; cbn in *. rewrite Hi. cbn. by rewrite imageStatus_null.
  - intros d rest. unfold runTask, handleRegenerateImage. rewrite Hc, Hc', Hreg, Hi. cbn.
    rewrite resume_returned. cbn. split; [|done].
    rewrite !setImageUrl_lookup, Hi. cbn. by rewrite imageStatus_dataUrl.
Qed.

Lemma C7_regenerate_shows_loading_first_witness :
  let ready : Scene := {["scene" := number_of_nat 1; "imageUrl" := JString (dataUrl "QUJD")]} in
  let st := mkApp "A lone astronaut" "Sci-Fi" false "Your comic is complete!"
              [ready] true false false false None 10 (Some "Q0hBUg==")
              false false None in
  imageStatus ready = Ready (dataUrl "QUJD") ∧
  imageStatus <$> scenes (withScenes (setImageUrl 0 JNull) (with_isRegeneratingImage true st)) !! 0
  = Some Loading.
Proof.
  intros ready st. split; [reflexivity|].
  apply (C7_regenerate_shows_loading_first (mkWorld st false []) 0 ready "Q0hBUg==");
    [reflexivity | done | reflexivity | reflexivity].
Defined.

(** C7 as the claim states it fails: in a session made in development mode
    there is no character image, and the handler leaves a ready panel as it
    is, without a request and without ever showing it as loading. *)
Lemma C7_regenerate_without_character_image :
  let ready : Scene := {["scene" := number_of_nat 1;
                         "imageUrl" := JString "https://picsum.photos/seed/10.5/1600/900"]} in
  let st := mkApp "A lone astronaut" "Sci-Fi" false "Your comic is complete!"
              [ready] true false false true None 10 None
              false false None in
  let w := mkWorld st false [] in
  runTask (F:=Empty_set) (handleRegenerateImage st 0) [Fulfilled (Some "QUJD")] w
  = (Returned tt, w) ∧
  imageStatus <$> scenes (app w) !! 0
  = Some (Ready "https://picsum.photos/seed/10.5/1600/900").
Proof. split; reflexivity. Qed.

(** ** Revising the script of one panel *)





(** ** The bulk pipeline *)

Lemma imageGenerationPromise_proto c g j scene :
  proto j 3 None (imageGenerationPromise c g j scene).
Proof.
  unfold imageGenerationPromise. cbn.
  apply proto_await. intros [[d|]|e]; cbn.
  - apply proto_set, proto_ret. done.
  - apply proto_log; [done|]. apply proto_log; [done|]. apply proto_set.
    apply proto_await. intros _. cbn. apply proto_await. intros [[d|]|e]; cbn.
    + apply proto_set, proto_ret. done.
    + apply proto_log; [done|]. apply proto_log; [done|].
      apply proto_set, proto_ret. done.
    + apply proto_log; [done|]. apply proto_set, proto_ret. done.
  - apply proto_log; [done|]. apply proto_set.
    apply proto_await. intros _. cbn. apply proto_await. intros [[d|]|e2]; cbn.
    + apply proto_set, proto_ret. done.
    + apply proto_log; [done|]. apply proto_log; [done|].
      apply proto_set, proto_ret. done.
    + apply proto_log; [done|]. apply proto_set, proto_ret. done.
Qed.

Lemma scenes_with_scenes v st : scenes (with_scenes v st) = v.
Proof. done. Qed.

Lemma with_scenes_twice v v' st : with_scenes v (with_scenes v' st) = with_scenes v st.
Proof. done. Qed.

Lemma with_scenes_id st : with_scenes (scenes st) st = st.
Proof. by destruct st. Qed.

Lemma same_but_scenes_refl st : same_but_scenes st st.
Proof. split; [apply with_scenes_id | done]. Qed.

Lemma only_panel_refl j scs : only_panel j scs scs.
Proof. done. Qed.

Lemma only_panel_trans j a b c :
  only_panel j a b → only_panel j b c → only_panel j a c.
Proof.
  intros [L1 H1] [L2 H2]. split; [congruence|].
  intros i Hi. by rewrite H2, H1.
Qed.

Lemma only_panel_setImageUrl j u scs : only_panel j scs (setImageUrl j u scs).
Proof.
  split; [apply setImageUrl_length|]. intros i Hi. by apply setImageUrl_lookup_ne.
Qed.

Lemma proto_weaken j n m cur p : proto j n cur p → n ≤ m → proto j m cur p.
Proof.
  intros Hp. revert m.
  induction Hp as [n u Hu|n cur u k Hk IH|n cur c k Hc Hk IH|n cur r k Hk IH]; intros m Hm.
  - by apply proto_ret.
  - apply proto_set. by apply IH.
  - apply proto_log; [done|]. by apply IH.
  - destruct m as [|m]; [lia|]. apply proto_await. intros resp. apply IH. lia.
Qed.

Lemma panel_ok_weaken n m scs j s : panel_ok n scs j s → n ≤ m → panel_ok m scs j s.
Proof.
  destruct s; try done. intros (cur & Hk & Hw) Hm. exists cur. split; [|done].
  intros resp. by eapply proto_weaken.
Qed.

(** A function and its panel still agree after a change of another panel. *)
Lemma panel_ok_frame n scs scs' j s :
  panel_ok n scs j s → scs' !! j = scs !! j → panel_ok n scs' j s.
Proof.
  destruct s; try done.
  - intros (sc & Hsc & Hr) Heq. exists sc. by rewrite Heq.
  - intros (cur & Hk & Hw) Heq. exists cur. split; [done|].
    intros u Hu. destruct (Hw u Hu) as (sc & Hsc & Hu'). exists sc. by rewrite Heq.
Qed.

(** One function runs until it stops: the session changes on its panel alone,
    and function and panel agree again. *)
Lemma advance_proto j n cur p w :
  proto j n cur p →
  j < length (scenes (app w)) →
  written j cur (scenes (app w)) →
  ∃ s w', advance p w = (s, w') ∧
          with_scenes (scenes (app w)) (app w') = app w ∧
          only_panel j (scenes (app w)) (scenes (app w')) ∧
          panel_ok (pred n) (scenes (app w')) j s.
Proof.
  intros Hp. revert w. induction Hp as [n u Hu|n cur u k Hk IH|n cur c k Hc Hk IH|n cur r k Hk IH];
    intros w Hj Hw.
  - exists (Returned tt), w. split_and!; [done|apply with_scenes_id|done|].
    destruct (Hw u eq_refl) as (sc & Hsc & Hu'). exists sc. split; [done|].
    unfold imageStatus. by rewrite Hu'.
  - cbn [advance perform].
    destruct (IH (on_app (λ st, with_scenes (setImageUrl j u (scenes st)) st) w))
      as (s & w' & Hadv & Hsame & Honly & Hok).
    + cbn. by rewrite setImageUrl_length.
    + intros u' [= <-]. cbn. rewrite setImageUrl_lookup.
      destruct (lookup_lt_is_Some_2 _ _ Hj) as [sc Hsc]. rewrite Hsc. cbn.
      eexists. split; [done|]. apply lookup_insert_eq.
    + exists s, w'. split_and!; [done| | |done].
      * apply (f_equal (with_scenes (scenes (app w)))) in Hsame.
        rewrite with_scenes_twice in Hsame.
        transitivity (with_scenes (scenes (app w)) (app w)); [exact Hsame|].
        apply with_scenes_id.
      * eapply only_panel_trans; [apply (only_panel_setImageUrl j u)|]. apply Honly.
  - cbn [advance].
    destruct c; try done; cbn [perform];
      match goal with
      | |- context [advance k ?w1] =>
          destruct (IH w1) as (s & w' & Hadv & Hsame & Honly & Hok);
          [done|done|]; exists s, w'; split_and!; done
      end.
  - exists (Waiting r k), (record (Requested r (app w)) w).
    split_and!; [done|apply with_scenes_id|done|]. exists cur. done.
Qed.

(** A response arrives for a function of the pool. *)
Lemma deliver_ok n i r pool w :
  pool_ok n (scenes (app w)) pool →
  ∃ pool' w', deliver i r pool w = (pool', w') ∧
              with_scenes (scenes (app w)) (app w') = app w ∧
              pool_ok n (scenes (app w')) pool' ∧
              length (scenes (app w')) = length (scenes (app w)) ∧
              (∀ j, j ≠ i → pool' !! j = pool !! j) ∧
              (∀ s, pool' !! i = Some s → panel_ok (pred n) (scenes (app w')) i s
                                          ∨ pool !! i = Some s ∧ returned s = true).
Proof.
  intros [Hlen Hok]. unfold deliver.
  destruct (pool !! i) as [s|] eqn:Hi.
  2:{ exists pool, w. split_and!; [done|apply with_scenes_id|done|done|done|].
      intros s Hs. congruence. }
  destruct s as [a|e|req k|[]].
  { exists pool, w. split_and!; [done|apply with_scenes_id|done|done|done|].
    intros s Hs. simplify_eq. by right. }
  { by destruct (Hok _ _ Hi). }
  destruct (Hok _ _ Hi) as (cur & Hk & Hw).
  assert (i < length (scenes (app w))) as Hlt.
  { rewrite <- Hlen. by eapply lookup_lt_Some. }
  destruct (advance_proto i n cur (k r) w (Hk r) Hlt Hw)
    as (s' & w' & Hadv & Hsame & [Hl Honly] & Hs').
  rewrite Hadv. exists (<[i:=s']> pool), w'. split_and!; [done|done| |done| |].
  - split; [by rewrite length_insert, Hl|].
    intros j s Hj. destruct (decide (j = i)) as [->|Hne].
    + rewrite list_lookup_insert_eq in Hj by by eapply lookup_lt_Some.
      simplify_eq. eapply panel_ok_weaken; [done|lia].
    + rewrite list_lookup_insert_ne in Hj by done.
      eapply panel_ok_frame; [by apply Hok|]. by apply Honly.
  - intros j Hj. by rewrite list_lookup_insert_ne.
  - intros s Hs. left.
    rewrite list_lookup_insert_eq in Hs by by eapply lookup_lt_Some. by simplify_eq.
Qed.

Lemma imageGenerationPromise_await c g j scene :
  ∃ r k, imageGenerationPromise (F:=Empty_set) c g j scene = Await r k ∧
         ∀ resp, proto j 2 None (k resp).
Proof.
  pose proof (imageGenerationPromise_proto c g j scene) as Hp.
  unfold imageGenerationPromise in *. cbn in Hp |- *.
  inversion Hp as [| | |n cur r k Hk]; subst. eauto.
Qed.

(** Starting functions that begin with a request: each sends its request and
    waits; the session is as before. *)
Lemma spawn_waiting (ts : list (Task unit)) off w :
  (∀ j t, ts !! j = Some t →
          ∃ r k, t = Await r k ∧ ∀ resp, proto (off + j) 2 None (k resp)) →
  ∃ pool w', spawn ts w = (pool, w') ∧
             app w' = app w ∧ modalIsRegenerating w' = modalIsRegenerating w ∧
             length pool = length ts ∧
             ∀ j s, pool !! j = Some s →
                    ∃ r k, s = Waiting r k ∧ ∀ resp, proto (off + j) 2 None (k resp).
Proof.
  revert off w. induction ts as [|t ts IH]; intros off w Hts.
  - exists [], w. by split_and!.
  - destruct (Hts 0 t eq_refl) as (r & k & -> & Hk). cbn [spawn advance].
    destruct (IH (S off) (record (Requested r (app w)) w))
      as (pool & w' & Hsp & Happ & Hmod & Hlen & Hall).
    { intros j t' Hj. destruct (Hts (S j) t' Hj) as (r' & k' & -> & Hk').
      eexists _, _. split; [done|]. intros resp.
      replace (S off + j) with (off + S j) by lia. apply Hk'. }
    rewrite Hsp. eexists _, w'. split_and!; [done|done|done|by cbn; rewrite Hlen|].
    intros [|j] s Hs; cbn in Hs; simplify_eq.
    + eexists _, _. split; [done|]. intros resp. apply Hk.
    + destruct (Hall j s Hs) as (r' & k' & -> & Hk').
      eexists _, _. split; [done|]. intros resp.
      replace (off + S j) with (S off + j) by lia. apply Hk'.
Qed.

Lemma spawn_promises c g w :
  ∃ pool w',
    spawn (imap (imageGenerationPromise c g) (scenes (app w))) w = (pool, w') ∧
    app w' = app w ∧ modalIsRegenerating w' = modalIsRegenerating w ∧
    pool_ok 2 (scenes (app w')) pool ∧
    Forall (λ s, returned s = false) pool.
Proof.
  destruct (spawn_waiting (imap (imageGenerationPromise c g) (scenes (app w))) 0 w)
    as (pool & w' & Hsp & Happ & Hmod & Hlen & Hall).
  { intros j t. rewrite list_lookup_imap. intros Ht.
    destruct (scenes (app w) !! j) as [sc|]; cbn in Ht; simplify_eq.
    apply imageGenerationPromise_await. }
  exists pool, w'. split_and!; [done|done|done| |].
  - rewrite Happ. split; [by rewrite Hlen, length_imap|].
    intros j s Hs. destruct (Hall j s Hs) as (r & k & -> & Hk).
    exists None. split; [done|]. by intros u.
  - apply Forall_lookup. intros j s Hs. by destruct (Hall j s Hs) as (r & k & -> & Hk).
Qed.

Lemma omap_none {A B} (f : A → option B) (l : list A) :
  Forall (λ x, f x = None) l → omap f l = [].
Proof. induction 1 as [|x l Hx _ IH]; [done|]. cbn. by rewrite Hx. Qed.

(** With every function in agreement with its panel, [Promise.all] is never
    rejected, and it is fulfilled only with every panel resolved. *)
Lemma verdict_ok n scs pool x :
  pool_ok n scs pool → verdict pool = Some x →
  x = None ∧ Forall (λ sc, resolved (imageStatus sc) = true) scs.
Proof.
  intros [Hlen Hok]. unfold verdict.
  assert (omap thrown pool = []) as ->.
  { apply omap_none. apply Forall_lookup. intros j s Hs.
    specialize (Hok j s Hs). by destruct s. }
  destruct (forallb returned pool) eqn:Hall; [|done]. intros [= <-]. split; [done|].
  apply Forall_lookup. intros j sc Hsc.
  destruct (lookup_lt_is_Some_2 pool j) as [s Hs].
  { rewrite Hlen. by eapply lookup_lt_Some. }
  rewrite forallb_forall in Hall. 
  assert (returned s = true) as Hr.
  { apply Hall. apply list_elem_of_In. by eapply list_elem_of_lookup_2. }
  specialize (Hok j s Hs). destruct s; try done.
  destruct Hok as (sc' & Hsc' & Hres). by simplify_eq.
Qed.

Lemma hrun_returned {A} (a : A) ms w :
  hrun ms (Solo (Returned a)) w = (Solo (Returned a), w).
Proof. induction ms as [|[] ms IH]; cbn; done. Qed.

Lemma verdict_none n scs pool :
  pool_ok n scs pool → verdict pool = None →
  omap thrown pool = [] ∧ forallb returned pool = false.
Proof.
  intros [Hlen Hok]. unfold verdict.
  assert (omap thrown pool = []) as ->.
  { apply omap_none. apply Forall_lookup. intros j s Hs.
    specialize (Hok j s Hs). by destruct s. }
  by destruct (forallb returned pool).
Qed.

(** While the handler waits at [Promise.all]. *)
Lemma join_phase n (k : option string → Handler unit) ms :
  (∀ w, start (k None) w = (Solo (Returned tt), complete w)) →
  ∀ pool w,
    pool_ok n (scenes (app w)) pool → verdict pool = None →
    match hrun ms (Join pool k) w with
    | (Solo (Returned _), w') =>
        ∃ w1, w' = complete w1 ∧
              length (scenes (app w1)) = length (scenes (app w)) ∧
              Forall (λ sc, resolved (imageStatus sc) = true) (scenes (app w1))
    | (Join pool' _, _) => omap thrown pool' = [] ∧ forallb returned pool' = false
    | _ => False
    end.
Proof.
  intros Hk. induction ms as [|m ms IH]; intros pool w Hok Hv.
  - cbn. by eapply verdict_none.
  - cbn [hrun hstep]. destruct m as [r|i r]; [by apply IH|].
    destruct (deliver_ok n i r pool w Hok)
      as (pool' & w' & Hd & Hsame & Hok' & Hlen & _). rewrite Hd.
    destruct (verdict pool') as [x|] eqn:Hv'.
    + destruct (verdict_ok _ _ _ _ Hok' Hv') as [-> Hall].
      rewrite Hk, hrun_returned. eauto.
    + specialize (IH pool' w' Hok' Hv').
      destruct (hrun ms (Join pool' k) w') as [[[]|] w2]; try done.
      destruct IH as (w1 & -> & Hl & Hall). exists w1. split_and!; [done|congruence|done].
Qed.

(** The handler up to its first suspension, outside development mode. *)
Lemma start_bulk random w :
  isDevMode (app w) = false →
  ∃ k, start (handleStartImageGeneration random (app w)) w
       = (Solo (Waiting (GenerateImages (storyIdea (app w)) (genre (app w))) k),
          designing w) ∧
       (∀ r e w1, characterFailure r = Some e →
                  start (k r) w1 = (Solo (Returned tt), failedWith e w1)) ∧
       (∀ c w1, ∃ k2,
          start (k (Fulfilled (Some c))) w1
          = start (All (imap (imageGenerationPromise c (genre (app w))) (scenes (app w))) k2)
              (on_app (λ st, with_progressMessage ("Generating " +:+ pretty (numPanels (app w))
                                                   +:+ " comic panels in parallel...")
                               (with_characterImageB64 (Some c) st)) w1) ∧
          ∀ w2, start (k2 None) w2 = (Solo (Returned tt), complete w2)).
Proof.
  intros Hdev. unfold handleStartImageGeneration. rewrite Hdev. cbn.
  eexists. split; [reflexivity|]. split.
  - intros [[d|]|e'] e w1 [= <-]; reflexivity.
  - intros c w1. eexists. split; reflexivity.
Qed.

Lemma settles_cons w m ms h w' : settles w ms h w' → settles w (m :: ms) h w'.
Proof.
  destruct h as [[]|]; try done. intros [H1 [H2|(r & e & Hr & He)]]; (split; [done|]);
    [by left|right]. exists r, e. split; [by apply list_elem_of_further | done].
Qed.


(** A function that suspends no more returns. *)
Lemma proto_0_returns j cur p w :
  proto j 0 cur p → returned (advance p w).1 = true.
Proof.
  intros Hp. remember 0 as n eqn:Hn. revert w.
  induction Hp as [n u Hu|n cur u k Hk IH|n cur c k Hc Hk IH|n cur r k Hk IH];
    intros w; [done| | |done].
  - cbn [advance]. by apply IH.
  - cbn [advance]. by apply IH.
Qed.

(** A response for function [i], which has at most [d] suspensions left. *)
Lemma deliver_depth n d i r pool w s :
  pool_ok n (scenes (app w)) pool →
  pool !! i = Some s → panel_ok d (scenes (app w)) i s →
  ∃ s', (deliver i r pool w).1 !! i = Some s' ∧
        panel_ok (pred d) (scenes (app (deliver i r pool w).2)) i s' ∧
        (d = 0 → returned s' = true).
Proof.
  intros [Hlen Hok] Hi Hs. unfold deliver. rewrite Hi.
  destruct s as [a|e|req k|[]]; try done.
  - exists (Returned a). by split_and!.
  - destruct Hs as (cur & Hk & Hw).
    assert (i < length (scenes (app w))) as Hlt.
    { rewrite <- Hlen. by eapply lookup_lt_Some. }
    destruct (advance_proto i d cur (k r) w (Hk r) Hlt Hw)
      as (s' & w' & Hadv & Hsame & [Hl Honly] & Hs').
    pose proof (proto_0_returns i cur (k r) w) as H0.
    rewrite Hadv in *. cbn [fst snd] in *. exists s'. split_and!; [|done|].
    + apply list_lookup_insert_eq. by eapply lookup_lt_Some.
    + intros ->. apply H0, Hk.
Qed.

Lemma hrun_app {A} ms1 ms2 (h : HState A) w :
  hrun (ms1 ++ ms2) h w = hrun ms2 (hrun ms1 h w).1 (hrun ms1 h w).2.
Proof.
  revert h w. induction ms1 as [|m ms1 IH]; intros h w; [done|].
  change ((m :: ms1) ++ ms2) with (m :: (ms1 ++ ms2)). cbn [hrun].
  destruct (hstep m h w) as [h' w']. apply IH.
Qed.

Section Liveness.
Variable k2 : option string → Handler unit.
Hypothesis Hk2 : ∀ w, start (k2 None) w = (Solo (Returned tt), complete w).

(** One response for function [i] while the handler waits at [Promise.all]. *)
Lemma join_step i r pool w d s :
  pool_ok 2 (scenes (app w)) pool →
  pool !! i = Some s → panel_ok d (scenes (app w)) i s →
  (hstep (ReplyTo i r) (Join pool k2) w).1 = Solo (Returned tt) ∨
  ∃ pool' s',
    (hstep (ReplyTo i r) (Join pool k2) w).1 = Join pool' k2 ∧
    pool_ok 2 (scenes (app (hstep (ReplyTo i r) (Join pool k2) w).2)) pool' ∧
    verdict pool' = None ∧ length pool' = length pool ∧
    (∀ j, j ≠ i → pool' !! j = pool !! j) ∧
    pool' !! i = Some s' ∧
    panel_ok (pred d) (scenes (app (hstep (ReplyTo i r) (Join pool k2) w).2)) i s' ∧
    (d = 0 → returned s' = true).
Proof.
  intros Hok Hi Hs. cbn [hstep].
  destruct (deliver_ok 2 i r pool w Hok) as (pool' & w' & Hd & _ & Hok' & Hl & Hne & _).
  assert (length pool' = length pool) by (destruct Hok, Hok'; congruence).
  destruct (deliver_depth 2 d i r pool w s Hok Hi Hs) as (s' & Hi' & Hs' & H0).
  rewrite Hd in *. cbn [fst snd] in *.
  destruct (verdict pool') as [x|] eqn:Hv.
  - left. destruct (verdict_ok _ _ _ _ Hok' Hv) as [-> _]. by rewrite Hk2.
  - right. exists pool', s'. by split_and!.
Qed.

(** Three responses for function [i]: it has returned. *)
Lemma serve rs i pool w s :
  pool_ok 2 (scenes (app w)) pool → pool !! i = Some s →
  (hrun (answers rs i) (Join pool k2) w).1 = Solo (Returned tt) ∨
  ∃ pool' s',
    (hrun (answers rs i) (Join pool k2) w).1 = Join pool' k2 ∧
    pool_ok 2 (scenes (app (hrun (answers rs i) (Join pool k2) w).2)) pool' ∧
    verdict pool' = None ∧ length pool' = length pool ∧
    (∀ j, j ≠ i → pool' !! j = pool !! j) ∧
    pool' !! i = Some s' ∧ returned s' = true.
Proof.
  intros Hok Hi. unfold answers. cbn [hrun].
  destruct (join_step i (rs i 0) pool w 2 s Hok Hi (proj2 Hok _ _ Hi))
    as [H1|(p1 & s1 & H1 & Hok1 & Hv1 & Hl1 & Hne1 & Hi1 & Hs1 & _)];
    destruct (hstep (ReplyTo i (rs i 0)) (Join pool k2) w) as [h1 w1];
    cbn [fst snd] in *; subst h1; [by left|].
  destruct (join_step i (rs i 1) p1 w1 1 s1 Hok1 Hi1 Hs1)
    as [H2|(p2 & s2 & H2 & Hok2 & Hv2 & Hl2 & Hne2 & Hi2 & Hs2 & _)];
    destruct (hstep (ReplyTo i (rs i 1)) (Join p1 k2) w1) as [h2 w2];
    cbn [fst snd] in *; subst h2; [by left|].
  destruct (join_step i (rs i 2) p2 w2 0 s2 Hok2 Hi2 Hs2)
    as [H3|(p3 & s3 & H3 & Hok3 & Hv3 & Hl3 & Hne3 & Hi3 & Hs3 & H0)];
    destruct (hstep (ReplyTo i (rs i 2)) (Join p2 k2) w2) as [h3 w3];
    cbn [fst snd] in *; subst h3; [by left|].
  right. exists p3, s3. split_and!; [done|done|done|congruence| |done|by apply H0].
  intros j Hj. by rewrite Hne3, Hne2, Hne1.
Qed.

(** Three responses for each function of [todo] in turn. *)
Lemma serve_all rs todo :
  ∀ pool w,
    pool_ok 2 (scenes (app w)) pool → verdict pool = None →
    (∀ i, i ∈ todo → i < length pool) →
    (hrun (flat_map (answers rs) todo) (Join pool k2) w).1 = Solo (Returned tt) ∨
    ∃ pool',
      (hrun (flat_map (answers rs) todo) (Join pool k2) w).1 = Join pool' k2 ∧
      pool_ok 2 (scenes (app (hrun (flat_map (answers rs) todo) (Join pool k2) w).2)) pool' ∧
      verdict pool' = None ∧ length pool' = length pool ∧
      (∀ j, j ∉ todo → pool' !! j = pool !! j) ∧
      (∀ j, j ∈ todo → ∃ s', pool' !! j = Some s' ∧ returned s' = true).
Proof.
  induction todo as [|i todo IH]; intros pool w Hok Hv Hlt.
  - right. exists pool. split_and!; [done|done|done|done|done|].
    intros j Hj. by apply elem_of_nil in Hj.
  - cbn [flat_map]. rewrite hrun_app.
    destruct (lookup_lt_is_Some_2 pool i) as [s Hi]; [apply Hlt, list_elem_of_here|].
    destruct (serve rs i pool w s Hok Hi)
      as [H1|(p1 & s1 & H1 & Hok1 & Hv1 & Hlen & Hne1 & Hi1 & Hr1)];
      destruct (hrun (answers rs i) (Join pool k2) w) as [h1 w1];
      cbn [fst snd] in *; subst h1; [left; by rewrite hrun_returned|].
    destruct (IH p1 w1 Hok1 Hv1) as [H2|(p2 & H2 & Hok2 & Hv2 & Hlen2 & Hout & Hin)].
    { intros j Hj. rewrite Hlen. apply Hlt. by apply list_elem_of_further. }
    { by left. }
    right. exists p2. split_and!; [done|done|done|congruence| |].
    + intros j Hj. apply not_elem_of_cons in Hj as [Hji Hj]. by rewrite Hout, Hne1.
    + intros j Hj. destruct (decide (j ∈ todo)) as [Hjt|Hjt]; [by apply Hin|].
      apply elem_of_cons in Hj as [->|Hj]; [|done].
      exists s1. by rewrite Hout.
Qed.
End Liveness.

(** The handler returns when the character image comes and every panel gets
    three responses, whatever they are. *)
Lemma bulk_generation_returns random w c rs :
  isDevMode (app w) = false →
  (runHandler (handleStartImageGeneration random (app w))
     (Reply (Fulfilled (Some c)) :: allAnswers rs (length (scenes (app w)))) w).1
  = Solo (Returned tt).
Proof.
  intros Hdev. destruct (start_bulk random w Hdev) as (k & Hstart & _ & Hok).
  unfold runHandler. rewrite Hstart. cbn [hrun hstep].
  destruct (Hok c (designing w)) as (k2 & -> & Hk2). cbn [start].
  match goal with |- context [spawn _ ?w2] => set (w2' := w2) end.
  destruct (spawn_promises c (genre (app w)) w2') as (pool & w3 & Hsp & Happ & _ & Hpool & _).
  change (scenes (app w2')) with (scenes (app w)) in Hsp. rewrite Hsp.
  destruct (verdict pool) as [x|] eqn:Hv.
  { destruct (verdict_ok _ _ _ _ Hpool Hv) as [-> _]. by rewrite Hk2, hrun_returned. }
  assert (length pool = length (scenes (app w))) as Hlen.
  { destruct Hpool as [-> _]. by rewrite Happ. }
  unfold allAnswers. rewrite <- Hlen.
  destruct (serve_all k2 Hk2 rs (seq 0 (length pool)) pool w3 Hpool Hv)
    as [H|(pool' & H & Hok' & Hv' & Hlen' & _ & Hall)]; [|done|].
  { intros i Hi. apply elem_of_seq in Hi. lia. }
  exfalso. destruct (verdict_none _ _ _ Hok' Hv') as [_ Hf].
  assert (forallb returned pool' = true) as Ht; [|congruence].
  apply forallb_forall. intros s Hs.
  apply list_elem_of_In, list_elem_of_lookup in Hs as [j Hj].
  destruct (Hall j) as (s' & Hs' & Hr); [|congruence].
  apply elem_of_seq. apply lookup_lt_Some in Hj. lia.
Qed.


(** C5.  [handleStartImageGeneration] outside development mode, under any
    sequence of responses.  It never throws.  While it waits at [Promise.all]
    no function of the pool has thrown and at least one has not returned.
    When it has returned, the loading flag is down and either the comic is
    marked generated, with as many panels as before and every one of them
    ready or failed, or the request for the character image had failed and
    the handler went straight to its [catch], before any panel was started. *)
Theorem C5_bulk_generation_settles (random : nat → string) (w : World) (moves : list Move) :
  isDevMode (app w) = false →
  settles w moves
    (runHandler (handleStartImageGeneration random (app w)) moves w).1
    (runHandler (handleStartImageGeneration random (app w)) moves w).2.
Proof.
  intros Hdev. destruct (start_bulk random w Hdev) as (k & Hstart & Hfail & Hok).
  unfold runHandler. rewrite Hstart. clear Hstart.
  induction moves as [|m ms IH]; [done|].
  cbn [hrun hstep]. destruct m as [r|i r]; [|by apply settles_cons].
  clear IH. destruct (characterFailure r) as [e|] eqn:Hr.
  { rewrite (Hfail r e _ Hr), hrun_returned. split; [done|]. right.
    exists r, e. split; [apply list_elem_of_here | done]. }
  destruct r as [[c|]|]; try done.
  destruct (Hok c (designing w)) as (k2 & -> & Hk2). cbn [start].
  match goal with |- context [spawn _ ?w2] => set (w2' := w2) end.
  destruct (spawn_promises c (genre (app w)) w2') as (pool & w3 & Hsp & Happ & _ & Hpool & _).
  change (scenes (app w2')) with (scenes (app w)) in Hsp. rewrite Hsp.
  destruct (verdict pool) as [x|] eqn:Hv.
  - destruct (verdict_ok _ _ _ _ Hpool Hv) as [-> Hall].
    rewrite Hk2, hrun_returned. cbn [fst snd settles]. split; [done|]. left. split; [done|].
    change (scenes (app (complete w3))) with (scenes (app w3)).
    split; [by rewrite Happ | done].
  - pose proof (join_phase 2 k2 ms Hk2 pool w3 Hpool Hv) as Hj.
    destruct (hrun ms (Join pool k2) w3) as [[[]|] w4]; try done.
    destruct Hj as (w1 & -> & Hlen & Hall). cbn [fst snd settles].
    split; [done|]. left. split; [done|].
    change (scenes (app (complete w1))) with (scenes (app w1)).
    split; [by rewrite Hlen, Happ | done].
Qed.

Lemma C5_bulk_generation_settles_witness :
  let panel1 : Scene := pendingScene 0 (JObject {["image_prompt" := JString "a rocket"]}) in
  let panel2 : Scene := pendingScene 1 (JObject {["image_prompt" := JString "a crater"]}) in
  let st := mkApp "A lone astronaut" "Sci-Fi" false "Please review the generated script."
              [panel1; panel2] false true false false None 2 None false false None in
  let w := mkWorld st false [] in
  let moves := [Reply (Fulfilled (Some "Q0hBUg=="));
                ReplyTo 1 (Rejected "503");
                ReplyTo 0 (Fulfilled (Some "UDE="));
                ReplyTo 1 (Fulfilled None);
                ReplyTo 1 (Fulfilled None)] in
  settles w moves
    (runHandler (handleStartImageGeneration (λ _, "0.5") st) moves w).1
    (runHandler (handleStartImageGeneration (λ _, "0.5") st) moves w).2.
Proof.
  intros panel1 panel2 st w moves.
  apply (C5_bulk_generation_settles (λ _, "0.5") w moves). reflexivity.
Defined.

(** The run of the witness: the second panel fails twice and ends failed,
    the first one is ready, and the comic is marked generated. *)
Example bulk_with_a_failing_panel :
  let panel1 : Scene := pendingScene 0 (JObject {["image_prompt" := JString "a rocket"]}) in
  let panel2 : Scene := pendingScene 1 (JObject {["image_prompt" := JString "a crater"]}) in
  let st := mkApp "A lone astronaut" "Sci-Fi" false "Please review the generated script."
              [panel1; panel2] false true false false None 2 None false false None in
  let final := (runHandler (handleStartImageGeneration (λ _, "0.5") st)
                  [Reply (Fulfilled (Some "Q0hBUg=="));
                   ReplyTo 1 (Rejected "503");
                   ReplyTo 0 (Fulfilled (Some "UDE="));
                   ReplyTo 1 (Fulfilled None);
                   ReplyTo 1 (Fulfilled None)]
                  (mkWorld st false [])).2 in
  imageStatus <$> scenes (app final) = [Ready (dataUrl "UDE="); Failed] ∧
  isGenerated (app final) = true ∧ isLoading (app final) = false.
Proof. vm_compute. done. Qed.

(** ** Start over, and the end of the slideshow *)

Lemma advance_startOver (w : World) :
  advance (F:=Empty_set) startOver w
  = (Returned tt,
     mkWorld (with_isReviewingScript false
                (with_storyIdea "" (with_scenes [] (with_isGenerated false (app w)))))
             (modalIsRegenerating w) (log w)).
Proof. by destruct w. Qed.

(** The commit of the render that [startOver] causes: the slideshow has no
    scenes left, and the other properties it had. *)
Lemma appCommit_startOver (o : bool) (i : Z) (c : bool) :
  appCommit [] true (SlideshowModal.mkState o i c) (SlideshowModal.mkState o i c)
  = (if o then SlideshowModal.mkState true 0 false else SlideshowModal.mkState false i c,
     Cancelled :: Cancelled ::
       (if o then
          if c
          then [Spoke "The slideshow is completed. Do you want to restart?";
                Cancelled; Cancelled]
          else if (i =? 0)%Z then [] else [Cancelled]
        else [])).
Proof.
  unfold appCommit. cbn [orb].
  destruct o; [destruct c; [|destruct (Z.eqb_spec i 0) as [->|Hi]]|].
  - rewrite decide_False by (cbn; congruence).
    cbn [SlideshowModal.keyEffect SlideshowModal.isOpen].
    rewrite SlideshowFacts.settle_stable.
    + rewrite SlideshowFacts.pass_events.
      unfold SlideshowModal.keyDeps, SlideshowModal.narrationDeps.
      rewrite !bool_decide_true by (cbn; congruence). done.
    + rewrite SlideshowFacts.pass_state. by case_bool_decide.
  - rewrite decide_True by done. done.
  - rewrite decide_False by (cbn; congruence).
    cbn [SlideshowModal.keyEffect SlideshowModal.isOpen].
    rewrite SlideshowFacts.settle_stable.
    + rewrite SlideshowFacts.pass_events.
      unfold SlideshowModal.keyDeps, SlideshowModal.narrationDeps.
      rewrite bool_decide_false by (cbn; intros H; by apply H).
      rewrite bool_decide_true by (cbn; congruence). done.
    + rewrite SlideshowFacts.pass_state. by case_bool_decide.
  - rewrite decide_True by done. done.
Qed.

(** C9.  A click on "Create Another Comic" stops narration, in every state
    of the session and of the slideshow.  [startOver] clears the panels and the
    story idea and lowers the generated and reviewing flags, and leaves
    everything else as it was.  Upon this reset the narration device is told
    to cancel: by the clean-up of the slideshow's keyboard effect and by its
    narration effect, which both run at the commit of the render that
    [startOver] causes.  The last call on the device is a cancel, so nothing
    is left speaking: with no panels left the only text the slideshow can
    still speak is that of a completed slideshow which is open, and it is
    cancelled at the next commit, which also puts the slideshow back to its
    first index, not completed. *)
Theorem C9_startOver_cancels_narration (w : World) (index : Z) (completed : bool) :
  let after := clickStartOver w index completed in
  let open := isSlideshowOpen (app w) in
  app after.1
  = with_isReviewingScript false
      (with_storyIdea "" (with_scenes [] (with_isGenerated false (app w)))) ∧
  modalIsRegenerating after.1 = modalIsRegenerating w ∧
  log after.1
  = log w ++ Cancelled :: Cancelled ::
      (if open then
         if completed
         then [Spoke "The slideshow is completed. Do you want to restart?";
               Cancelled; Cancelled]
         else if (index =? 0)%Z then [] else [Cancelled]
       else []) ∧
  (∃ before, log after.1 = log w ++ Cancelled :: before ++ [Cancelled]) ∧
  last (log after.1) = Some Cancelled ∧
  after.2 = (if open then SlideshowModal.mkState true 0 false
             else SlideshowModal.mkState false index completed).
Proof.
  intros after open.
  assert (after
          = (mkWorld (with_isReviewingScript false
                        (with_storyIdea "" (with_scenes [] (with_isGenerated false (app w)))))
                     (modalIsRegenerating w)
                     (log w ++ Cancelled :: Cancelled ::
                        (if open then
                           if completed
                           then [Spoke "The slideshow is completed. Do you want to restart?";
                                 Cancelled; Cancelled]
                           else if (index =? 0)%Z then [] else [Cancelled]
                         else [])),
             if open then SlideshowModal.mkState true 0 false
             else SlideshowModal.mkState false index completed)) as ->.
  { unfold after, clickStartOver, slideshowOf. rewrite advance_startOver.
    cbn [snd app modalIsRegenerating log].
    change (appCommit _ true _ _)
      with (appCommit [] true (SlideshowModal.mkState open index completed)
              (SlideshowModal.mkState open index completed)).
    by rewrite appCommit_startOver. }
  cbn [fst snd app modalIsRegenerating log].
  split_and!; try done.
  - destruct open; [destruct completed; [|destruct (index =? 0)%Z]|].
    + by exists [Cancelled; Spoke "The slideshow is completed. Do you want to restart?";
                 Cancelled].
    + by exists [].
    + by exists [Cancelled].
    + by exists [].
  - rewrite last_app.
    by destruct open; [destruct completed; [|destruct (index =? 0)%Z]|].
Qed.

(** C10.  What [goToNext] does on the last panel does not last.  It keeps the
    index and raises [isCompleted]; the keyboard effect has [isCompleted]
    among its dependencies, runs again, and since the slideshow is open puts
    the index back to 0 and lowers [isCompleted]. *)
Theorem C10_completion_is_undone_by_the_key_effect (scenes : list Scene) :
  let last := (Z.of_nat (length scenes) - 1)%Z in
  let s := SlideshowModal.mkState true last false in
  SlideshowModal.goToNext scenes s = SlideshowModal.mkState true last true ∧
  (SlideshowModal.dispatch scenes (SlideshowModal.KeyDown SlideshowModal.ArrowRight) s).1
  = SlideshowModal.mkState true 0 false.
Proof.
  intros last s.
  assert (SlideshowModal.goToNext scenes s = SlideshowModal.mkState true last true) as Hn
    by by apply SlideshowFacts.goToNext_at_last.
  split; [done|].
  unfold SlideshowModal.dispatch.
  change (SlideshowModal.handle scenes _ s) with (SlideshowModal.goToNext scenes s).
  rewrite Hn. apply SlideshowFacts.settle_completed.
Qed.

(** The same on three panels: the right arrow on the third one leads back to
    the first, with the slideshow not completed. *)
Example C10_three_panels :
  (SlideshowModal.dispatch [∅; ∅; ∅] (SlideshowModal.KeyDown SlideshowModal.ArrowRight)
     (SlideshowModal.mkState true 2 false)).1
  = SlideshowModal.mkState true 0 false.
Proof. vm_compute. reflexivity. Qed.

(** * More facts

    ** Worlds, field by field *)

Lemma world_ext (w : World) a m l :
  app w = a → modalIsRegenerating w = m → log w = l → w = mkWorld a m l.
Proof. destruct w. simpl. by intros -> -> ->. Qed.

Lemma app_record e w : app (record e w) = app w.
Proof. done. Qed.

Lemma app_on_app f w : app (on_app f w) = f (app w).
Proof. done. Qed.

Lemma log_record e w : log (record e w) = log w ++ [e].
Proof. done. Qed.

Lemma log_on_app f w : log (on_app f w) = log w.
Proof. done. Qed.

Lemma modal_record e w : modalIsRegenerating (record e w) = modalIsRegenerating w.
Proof. done. Qed.

Lemma modal_on_app f w : modalIsRegenerating (on_app f w) = modalIsRegenerating w.
Proof. done. Qed.

Create Rewrite HintDb world.
Hint Rewrite app_record app_on_app log_record log_on_app modal_record modal_on_app : world.

(** A world is compared with its three fields, each read off the chain of
    updates by rewriting. *)
Ltac fields := apply world_ext; autorewrite with world.

(** ** More on the streaming script parser *)

Module StreamFacts.
Import JSON JSONFacts.

Local Arguments Ascii.eqb : simpl never.
Local Arguments is_ws : simpl never.
Local Arguments digit_of : simpl never.
Local Arguments hex_of : simpl never.
Local Arguments is_e : simpl never.
Local Arguments N_of_ascii : simpl never.

Lemma push_value_mode v st :
  (∃ v', pmode (push_value v st) = MDone v') ∨ pmode (push_value v st) = MAfter.
Proof. destruct st as [|[es|ps k] st]; simpl; eauto. Qed.

Lemma expects_no_comma_push v st : expects_no_comma (push_value v st).
Proof.
  unfold expects_no_comma. by destruct (push_value_mode v st) as [[v' ->]| ->].
Qed.

Lemma step_main_no_comma σ c σ' :
  expects_no_comma σ → step_main σ c = Some σ' → expects_no_comma σ'.
Proof.
  destruct σ as [st md]. unfold step_main, expects_no_comma at 1. simpl.
  intros Hσ H.
  destruct md; simpl in H.
  - repeat case_match; simplify_eq; try done.
    + unfold close_array in H. repeat case_match; simplify_eq.
      apply expects_no_comma_push.
    + unfold start_value in H.
      repeat case_match; simplify_eq; try done;
        unfold expects_no_comma; simpl; intros [|[|[|[|[|i]]]]]; done.
  - repeat case_match; simplify_eq; try done.
    unfold close_object in H. repeat case_match; simplify_eq.
    apply expects_no_comma_push.
  - repeat case_match; by simplify_eq.
  - repeat case_match; simplify_eq; try done.
    + unfold close_array in H. repeat case_match; simplify_eq.
      apply expects_no_comma_push.
    + unfold close_object in H. repeat case_match; simplify_eq.
      apply expects_no_comma_push.
  - unfold string_step, end_string in H.
    repeat case_match; simplify_eq; try done; apply expects_no_comma_push.
  - done.
  - repeat case_match; simplify_eq; try apply expects_no_comma_push.
    unfold expects_no_comma. simpl. intros i. apply (Hσ (S i)).
  - repeat case_match; by simplify_eq.
Qed.

Lemma step_no_comma σ c σ' :
  expects_no_comma σ → step σ c = Some σ' → expects_no_comma σ'.
Proof.
  destruct σ as [st md]. unfold step. simpl. intros Hσ H.
  destruct md as [| | | | |p a| |]; try (by apply (step_main_no_comma _ c _ Hσ)).
  destruct (num_step p a c); simplify_eq; [done|].
  apply (step_main_no_comma _ c _ (expects_no_comma_push _ _) H).
Qed.

Lemma run_no_comma s σ σ' :
  expects_no_comma σ → run σ s = Some σ' → expects_no_comma σ'.
Proof.
  revert σ. induction s as [|c s IH]; intros σ Hσ; simpl; intros H; [by simplify_eq|].
  destruct (step σ c) as [σ1|] eqn:E; [|done].
  eapply IH; [by eapply step_no_comma | done].
Qed.

Lemma step_main_comma σ σ' :
  expects_no_comma σ → (∀ p a, pmode σ ≠ MNumber p a) →
  step_main σ "," = Some σ' → after_comma σ'.
Proof.
  destruct σ as [st md]. unfold step_main, expects_no_comma, after_comma. simpl.
  intros Hσ Hn H. destruct md; simpl in H; eval_chars; simpl in H.
  - destruct first; simpl in H; unfold start_value in H; eval_chars; done.
  - destruct first; simpl in H; done.
  - done.
  - repeat case_match; by simplify_eq.
  - unfold string_step in H. destruct esc; eval_chars; simpl in H; by simplify_eq.
  - by destruct (Hn pos acc).
  - destruct rest as [|c' rest']; [done|].
    destruct (Ascii.eqb_spec "," c') as [<-|]; [|done]. by destruct (Hσ 0).
  - done.
Qed.

Lemma step_comma σ σ' :
  expects_no_comma σ → step σ "," = Some σ' → after_comma σ'.
Proof.
  destruct σ as [st md]. unfold step. simpl. intros Hσ H.
  destruct md as [| | | | |p a| |]; try (by apply (step_main_comma _ _ Hσ)).
  destruct (num_step p a ",") eqn:En; simplify_eq.
  - exfalso. unfold num_step in En. destruct p; eval_chars; simpl in En; done.
  - apply (step_main_comma (push_value (JNumber (num_value a)) st));
      [apply expects_no_comma_push| |done].
    intros p' a'. by destruct (push_value_mode (JNumber (num_value a)) st) as [[v' ->]| ->].
Qed.

(** A text that ends in a comma is no JSON text, and neither is it once a
    bracket is put after the comma. *)
Lemma trailing_comma (b : string) :
  JSON_parse (b +:+ ",") = None ∧ JSON_parse ((b +:+ ",") +:+ "]") = None.
Proof.
  unfold JSON_parse. rewrite !run_app.
  destruct (run init b) as [σ|] eqn:Eb; simpl; [|done].
  destruct (step σ ",") as [σ'|] eqn:Es; simpl; [|done].
  assert (after_comma σ') as Ha.
  { eapply step_comma; [|done]. by eapply (run_no_comma b init). }
  destruct σ' as [st md]. unfold after_comma in Ha. simpl in Ha.
  destruct md as [[]|[]| | |isKey acc []| | |]; done.
Qed.

Lemma rev_app_last (s acc : string) c t :
  s ≠ "" → String.rev_app s acc = String c t → ∃ p, s = p +:+ String c "".
Proof.
  revert acc. induction s as [|a s IH]; intros acc Hne; [done|]. simpl.
  destruct s as [|a' s'].
  - simpl. intros [= -> _]. by exists "".
  - intros H. destruct (IH (String a acc)) as [p Hp]; [done|done|].
    exists (String a p). by rewrite Hp.
Qed.

Lemma endsWith_comma (s : string) : endsWith s "," = true → ∃ p, s = p +:+ ",".
Proof.
  unfold endsWith, String.rev. change (String.rev_app "," "") with ",".
  destruct s as [|a s]; [done|].
  destruct (String.rev_app (String a s) "") as [|c t] eqn:E; [done|].
  cbn [String.prefix]. destruct (ascii_dec "," c) as [<-|]; [|done]. intros _.
  by apply (rev_app_last _ "" _ t).
Qed.

End StreamFacts.

(** X1.  At a fragment that leaves the buffer ending in a comma nothing is
    emitted, whatever was received: the strict parse fails, and so does the
    parse of the buffer closed with a bracket, since the comma stays in front
    of the bracket. *)
Theorem buffer_ending_in_comma_emits_nothing (chunks : list string) (k : nat)
    (chunk : string) :
  chunks !! k = Some chunk →
  endsWith (received (take (S k) chunks)) "," = true →
  generateScripts chunks !! k = Some None.
Proof.
  intros Hk He. destruct (generateScripts_lookup chunks k chunk Hk) as (st & Hb & ->).
  apply StreamFacts.endsWith_comma in He as [p Hp].
  destruct (StreamFacts.trailing_comma p) as [H1 H2].
  unfold processChunk. rewrite Hb, Hp, H1, potentialArray_bracket, H2. done.
Qed.

Lemma buffer_ending_in_comma_emits_nothing_witness :
  generateScripts [json "[{'script':'a'}"; ","; json "{'script':'b'}]"] !! 1 = Some None.
Proof.
  apply (buffer_ending_in_comma_emits_nothing _ 1 ","); vm_compute; reflexivity.
Defined.

(** X2.  Every list that [generateScripts] emits, at whatever fragment,
    numbers its panels from one in the order of the array, and every panel of
    it is loading; what the text itself gave as [scene] or [imageUrl] is
    written over. *)
Theorem emitted_panels_are_numbered_and_loading (chunks : list string) (k i : nat)
    (e : list Scene) (sc : Scene) :
  generateScripts chunks !! k = Some (Some e) →
  e !! i = Some sc →
  sc !! "scene" = Some (number_of_nat (i + 1)) ∧
  sc !! "imageUrl" = Some JNull ∧
  imageStatus sc = Loading.
Proof.
  intros Hk Hi.
  assert (k < length chunks) as Hlt.
  { apply lookup_lt_Some in Hk. unfold generateScripts in Hk.
    by rewrite streamLoop_length in Hk. }
  destruct (lookup_lt_is_Some_2 chunks k Hlt) as [chunk Hc].
  destruct (generateScripts_lookup chunks k chunk Hc) as (st & _ & Hg).
  rewrite Hg in Hk. injection Hk as Hk.
  assert (∃ l, e = imap pendingScene l) as [l ->].
  { destruct (processChunk_outcome st chunk); simplify_eq; eauto. }
  rewrite list_lookup_imap in Hi.
  destruct (l !! i) as [v|]; [|done]. injection Hi as <-.
  unfold imageStatus. by rewrite pendingScene_scene, pendingScene_imageUrl.
Qed.

Lemma emitted_panels_are_numbered_and_loading_witness :
  let sc := pendingScene 0 (JObject {["scene" := JNumber 7; "imageUrl" := JString "x"]}) in
  sc !! "scene" = Some (number_of_nat 1) ∧
  sc !! "imageUrl" = Some JNull ∧
  imageStatus sc = Loading.
Proof.
  intros sc.
  apply (emitted_panels_are_numbered_and_loading
           [json "[{'scene':7,'imageUrl':'x'}"; "]"] 1 0 [sc] sc);
    vm_compute; reflexivity.
Defined.

(** ** Writing the script *)

Section ScriptFacts.
Context {F : Type}.

Lemma bind_emissions {B} (tr : list (option (list Scene))) (final : Prog F unit)
    (f : unit → Prog F B) :
  foldr emit final tr ≫= f
  = foldr (λ emitted rest,
             match emitted with
             | Some parsed => Do (SetScenes (λ _, parsed)) rest
             | None => rest
             end) (bind final f) tr.
Proof.
  unfold mbind, Prog_bind.
  induction tr as [|[e|] tr IH]; simpl; [done| |done]. by rewrite <- IH.
Qed.

Lemma tryCatch_emissions {B} (tr : list (option (list Scene))) (final : Prog F B) h :
  tryCatch (foldr (λ emitted rest,
                     match emitted with
                     | Some parsed => Do (SetScenes (λ _, parsed)) rest
                     | None => rest
                     end) final tr) h
  = foldr (λ emitted rest,
             match emitted with
             | Some parsed => Do (SetScenes (λ _, parsed)) rest
             | None => rest
             end) (tryCatch final h) tr.
Proof. induction tr as [|[e|] tr IH]; simpl; [done| |done]. by rewrite <- IH. Qed.

(** Running the emissions leaves the last one in [scenes]. *)
Lemma advance_emissions {B} (tr : list (option (list Scene))) (final : Prog F B) w :
  advance (foldr (λ emitted rest,
                    match emitted with
                    | Some parsed => Do (SetScenes (λ _, parsed)) rest
                    | None => rest
                    end) final tr) w
  = advance final
      (on_app (λ st, with_scenes (default (scenes st) (last (emissions tr))) st) w).
Proof.
  revert w. induction tr as [|[e|] tr IH]; intros w; simpl.
  - f_equal. by destruct w as [[] ? ?].
  - rewrite IH. f_equal.
    unfold emissions. simpl. rewrite last_cons.
    destruct w as [[] ? ?]. unfold on_app. simpl. by destruct (last (omap id tr)).
  - by rewrite IH.
Qed.

Lemma advance_bind {A B} (p : Prog F A) (f : A → Prog F B) w :
  advance (p ≫= f) w
  = match advance p w with
    | (Returned a, w') => advance (f a) w'
    | (Thrown e, w') => (Thrown e, w')
    | (Waiting r k, w') => (Waiting r (λ x, k x ≫= f), w')
    | (Forked ts k, w') => (Forked ts (λ x, k x ≫= f), w')
    end.
Proof.
  unfold mbind, Prog_bind. revert w. induction p as [a|e|c k IH|r k IH|ts k IH];
    intros w; simpl; done.
Qed.

(** [generateAndStreamScripts] catches what the stream throws. *)
Lemma advance_generateAndStreamScripts (stream : ScriptStream) w :
  advance (generateAndStreamScripts (F:=F) stream) w = (Returned tt, streamed stream w).
Proof.
  unfold generateAndStreamScripts, generateScriptsOn, streamed.
  rewrite bind_emissions, tryCatch_emissions, advance_emissions.
  destruct (failure stream) as [error|]; cbn; by destruct w as [[] ? ?].
Qed.

End ScriptFacts.

Lemma advance_handleGenerate (stream : ScriptStream) (w : World) :
  let written := scenesAfter (generateScripts (fragments stream)) in
  advance (F:=Empty_set) (handleGenerate stream) w
  = (Returned tt,
     match failure stream with
     | None =>
         on_app (λ st, with_progressMessage "Please review the generated script."
                         (drafted written st)) w
     | Some error =>
         on_app (λ st, with_progressMessage ("Error: " +:+ error +:+ ". Please try again.")
                         (drafted written st))
                (record (Errored "An error occurred during script generation:") w)
     end).
Proof.
  intros written. unfold handleGenerate.
  cbn [mbind Prog_bind bind exec advance].
  rewrite advance_generateAndStreamScripts.
  unfold written, scenesAfter, streamed.
  destruct (failure stream) as [error|]; cbn; destruct w as [[] ? ?];
    unfold on_app, record, drafted; cbn; repeat f_equal;
    by destruct (last _).
Qed.

Lemma advance_handleRegenerateScripts (stream : ScriptStream) (w : World) :
  let written := scenesAfter (generateScripts (fragments stream)) in
  advance (F:=Empty_set) (handleRegenerateScripts stream) w
  = (Returned tt,
     match failure stream with
     | None =>
         on_app (λ st, with_progressMessage "Please review the generated script."
                         (redrafted written st)) w
     | Some error =>
         on_app (λ st, with_progressMessage ("Error: " +:+ error +:+ ". Please try again.")
                         (redrafted written st))
                (record (Errored "An error occurred during script generation:") w)
     end).
Proof.
  intros written. unfold handleRegenerateScripts.
  cbn [mbind Prog_bind bind exec advance].
  change (bind ?p ?f) with (p ≫= f).
  rewrite advance_bind, advance_generateAndStreamScripts.
  unfold written, scenesAfter, streamed.
  destruct (failure stream) as [error|]; cbn; destruct w as [[] ? ?];
    unfold on_app, record, redrafted; cbn; repeat f_equal;
    by destruct (last _).
Qed.

(** X3.  [handleGenerate] never throws, also when the stream fails.  It leaves
    the session in review, not loading, not generated and without a character
    image; the panels are the last list that [generateScripts] emitted (none
    if it emitted nothing), so the panels emitted before a failure stay; the
    progress message asks for a review or reports the error, which is then
    also on the console; the story idea, the genre, the number of panels and
    the mode are as before. *)
Theorem handleGenerate_outcome (stream : ScriptStream) (w : World) :
  let run := advance (F:=Empty_set) (handleGenerate stream) w in
  let st := app run.2 in
  run.1 = Returned tt ∧
  scenes st = scenesAfter (generateScripts (fragments stream)) ∧
  isReviewingScript st = true ∧ isLoading st = false ∧ isGenerated st = false ∧
  characterImageB64 st = None ∧
  progressMessage st
  = match failure stream with
    | None => "Please review the generated script."
    | Some error => "Error: " +:+ error +:+ ". Please try again."
    end ∧
  log run.2
  = log w ++ match failure stream with
             | None => []
             | Some _ => [Errored "An error occurred during script generation:"]
             end ∧
  (storyIdea st, genre st, numPanels st, isDevMode st, editingScene st)
  = (storyIdea (app w), genre (app w), numPanels (app w), isDevMode (app w),
     editingScene (app w)).
Proof.
  intros run st. unfold st, run. rewrite advance_handleGenerate.
  destruct (failure stream); destruct w as [[] ? ?]; cbn; rewrite ?app_nil_r; done.
Qed.

(** X4.  [handleRegenerateScripts] lowers [isRegeneratingScript] again whether
    the stream failed or not, since [generateAndStreamScripts] catches the
    failure; it never throws, and the panels are those of the new stream, none
    if it emitted nothing: the script that was there is gone also when the new
    stream fails at once. *)
Theorem handleRegenerateScripts_outcome (stream : ScriptStream) (w : World) :
  let run := advance (F:=Empty_set) (handleRegenerateScripts stream) w in
  let st := app run.2 in
  run.1 = Returned tt ∧
  isRegeneratingScript st = false ∧
  scenes st = scenesAfter (generateScripts (fragments stream)) ∧
  isGenerated st = false ∧
  isReviewingScript st = isReviewingScript (app w) ∧
  progressMessage st
  = match failure stream with
    | None => "Please review the generated script."
    | Some error => "Error: " +:+ error +:+ ". Please try again."
    end.
Proof.
  intros run st. unfold st, run. rewrite advance_handleRegenerateScripts.
  destruct (failure stream); destruct w as [[] ? ?]; done.
Qed.

(** X5.  After [handleGenerate] the page shows the script review and nothing
    else, whether the stream failed or not, and the two buttons of the review,
    Regenerate Full Script and Approve, are both disabled exactly when fewer
    panels than [numPanels] were emitted or a regeneration of the script is
    running.  A stream that fails or ends early thus leaves a review with no
    enabled button. *)
Theorem review_after_handleGenerate (stream : ScriptStream) (w : World) :
  let st := app (advance (F:=Empty_set) (handleGenerate stream) w).2 in
  Page.scriptReview st = true ∧
  Page.storyForm st = false ∧
  Page.skeleton st = false ∧
  Page.comicBookDisplay st = false ∧
  Page.generationOptions st = false ∧
  ScriptReview.disabled st
  = (length (scenesAfter (generateScripts (fragments stream))) <? numPanels (app w))%nat
    || isRegeneratingScript (app w).
Proof.
  intros st. unfold st. rewrite advance_handleGenerate.
  destruct (failure stream); destruct w as [[] ? ?]; done.
Qed.

(** ** Editing one panel by hand *)

Lemma strict_eq_number_of_nat (i j : nat) :
  strict_eq (Some (number_of_nat i)) (Some (number_of_nat j)) = bool_decide (i = j).
Proof.
  unfold strict_eq, number_of_nat. case_bool_decide as H.
  - subst. by apply Qeq_bool_iff.
  - destruct (Qeq_bool _ _) eqn:E; [|done].
    apply Qeq_bool_eq in E. unfold Qeq in E. simpl in E. lia.
Qed.

Lemma numbered_update (updatedScene : Scene) (scs : list Scene) (i : nat) :
  numbered scs →
  updatedScene !! "scene" = Some (number_of_nat (i + 1)) →
  (λ s : Scene, if strict_eq (s !! "scene") (updatedScene !! "scene")
                then updatedScene else s) <$> scs
  = if decide (i < length scs) then <[i := updatedScene]> scs else scs.
Proof.
  intros Hn Hu. apply list_eq. intros j. rewrite list_lookup_fmap.
  destruct (scs !! j) as [sc|] eqn:Ej; simpl.
  - rewrite (Hn j sc Ej), Hu, strict_eq_number_of_nat.
    apply lookup_lt_Some in Ej as Hj.
    case_bool_decide as Hij.
    + assert (j = i) as -> by lia. rewrite decide_True by done.
      by rewrite list_lookup_insert_eq.
    + case_decide; [rewrite list_lookup_insert_ne by lia|]; done.
  - apply lookup_ge_None in Ej as Hj.
    case_decide; [rewrite list_lookup_insert_ne by lia|]; done.
Qed.

(** X6.  [handleUpdateScene] on panels that carry their numbers: a scene with
    the number of panel [i] takes the place of panel [i] and of no other
    panel, and a scene whose number is past the last panel changes nothing.
    Nothing but [scenes] changes, and the handler does not suspend. *)
Theorem handleUpdateScene_replaces_its_panel (updatedScene : Scene) (i : nat) (w : World) :
  numbered (scenes (app w)) →
  updatedScene !! "scene" = Some (number_of_nat (i + 1)) →
  advance (F:=Empty_set) (handleUpdateScene updatedScene) w
  = (Returned tt,
     on_app (withScenes (λ scs, if decide (i < length scs)
                                then <[i := updatedScene]> scs else scs)) w).
Proof.
  intros Hn Hu. unfold handleUpdateScene. cbn. f_equal.
  unfold on_app, withScenes. by rewrite (numbered_update _ _ i).
Qed.

Lemma handleUpdateScene_replaces_its_panel_witness :
  scenes (app (advance (F:=Empty_set)
                 (handleUpdateScene (<["script" := JString "by hand"]>
                                       (pendingScene 1 (JObject ∅))))
                 (mkWorld (mkApp "A lone astronaut" "Sci-Fi" false "" 
                             (imap pendingScene [JObject ∅; JObject ∅; JObject ∅])
                             false true false true None 3 None false false None)
                          false [])).2)
  = [pendingScene 0 (JObject ∅);
     <["script" := JString "by hand"]> (pendingScene 1 (JObject ∅));
     pendingScene 2 (JObject ∅)].
Proof.
  rewrite (handleUpdateScene_replaces_its_panel _ 1).
  - reflexivity.
  - intros [|[|[|j]]] sc; cbn; intros [= <-]; vm_compute; reflexivity.
  - vm_compute. reflexivity.
Defined.



(** ** Numbers and positions *)

Lemma emissions_shape (st : StreamState) (chunks : list string) (e : list Scene) :
  e ∈ emissions (streamLoop st chunks) → ∃ l, e = imap pendingScene l.
Proof.
  revert st. induction chunks as [|c cs IH]; intros st; [by intros ?%elem_of_nil|].
  cbn [streamLoop]. pose proof (processChunk_outcome st c) as Ho.
  destruct (processChunk st c) as [st' out]. cbn [fst snd] in Ho.
  unfold emissions in *. destruct out as [e'|]; cbn [omap id]; [|by apply IH].
  intros [->|He]%elem_of_cons; [|by eapply IH].
  inversion Ho; eauto.
Qed.

Lemma numbered_pending (l : list value) : numbered (imap pendingScene l).
Proof.
  intros i sc. rewrite list_lookup_imap. destruct (l !! i); [|done].
  intros [= <-]. apply pendingScene_scene.
Qed.

(** X8.  The [scene] of a panel is its position counted from one, from the
    moment the parser emits the panels, and what the handlers write on the
    panels keeps it so: the image updates, the placeholders of development
    mode, and a revised script that has no [scene] of its own.  The handlers
    that find a panel by its number ([handleUpdateScene],
    [handleRegenerateSingleScript]) and those that find it by its position
    therefore mean the same panel. *)
Theorem panels_stay_numbered :
  (∀ chunks, numbered (scenesAfter (generateScripts chunks))) ∧
  (∀ i u scs, numbered scs → numbered (setImageUrl i u scs)) ∧
  (∀ random scs,
     numbered scs →
     numbered (imap (λ i scene, <["imageUrl" := JString (placeholderUrl random i scene)]> scene)
                    scs)) ∧
  (∀ sceneToRegen nd scs,
     nd !! "scene" = None → numbered scs → numbered (revise sceneToRegen nd <$> scs)).
Proof.
  split_and!.
  - intros chunks. unfold scenesAfter.
    destruct (last _) as [e|] eqn:E; [|by intros i sc].
    apply last_Some in E as [l' E].
    destruct (emissions_shape (Stream "" 0) chunks e) as [l ->].
    { unfold generateScripts in E. rewrite E. set_solver. }
    apply numbered_pending.
  - intros i u scs Hn j sc. rewrite setImageUrl_spec. case_decide; [|by apply Hn].
    destruct (scs !! j) as [sc0|] eqn:E; [|done]. intros [= <-].
    rewrite lookup_insert_ne by done. by apply Hn.
  - intros random scs Hn j sc. rewrite list_lookup_imap.
    destruct (scs !! j) as [sc0|] eqn:E; [|done]. intros [= <-].
    rewrite lookup_insert_ne by done. by apply Hn.
  - intros sceneToRegen nd scs Hnd Hn j sc. rewrite list_lookup_fmap.
    destruct (scs !! j) as [sc0|] eqn:E; [|done]. intros [= <-].
    unfold revise. destruct (strict_eq _ _); [|by apply Hn].
    rewrite lookup_union_r by done. by apply Hn.
Qed.

(** ** Regenerating one image, to its end *)

Lemma setImageUrl_insert (i : nat) (u : value) (scs : list Scene) (scene : Scene) :
  scs !! i = Some scene → setImageUrl i u scs = <[i := <["imageUrl" := u]> scene]> scs.
Proof.
  intros Hi. apply list_eq. intros j. rewrite setImageUrl_spec.
  case_decide as Hj.
  - subst. rewrite Hi. by rewrite list_lookup_insert_eq by by eapply lookup_lt_Some.
  - by rewrite list_lookup_insert_ne.
Qed.

Lemma setImageUrl_twice (i : nat) (u v : value) (scs : list Scene) :
  setImageUrl i u (setImageUrl i v scs) = setImageUrl i u scs.
Proof.
  apply list_eq. intros j. rewrite !setImageUrl_spec. case_decide; [|done].
  destruct (scs !! j); simpl; [|done]. by rewrite insert_insert_eq.
Qed.

Lemma regenerated (st : AppState) (i : nat) (scene : Scene) (u v : value) :
  isRegeneratingImage st = false →
  scenes st !! i = Some scene →
  with_isRegeneratingImage false
    (withScenes (setImageUrl i u)
       (withScenes (setImageUrl i v) (regenerating i st)))
  = repainted i scene u st.
Proof.
  intros Hreg Hi. unfold repainted, regenerating, withScenes.
  destruct st. cbn in *. subst.
  by rewrite !setImageUrl_twice, (setImageUrl_insert _ _ _ _ Hi).
Qed.

(** X9.  [handleRegenerateImage] after a first attempt that fails.  With a
    character image at hand and no other regeneration running, the handler
    logs a warning, marks the panel RETRYING, waits 500 ms and sends the same
    request again, for the scene as it was when the handler was called.  A
    second success writes the image, a second failure logs the error and marks
    the panel FAILED.  In both cases the handler returns without throwing,
    [isRegeneratingImage] is lowered again, and of the session only the
    [imageUrl] of panel [i] has changed. *)
Theorem regenerate_retries_once (w : World) (i : nat) (scene : Scene) (c : string) :
  characterImageB64 (app w) = Some c → c ≠ "" →
  isRegeneratingImage (app w) = false →
  scenes (app w) !! i = Some scene →
  let req := GenerateSceneContent scene c (genre (app w)) in
  let run := runTask (F:=Empty_set) (handleRegenerateImage (app w) i) in
  let retried f1 :=
    log w ++ [Requested req (regenerating i (app w))] ++ failureLog f1
      ++ [Warned ("Panel " +:+ pretty (i + 1) +:+ " failed once. Retrying...");
          Requested (Timeout 500) (retryingPanel i (app w));
          Requested req (retryingPanel i (app w))] in
  (∀ f1 timer d rest,
     run (failed f1 :: timer :: Fulfilled (Some d) :: rest) w
     = (Returned tt,
        mkWorld (repainted i scene (JString (dataUrl d)) (app w))
                (modalIsRegenerating w) (retried f1))) ∧
  (∀ f1 timer f2 rest,
     run (failed f1 :: timer :: failed f2 :: rest) w
     = (Returned tt,
        mkWorld (repainted i scene (JString "FAILED") (app w))
                (modalIsRegenerating w)
                (retried f1 ++ failureLog f2
                   ++ [Errored ("Panel " +:+ pretty (i + 1)
                                +:+ " failed on second attempt.")]))).
Proof.
  intros Hc Hne Hreg Hi req run retried.
  assert (String.eqb c "" = false) as Hc' by by apply String.eqb_neq.
  split.
  - intros f1 timer d rest. unfold run, runTask, handleRegenerateImage.
    rewrite Hc, Hc', Hreg, Hi.
    destruct f1; cbn; rewrite resume_returned; f_equal; fields;
      first [ by apply (regenerated _ _ scene) | done
            | unfold retried; cbn [failureLog]; by rewrite <- ?app_assoc ].
  - intros f1 timer f2 rest. unfold run, runTask, handleRegenerateImage.
    rewrite Hc, Hc', Hreg, Hi.
    destruct f1, f2; cbn; rewrite resume_returned; f_equal; fields;
      first [ by apply (regenerated _ _ scene) | done
            | unfold retried; cbn [failureLog]; by rewrite <- ?app_assoc ].
Qed.

Lemma regenerate_retries_once_witness :
  let ready : Scene := {["scene" := number_of_nat 1; "imageUrl" := JString (dataUrl "QUJD")]} in
  let st := mkApp "A lone astronaut" "Sci-Fi" false "Your comic is complete!"
              [ready] true false false false None 10 (Some "Q0hBUg==")
              false false None in
  let w' := (runTask (F:=Empty_set) (handleRegenerateImage st 0)
               [Rejected "quota exceeded"; Fulfilled None; Fulfilled None]
               (mkWorld st false [])).2 in
  imageStatus <$> scenes (app w') !! 0 = Some Failed ∧ isRegeneratingImage (app w') = false.
Proof.
  intros ready st w'. unfold w'.
  pose proof (proj2 (regenerate_retries_once (mkWorld st false []) 0 ready "Q0hBUg=="
                       eq_refl ltac:(discriminate) eq_refl eq_refl)
                (Reject "quota exceeded") (Fulfilled None) NoImagePart []) as H.
  cbn [app failed] in H. rewrite H. split; reflexivity.
Defined.

(** While [handleRegenerateImage] is suspended, at its first attempt, at the
    timer or at its second attempt, [isRegeneratingImage] is up. *)
Lemma regenerate_waiting (w : World) (i : nat) (rs : list Response) r k w' :
  runTask (F:=Empty_set) (handleRegenerateImage (app w) i) rs w = (Waiting r k, w') →
  isRegeneratingImage (app w') = true.
Proof.
  unfold runTask, handleRegenerateImage.
  destruct (characterImageB64 (app w)) as [c|]; [|by destruct rs].
  destruct (String.eqb c "" || isRegeneratingImage (app w)); [by destruct rs|].
  destruct (scenes (app w) !! i) as [scene|].
  - destruct rs as [|[[d|]|e] [|r2 [|[[d'|]|e'] rest]]]; cbn;
      rewrite ?resume_returned; intros H; simplify_eq; by autorewrite with world.
  - destruct rs as [|r2 rest]; cbn;
      rewrite ?resume_returned; intros H; simplify_eq; by autorewrite with world.
Qed.

(** X10.  One regeneration at a time: as long as a call of
    [handleRegenerateImage] is suspended, another call of it, for whatever
    panel, returns at once and changes nothing. *)
Theorem regeneration_is_single_flight (w : World) (i j : nat) (rs : list Response)
    r k w' :
  runTask (F:=Empty_set) (handleRegenerateImage (app w) i) rs w = (Waiting r k, w') →
  advance (F:=Empty_set) (handleRegenerateImage (app w') j) w' = (Returned tt, w').
Proof.
  intros H. apply regenerate_waiting in H. unfold handleRegenerateImage.
  destruct (characterImageB64 (app w')); [|done]. by rewrite H, orb_true_r.
Qed.

Lemma regeneration_is_single_flight_witness :
  let ready : Scene := {["scene" := number_of_nat 1; "imageUrl" := JString (dataUrl "QUJD")]} in
  let st := mkApp "A lone astronaut" "Sci-Fi" false "Your comic is complete!"
              [ready; ready] true false false false None 10 (Some "Q0hBUg==")
              false false None in
  let w' := (runTask (F:=Empty_set) (handleRegenerateImage st 0)
               [Rejected "quota exceeded"] (mkWorld st false [])).2 in
  advance (F:=Empty_set) (handleRegenerateImage (app w') 1) w' = (Returned tt, w').
Proof.
  intros ready st w'.
  eapply (regeneration_is_single_flight (mkWorld st false []) 0 1 [Rejected "quota exceeded"]).
  reflexivity.
Defined.

(** X11.  [handleRegenerateImage] for an index past the last panel.  Building
    the prompt throws at both attempts, so no request goes to the image
    service: the handler logs the warning, waits its 500 ms, logs the error
    and returns, and the session is as it was. *)
Theorem regenerate_past_the_last_panel (w : World) (i : nat) (c : string)
    (timer : Response) (rest : list Response) :
  characterImageB64 (app w) = Some c → c ≠ "" →
  isRegeneratingImage (app w) = false →
  length (scenes (app w)) ≤ i →
  runTask (F:=Empty_set) (handleRegenerateImage (app w) i) (timer :: rest) w
  = (Returned tt,
     mkWorld (app w) (modalIsRegenerating w)
       (log w ++ [Warned ("Panel " +:+ pretty (i + 1) +:+ " failed once. Retrying...");
                  Requested (Timeout 500) (with_isRegeneratingImage true (app w));
                  Errored ("Panel " +:+ pretty (i + 1) +:+ " failed on second attempt.")])).
Proof.
  intros Hc Hne Hreg Hi.
  assert (String.eqb c "" = false) as Hc' by by apply String.eqb_neq.
  unfold runTask, handleRegenerateImage.
  rewrite Hc, Hc', Hreg, (lookup_ge_None_2 _ _ Hi). cbn.
  rewrite resume_returned. f_equal. fields.
  - cbn. rewrite !setImageUrl_ge by (by rewrite ?setImageUrl_length).
    destruct w as [[] ? ?]. cbn in *. by subst.
  - done.
  - cbn. rewrite !setImageUrl_ge by (by rewrite ?setImageUrl_length).
    rewrite <- !app_assoc. repeat f_equal.
Qed.

Lemma regenerate_past_the_last_panel_witness :
  let ready : Scene := {["scene" := number_of_nat 1; "imageUrl" := JString (dataUrl "QUJD")]} in
  let st := mkApp "A lone astronaut" "Sci-Fi" false "Your comic is complete!"
              [ready] true false false false None 10 (Some "Q0hBUg==")
              false false None in
  app (runTask (F:=Empty_set) (handleRegenerateImage st 1) [Fulfilled None]
         (mkWorld st false [])).2 = st.
Proof.
  intros ready st.
  pose proof (regenerate_past_the_last_panel (mkWorld st false []) 1 "Q0hBUg=="
                (Fulfilled None) [] eq_refl ltac:(discriminate) eq_refl ltac:(cbn; lia)) as H.
  cbn [app] in H. rewrite H. reflexivity.
Defined.

(** ** Development mode *)

Lemma placeholder_ready (random : nat → string) (i : nat) (scene : Scene) :
  statusOfUrl (Some (JString (placeholderUrl random i scene)))
  = Ready (placeholderUrl random i scene).
Proof. done. Qed.

(** X12.  [handleStartImageGeneration] in development mode.  The handler waits
    for its one-second timer and for nothing else: no request goes to the
    image service, and no character image is stored.  Before the timer it has
    written on every panel a placeholder address made of the panel's number
    and a random number, so that every panel is ready and keeps its other
    properties; after the timer the comic is complete and generated, and the
    session is no longer loading. *)
Theorem development_mode_uses_placeholders (random : nat → string) (w : World)
    (timer : Response) :
  isDevMode (app w) = true →
  let finalScenes :=
    imap (λ i scene, <["imageUrl" := JString (placeholderUrl random i scene)]> scene)
         (scenes (app w)) in
  let working :=
    with_scenes finalScenes
      (with_progressMessage "Generating placeholder images for Development Mode..."
         (with_isLoading true (with_isReviewingScript false (app w)))) in
  runHandler (handleStartImageGeneration random (app w)) [Reply timer] w
  = (Solo (Returned tt),
     mkWorld (with_isLoading false
                (with_isGenerated true
                   (with_progressMessage "Your comic is complete!" working)))
             (modalIsRegenerating w)
             (log w ++ [Requested (Timeout 1000) working])) ∧
  length finalScenes = length (scenes (app w)) ∧
  (∀ i sc, finalScenes !! i = Some sc →
     ∃ scene, scenes (app w) !! i = Some scene ∧
              imageStatus sc = Ready (placeholderUrl random i scene) ∧
              ∀ k, k ≠ "imageUrl" → sc !! k = scene !! k).
Proof.
  intros Hdev finalScenes working. split_and!.
  - unfold runHandler, handleStartImageGeneration. by rewrite Hdev.
  - apply length_imap.
  - intros i sc. unfold finalScenes. rewrite list_lookup_imap.
    destruct (scenes (app w) !! i) as [scene|]; [|done]. intros [= <-].
    exists scene. split_and!; [done| |].
    + unfold imageStatus. rewrite lookup_insert_eq. apply placeholder_ready.
    + intros k Hk. by rewrite lookup_insert_ne.
Qed.

Lemma development_mode_uses_placeholders_witness :
  let st := mkApp "A lone astronaut" "Sci-Fi" false "Please review the generated script."
              (imap pendingScene [JObject ∅; JObject ∅]) false true false true None 2 None
              false false None in
  let w' := (runHandler (handleStartImageGeneration (λ _, "0.5") st)
               [Reply (Fulfilled None)] (mkWorld st false [])).2 in
  imageStatus <$> scenes (app w')
  = [Ready "https://picsum.photos/seed/10.5/1600/900";
     Ready "https://picsum.photos/seed/20.5/1600/900"] ∧
  isGenerated (app w') = true ∧ characterImageB64 (app w') = None.
Proof.
  intros st w'. unfold w'.
  pose proof (proj1 (development_mode_uses_placeholders (λ _, "0.5")
                       (mkWorld st false []) (Fulfilled None) eq_refl)) as H.
  cbn [app] in H. rewrite H. split_and!; vm_compute; reflexivity.
Defined.

(** ** A character image that fails *)

(** X13.  Outside development mode, when the request for the character image
    is rejected, [handleStartImageGeneration] catches the error and returns:
    no request for a panel has gone out and the panels are as they were, the
    progress message carries the message of the rejection, the session is
    neither loading nor in review, and, the comic not being generated, the
    page is back at the story form, with neither the review nor the comic on
    it. *)
Theorem failed_character_image_returns_to_the_form (random : nat → string) (w : World)
    (error : string) :
  isDevMode (app w) = false →
  isGenerated (app w) = false →
  let run :=
    runHandler (handleStartImageGeneration random (app w)) [Reply (Rejected error)] w in
  run = (Solo (Returned tt), failedWith error (designing w)) ∧
  log run.2
  = log w ++ [Requested (GenerateImages (storyIdea (app w)) (genre (app w)))
                (with_progressMessage "Designing your main character..."
                   (with_isLoading true (with_isReviewingScript false (app w))));
              Errored "An error occurred during generation:"] ∧
  progressMessage (app run.2) = "Error: " +:+ error +:+ ". Please try again." ∧
  isLoading (app run.2) = false ∧
  scenes (app run.2) = scenes (app w) ∧
  Page.storyForm (app run.2) = true ∧
  Page.scriptReview (app run.2) = false ∧
  Page.skeleton (app run.2) = false ∧
  Page.comicBookDisplay (app run.2) = false.
Proof.
  intros Hdev Hgen run.
  assert (run = (Solo (Returned tt), failedWith error (designing w))) as ->.
  { unfold run, runHandler, handleStartImageGeneration. by rewrite Hdev. }
  split; [done|]. split_and!; try done.
  - unfold failedWith, designing. cbn [snd]. autorewrite with world.
    by rewrite <- app_assoc.
  - unfold Page.storyForm. cbn. by rewrite Hgen.
  - unfold Page.comicBookDisplay. cbn. by rewrite Hgen.
Qed.

Lemma failed_character_image_returns_to_the_form_witness :
  let st := mkApp "A lone astronaut" "Sci-Fi" false "Please review the generated script."
              (imap pendingScene [JObject ∅; JObject ∅]) false true false false None 2 None
              false false None in
  let w' := (runHandler (handleStartImageGeneration (λ _, "0.5") st)
               [Reply (Rejected "quota exceeded")] (mkWorld st false [])).2 in
  Page.storyForm (app w') = true ∧
  progressMessage (app w') = "Error: quota exceeded. Please try again.".
Proof.
  intros st w'.
  destruct (failed_character_image_returns_to_the_form (λ _, "0.5") (mkWorld st false [])
              "quota exceeded" eq_refl eq_refl)
    as (Hrun & _ & _ & _ & _ & Hform & _).
  split; [exact Hform|]. unfold w'. cbn [app] in Hrun. by rewrite Hrun.
Defined.

(** ** What the comic display shows *)

Import ComicBookDisplay.

(** X14.  On every card of the filmstrip exactly one visual is rendered, the
    one of the status of the panel: the spinner while it is loading, the label
    while it is retrying, the placeholder once it has failed, and the image
    once it is ready.  This holds for an [imageUrl] of the declared type, a
    string, [null] or nothing. *)
Theorem card_shows_the_status (scene : Scene) :
  typedImageUrl (scene !! "imageUrl") →
  cardVisuals scene = [nodeOfStatus (imageStatus scene)].
Proof.
  unfold cardVisuals, imageStatus, statusOfUrl, isMark, typedImageUrl.
  destruct (scene !! "imageUrl") as [[| | |s| |]|]; try done. intros _.
  cbn [strict_eq truthy falsy default].
  destruct (String.eqb_spec s "RETRYING") as [->|]; [done|].
  destruct (String.eqb_spec s "FAILED") as [->|]; [done|].
  destruct (String.eqb_spec s "") as [->|]; done.
Qed.

Lemma card_shows_the_status_witness :
  cardVisuals (<["imageUrl" := JString "RETRYING"]> (pendingScene 0 (JObject ∅)))
  = [RetryingLabel].
Proof.
  rewrite card_shows_the_status; [reflexivity|].
  by rewrite lookup_insert_eq.
Defined.

Lemma statusOfUrl_typed (u : option value) :
  typedImageUrl u →
  truthy u && negb (isMark u)
  = match statusOfUrl u with Ready _ => true | _ => false end.
Proof.
  unfold typedImageUrl, isMark, statusOfUrl.
  destruct u as [[| | |s| |]|]; try done. intros _. cbn [strict_eq truthy].
  destruct (String.eqb_spec s "RETRYING") as [->|]; [done|].
  destruct (String.eqb_spec s "FAILED") as [->|]; [done|].
  destruct (String.eqb_spec s "") as [->|]; done.
Qed.

(** X15.  The Regenerate Image button is on the page exactly when the panel on
    display is ready and no regeneration is running.  A panel that is loading,
    retrying or failed has no button: from the display a failed panel cannot
    be tried again. *)
Theorem regenerate_button_only_when_ready (scenes : list Scene) (current : nat)
    (scene : Scene) (busy : bool) :
  scenes !! current = Some scene →
  typedImageUrl (scene !! "imageUrl") →
  regenerateOverlay scenes current busy
  = match imageStatus scene with
    | Ready _ => if busy then [] else [RegenerateButton]
    | _ => []
    end.
Proof.
  intros Hc Ht. unfold regenerateOverlay, imageUrlAt, imageStatus. rewrite Hc. simpl.
  pose proof (statusOfUrl_typed _ Ht) as H.
  destruct (truthy (scene !! "imageUrl")) eqn:Etr; simpl in H.
  - rewrite andb_comm, H. destruct (statusOfUrl _), busy; done.
  - destruct (statusOfUrl _); try done;
      unfold typedImageUrl in Ht; by destruct (scene !! "imageUrl") as [[]|].
Qed.

Lemma regenerate_button_only_when_ready_witness :
  regenerateOverlay [<["imageUrl" := JString "FAILED"]> (pendingScene 0 (JObject ∅))] 0 false
  = [].
Proof.
  rewrite (regenerate_button_only_when_ready _ 0
             (<["imageUrl" := JString "FAILED"]> (pendingScene 0 (JObject ∅))));
    [reflexivity | reflexivity | by rewrite lookup_insert_eq].
Defined.

(** X16.  A click on a card of the filmstrip.  For a card of the list the
    selection stays inside the list, and it moves to the card unless that
    panel is retrying, in which case it stays where it was.  No retrying panel
    is ever selected by a click. *)
Theorem selectPanel_keeps_the_selection_valid (scenes : list Scene)
    (index current : nat) (scene : Scene) :
  scenes !! index = Some scene →
  current < length scenes →
  ∃ next, selectPanel scenes index current = Some next ∧
          next < length scenes ∧
          (imageStatus scene = Retrying → next = current) ∧
          (imageStatus scene ≠ Retrying → typedImageUrl (scene !! "imageUrl") →
           next = index).
Proof.
  intros Hi Hc. unfold selectPanel. rewrite Hi.
  apply lookup_lt_Some in Hi as Hlt.
  unfold imageStatus, statusOfUrl, typedImageUrl.
  destruct (scene !! "imageUrl") as [[| | |s| |]|]; cbn [strict_eq];
    try (eexists; split_and!; [done|done|done|done]).
  destruct (String.eqb_spec s "RETRYING") as [->|Hs].
  - by exists current.
  - exists index. split_and!; try done.
    destruct (String.eqb s "FAILED"), (String.eqb s ""); done.
Qed.

Lemma selectPanel_keeps_the_selection_valid_witness :
  selectPanel [pendingScene 0 (JObject ∅);
               <["imageUrl" := JString "RETRYING"]> (pendingScene 1 (JObject ∅))] 1 0
  = Some 0.
Proof.
  destruct (selectPanel_keeps_the_selection_valid
              [pendingScene 0 (JObject ∅);
               <["imageUrl" := JString "RETRYING"]> (pendingScene 1 (JObject ∅))] 1 0
              (<["imageUrl" := JString "RETRYING"]> (pendingScene 1 (JObject ∅)))
              eq_refl ltac:(cbn; lia)) as (next & Hn & _ & Hr & _).
  rewrite Hn, Hr; [reflexivity|]. unfold imageStatus. by rewrite lookup_insert_eq.
Defined.

Lemma imageUrlAt_repainted i scene u st :
  scenes st !! i = Some scene →
  imageUrlAt (scenes (repainted i scene u st)) i = Some u.
Proof.
  intros Hi. unfold imageUrlAt, repainted. cbn.
  rewrite list_lookup_insert_eq by by eapply lookup_lt_Some. cbn.
  apply lookup_insert_eq.
Qed.

(** X17.  The main panel while the panel on display is regenerated.  During
    the first attempt it shows the spinner.  Between a failed first attempt
    and the end of the second it shows an image whose address is the text
    RETRYING.  After a second failure it shows the failure placeholder, and
    after a success the new image.  The button is back only after a success.
    *)
Theorem main_panel_during_regeneration (st : AppState) (i : nat) (scene : Scene)
    (d : string) :
  scenes st !! i = Some scene →
  let shown st' := (mainPanel (scenes st') i (isRegeneratingImage st'),
                    regenerateOverlay (scenes st') i (isRegeneratingImage st')) in
  shown (regenerating i st) = ([Spinner], []) ∧
  shown (retryingPanel i st) = ([Img (JString "RETRYING")], []) ∧
  shown (with_isRegeneratingImage false (repainted i scene (JString "FAILED") st))
  = ([FailurePlaceholder], []) ∧
  shown (with_isRegeneratingImage false (repainted i scene (JString (dataUrl d)) st))
  = ([Img (JString (dataUrl d))], [RegenerateButton]).
Proof.
  intros Hi shown.
  assert (imageUrlAt (scenes (regenerating i st)) i = Some JNull) as H1.
  { unfold imageUrlAt, regenerating, withScenes. cbn.
    rewrite setImageUrl_lookup, Hi. cbn. apply lookup_insert_eq. }
  assert (imageUrlAt (scenes (retryingPanel i st)) i = Some (JString "RETRYING")) as H2.
  { unfold imageUrlAt, retryingPanel, regenerating, withScenes. cbn.
    rewrite !setImageUrl_lookup, Hi. cbn. apply lookup_insert_eq. }
  pose proof (imageUrlAt_repainted i scene (JString "FAILED") st Hi) as H3.
  pose proof (imageUrlAt_repainted i scene (JString (dataUrl d)) st Hi) as H4.
  unfold shown, mainPanel, regenerateOverlay, hasFailed. split_and!.
  - by rewrite H1.
  - by rewrite H2.
  - change (scenes (with_isRegeneratingImage false ?x)) with (scenes x). by rewrite H3.
  - change (scenes (with_isRegeneratingImage false ?x)) with (scenes x). by rewrite H4.
Qed.

Lemma main_panel_during_regeneration_witness :
  let ready : Scene := {["scene" := number_of_nat 1; "imageUrl" := JString (dataUrl "QUJD")]} in
  let st := mkApp "A lone astronaut" "Sci-Fi" false "Your comic is complete!"
              [ready] true false false false None 10 (Some "Q0hBUg==")
              false false None in
  mainPanel (scenes (retryingPanel 0 st)) 0 true = [Img (JString "RETRYING")].
Proof.
  intros ready st.
  pose proof (proj1 (proj2 (main_panel_during_regeneration st 0 ready "QUJD" eq_refl))) as H.
  exact (f_equal fst H).
Defined.

(** X18.  In a session made in development mode the Regenerate Image button
    stands on every panel of the finished comic, and a click on it does
    nothing: [handleGenerate] has cleared the character image, the placeholder
    path stores none, and [handleRegenerateImage] returns at once without one.
    *)
Theorem development_mode_button_does_nothing (random : nat → string) (w : World)
    (timer : Response) (i : nat) (rs : list Response) :
  isDevMode (app w) = true →
  characterImageB64 (app w) = None →
  isRegeneratingImage (app w) = false →
  i < length (scenes (app w)) →
  let w' := (runHandler (handleStartImageGeneration random (app w)) [Reply timer] w).2 in
  Page.comicBookDisplay (app w') = true ∧
  regenerateOverlay (scenes (app w')) i (isRegeneratingImage (app w')) = [RegenerateButton] ∧
  runTask (F:=Empty_set) (handleRegenerateImage (app w') i) rs w' = (Returned tt, w').
Proof.
  intros Hdev Hc Hreg Hi w'.
  assert (w' = mkWorld
                 (with_isLoading false
                    (with_isGenerated true
                       (with_progressMessage "Your comic is complete!"
                          (with_scenes
                             (imap (λ i scene,
                                      <["imageUrl" := JString (placeholderUrl random i scene)]>
                                        scene) (scenes (app w)))
                             (with_progressMessage
                                "Generating placeholder images for Development Mode..."
                                (with_isLoading true
                                   (with_isReviewingScript false (app w))))))))
                 (modalIsRegenerating w)
                 (log w ++ [Requested (Timeout 1000)
                              (with_scenes
                                 (imap (λ i scene,
                                          <["imageUrl" :=
                                              JString (placeholderUrl random i scene)]>
                                            scene) (scenes (app w)))
                                 (with_progressMessage
                                    "Generating placeholder images for Development Mode..."
                                    (with_isLoading true
                                       (with_isReviewingScript false (app w)))))])) as ->.
  { unfold w', runHandler, handleStartImageGeneration. by rewrite Hdev. }
  destruct (lookup_lt_is_Some_2 _ _ Hi) as [scene Hs].
  split_and!.
  - unfold Page.comicBookDisplay. cbn. rewrite length_imap.
    destruct (scenes (app w)); [simpl in Hi; lia | done].
  - unfold regenerateOverlay, imageUrlAt. cbn. rewrite Hreg.
    rewrite list_lookup_imap, Hs. cbn. by rewrite lookup_insert_eq.
  - unfold runTask, handleRegenerateImage. cbn. rewrite Hc. cbn.
    apply resume_returned.
Qed.

Lemma development_mode_button_does_nothing_witness :
  let st := mkApp "A lone astronaut" "Sci-Fi" false "Please review the generated script."
              (imap pendingScene [JObject ∅; JObject ∅]) false true false true None 2 None
              false false None in
  let w' := (runHandler (handleStartImageGeneration (λ _, "0.5") st)
               [Reply (Fulfilled None)] (mkWorld st false [])).2 in
  regenerateOverlay (scenes (app w')) 1 (isRegeneratingImage (app w')) = [RegenerateButton] ∧
  runTask (F:=Empty_set) (handleRegenerateImage (app w') 1) [Fulfilled (Some "QUJD")] w'
  = (Returned tt, w').
Proof.
  intros st w'.
  exact (proj2 (development_mode_button_does_nothing (λ _, "0.5") (mkWorld st false [])
                  (Fulfilled None) 1 [Fulfilled (Some "QUJD")]
                  eq_refl eq_refl eq_refl ltac:(cbn; lia))).
Defined.

(** ** Downloading the panels *)

Module DownloadFacts.
Import Base64 Encode.

Lemma split_byte (a d : N) :
  (d ≠ 0 → ∃ q r, a / d = q ∧ a mod d = r ∧ a = d * q + r ∧ r < d)%N.
Proof.
  intros Hd. exists (a / d)%N, (a mod d)%N. split_and!; try done.
  - apply N.div_mod'.
  - by apply N.mod_lt.
Qed.

Lemma join3 (a b c n : N) :
  (b < 256 → c < 256 → n = a * 65536 + b * 256 + c →
   n / 65536 = a ∧ (n / 256) mod 256 = b ∧ n mod 256 = c)%N.
Proof.
  intros Hb Hc ->. split_and!.
  - symmetry. apply (N.div_unique _ _ _ (b * 256 + c)); lia.
  - assert ((a * 65536 + b * 256 + c) / 256 = a * 256 + b)%N as ->.
    { symmetry. apply (N.div_unique _ _ _ c); lia. }
    symmetry. apply (N.mod_unique _ _ a); lia.
  - symmetry. apply (N.mod_unique _ _ (a * 256 + b)); lia.
Qed.

Lemma bytes3 (a b c : N) :
  (b < 256 → c < 256 →
   let n := (a / 4) * 262144 + ((a mod 4) * 16 + b / 16) * 4096
            + ((b mod 16) * 4 + c / 64) * 64 + c mod 64 in
   n / 65536 = a ∧ (n / 256) mod 256 = b ∧ n mod 256 = c)%N.
Proof.
  intros Hb Hc n. apply join3; [done..|]. unfold n.
  destruct (split_byte a 4) as (qa & ra & -> & -> & Ea & Hra); [done|].
  destruct (split_byte b 16) as (qb & rb & -> & -> & Eb & Hrb); [done|].
  destruct (split_byte c 64) as (qc & rc & -> & -> & Ec & Hrc); [done|].
  lia.
Qed.

Lemma bytes2 (a b : N) :
  (b < 256 →
   let n := ((a / 4) * 4096 + ((a mod 4) * 16 + b / 16) * 64 + (b mod 16) * 4) / 4 in
   n / 256 = a ∧ n mod 256 = b)%N.
Proof.
  intros Hb n.
  assert (n = a * 256 + b)%N as ->.
  { unfold n.
    destruct (split_byte a 4) as (qa & ra & -> & -> & Ea & Hra); [done|].
    destruct (split_byte b 16) as (qb & rb & -> & -> & Eb & Hrb); [done|].
    symmetry. apply (N.div_unique _ _ _ 0); lia. }
  split; symmetry; [apply (N.div_unique _ _ _ b) | apply (N.mod_unique _ _ a)]; lia.
Qed.

Lemma bytes1 (a : N) : (((a / 4) * 64 + (a mod 4) * 16) / 16 = a)%N.
Proof.
  destruct (split_byte a 4) as (qa & ra & -> & -> & Ea & Hra); [done|].
  symmetry. apply (N.div_unique _ _ _ 0); lia.
Qed.

(** Lists, three elements at a time. *)
Lemma by_threes {A} (P : list A → Prop) :
  P [] → (∀ a, P [a]) → (∀ a b, P [a; b]) →
  (∀ a b c rest, P rest → P (a :: b :: c :: rest)) →
  ∀ l, P l.
Proof.
  intros H0 H1 H2 H3 l.
  assert (P l ∧ (∀ a, P (a :: l)) ∧ (∀ a b, P (a :: b :: l))) as [? _]; [|done].
  induction l as [|x l (IH0 & IH1 & IH2)]; [done|].
  split_and!; [apply IH1 | intros a; apply IH2 | intros a b; by apply H3].
Qed.

Lemma bytes_sextets (bs : list N) : octets bs → bytes (sextets bs) = bs.
Proof.
  unfold octets. induction bs as [|a|a b|a b c rest IH] using by_threes; intros Hbs.
  - done.
  - cbn [sextets bytes]. by rewrite bytes1.
  - apply Forall_cons in Hbs as [_ [Hb _]%Forall_cons].
    cbn [sextets bytes]. by destruct (bytes2 a b Hb) as [-> ->].
  - apply Forall_cons in Hbs as [_ [Hb [Hc Hrest]%Forall_cons]%Forall_cons].
    cbn [sextets bytes]. destruct (bytes3 a b c Hb Hc) as (-> & -> & ->).
    by rewrite IH.
Qed.

Lemma sextets_small (bs : list N) :
  octets bs → Forall (λ n, (n < 64)%N) (sextets bs).
Proof.
  unfold octets. induction bs as [|a|a b|a b c rest IH] using by_threes; intros Hbs;
    cbn [sextets]; repeat match goal with
    | H : Forall _ (_ :: _) |- _ => apply Forall_cons in H as [? ?]
    end; repeat constructor; try (by apply IH);
    repeat match goal with
    | |- context [(?x / ?d)%N] =>
        let q := fresh "q" in let r := fresh "r" in
        destruct (split_byte x d) as (q & r & -> & ? & ? & ?); [done|]
    | |- context [(?x mod ?d)%N] =>
        let q := fresh "q" in let r := fresh "r" in
        destruct (split_byte x d) as (q & r & ? & -> & ? & ?); [done|]
    end; lia.
Qed.

(** The sixty-four symbols: each is read back as its number, none is white
    space and none is the equals sign. *)
Lemma symbol_spec (n : N) :
  (n < 64)%N →
  sextet (symbol n) = Some n ∧ whitespace (symbol n) = false ∧
  symbol n ≠ "="%char ∧ symbol n ≠ ","%char.
Proof.
  intros Hn.
  assert (Forall (λ n, sextet (symbol n) = Some n ∧ whitespace (symbol n) = false
                       ∧ symbol n ≠ "="%char ∧ symbol n ≠ ","%char)
            (N.of_nat <$> seq 0 64)) as Hall.
  { repeat constructor; discriminate. }
  rewrite Forall_forall in Hall. apply Hall.
  apply list_elem_of_fmap. exists (N.to_nat n). split; [lia|].
  apply elem_of_seq. lia.
Qed.

Lemma length_sextets (bs : list N) :
  length (sextets bs) mod 4 ≠ 1 ∧
  (length (sextets bs) + length (padding bs)) mod 4 = 0.
Proof.
  unfold padding.
  induction bs as [|a|a b|a b c rest [IH1 IH2]] using by_threes; try done.
  cbn [sextets length].
  replace (S (S (S (length rest)))) with (length rest + 1 * 3) by lia.
  rewrite Nat.Div0.mod_add.
  replace (S (S (S (S (length (sextets rest))))))
    with (length (sextets rest) + 1 * 4) by lia.
  replace (length (sextets rest) + 1 * 4 + length (padding_of (length rest mod 3)))
    with (length (sextets rest) + length (padding_of (length rest mod 3)) + 1 * 4) by lia.
  by rewrite !Nat.Div0.mod_add.
Qed.

Lemma unpad_padding (syms : list ascii) (bs : list N) :
  last syms ≠ Some "="%char → unpad (syms ++ padding bs) = syms.
Proof.
  intros Hlast. rewrite <- head_reverse in Hlast.
  unfold unpad, padding, padding_of.
  destruct (length bs mod 3) as [|[|[|n]]]; rewrite ?app_nil_r, ?reverse_app; simpl.
  1,4: destruct (reverse syms) as [|c tl] eqn:E; [done|];
       destruct (Ascii.eqb_spec c "=") as [->|]; done.
  - by rewrite reverse_involutive.
  - destruct (reverse syms) as [|c tl] eqn:E.
    + apply (f_equal reverse) in E. by rewrite reverse_involutive in E.
    + destruct (Ascii.eqb_spec c "=") as [->|]; [done|].
      by rewrite <- E, reverse_involutive.
Qed.

Lemma filter_all {A} (P : A → Prop) `{∀ x, Decision (P x)} (l : list A) :
  Forall P l → filter P l = l.
Proof.
  induction 1 as [|x l Hx Hl IH]; [done|]. by rewrite filter_cons_True, IH.
Qed.

Lemma symbols_spec (bs : list N) :
  octets bs →
  Forall (λ c, whitespace c = false ∧ c ≠ ","%char) (symbol <$> sextets bs) ∧
  last (symbol <$> sextets bs) ≠ Some "="%char ∧
  mapM sextet (symbol <$> sextets bs) = Some (sextets bs).
Proof.
  intros Hbs. pose proof (sextets_small bs Hbs) as Hs. split_and!.
  - apply Forall_fmap. eapply Forall_impl; [done|]. simpl. intros n Hn.
    by destruct (symbol_spec n Hn) as (_ & ? & _ & ?).
  - rewrite fmap_last. destruct (last (sextets bs)) as [n|] eqn:E; [|done].
    simpl. intros [= Heq]. apply last_Some in E as [l' Hl']. rewrite Hl' in Hs.
    apply Forall_app in Hs as [_ [Hn _]%Forall_cons].
    by destruct (symbol_spec n Hn) as (_ & _ & ? & _).
  - apply mapM_fmap_Forall_Some. eapply Forall_impl; [done|]. simpl. intros n Hn.
    by destruct (symbol_spec n Hn) as (? & _).
Qed.

(** [atob] reads back what was written in base 64. *)
Lemma atob_base64 (bs : list N) : octets bs → atob (base64 bs) = Some bs.
Proof.
  intros Hbs. destruct (symbols_spec bs Hbs) as (Hws & Hlast & Hmap).
  destruct (length_sextets bs) as [Hlen1 Hlen0].
  unfold atob, decode, base64. rewrite list_ascii_of_string_of_list_ascii.
  rewrite filter_all.
  2:{ apply Forall_app. split; [eapply Forall_impl; [exact Hws|]; by intros ? []|].
      unfold padding, padding_of.
      destruct (length bs mod 3) as [|[|[|n]]]; by repeat constructor. }
  rewrite length_app, length_fmap, Hlen0. cbn [Nat.eqb].
  rewrite unpad_padding by done. rewrite length_fmap.
  destruct (length (sextets bs) mod 4 =? 1) eqn:E; [by apply Nat.eqb_eq in E|].
  rewrite Hmap. cbn [fmap option_fmap option_map]. by rewrite bytes_sextets.
Qed.

Lemma split_none (sep : ascii) (s : string) :
  Forall (λ c, c ≠ sep) (list_ascii_of_string s) → split sep s = [s].
Proof.
  induction s as [|c s IH]; [done|]. simpl. intros [Hc Hs]%Forall_cons.
  destruct (Ascii.eqb_spec c sep); [done|]. by rewrite IH.
Qed.

Lemma split_base64 (bs : list N) : octets bs → split "," (base64 bs) = [base64 bs].
Proof.
  intros Hbs. apply split_none. unfold base64.
  rewrite list_ascii_of_string_of_list_ascii. apply Forall_app. split.
  - destruct (symbols_spec bs Hbs) as (Hws & _).
    eapply Forall_impl; [exact Hws|]. by intros ? [].
  - unfold padding, padding_of.
    destruct (length bs mod 3) as [|[|[|n]]]; by repeat constructor.
Qed.

Lemma split_dataUrl (d : string) :
  split "," (dataUrl d) = "data:image/png;base64" :: split "," d.
Proof. done. Qed.

Lemma dataURLtoBlob_dataUrl (bs : list N) :
  octets bs → dataURLtoBlob (dataUrl (base64 bs)) = Done (mkBlob bs "image/png").
Proof.
  intros Hbs. unfold dataURLtoBlob.
  rewrite split_dataUrl, split_base64 by done. cbn [lookup list_lookup default id].
  change (mimeMatch "data:image/png;base64") with (Some "image/png").
  by rewrite atob_base64.
Qed.

(** Without a semicolon there is no match. *)
Lemma upToSemicolon_None (s : string) :
  (∀ i, String.get i s ≠ Some ";"%char) → upToSemicolon s = None.
Proof.
  induction s as [|c s IH]; [done|]. intros Hs. cbn [upToSemicolon].
  destruct (Ascii.eqb_spec c ";") as [->|]; [by destruct (Hs 0)|].
  destruct (lineTerminator _); [done|].
  rewrite IH; [done|]. intros i. apply (Hs (S i)).
Qed.

Lemma mimeMatch_None (s : string) :
  (∀ i, String.get i s ≠ Some ";"%char) → mimeMatch s = None.
Proof.
  induction s as [|c s IH]; [done|]. intros Hs. cbn [mimeMatch].
  assert (∀ i, String.get i s ≠ Some ";"%char) as Hs' by (intros i; apply (Hs (S i))).
  rewrite upToSemicolon_None, IH by done. by destruct (c =? ":")%char.
Qed.

Lemma split_head (sep : ascii) (s : string) :
  ∃ piece pieces, split sep s = piece :: pieces ∧
    ∀ c i, String.get i piece = Some c → ∃ j, String.get j s = Some c.
Proof.
  induction s as [|c s (piece & pieces & IH & Hsub)]; simpl.
  - eexists _, _. split; [done|]. by intros c [|i].
  - destruct (c =? sep)%char.
    + eexists _, _. split; [done|]. by intros c' [|i].
    + rewrite IH. eexists _, _. split; [done|]. intros c' [|i]; simpl.
      * intros [= ->]. by exists 0.
      * intros Hg. destruct (Hsub _ _ Hg) as [j Hj]. by exists (S j).
Qed.

Lemma downloadPanel_holds (index : nat) (scene : Scene) (image : option (list N)) :
  holds scene image →
  downloadPanel index scene = Done (option_list (pngOf index <$> image)).
Proof.
  unfold holds, downloadPanel. destruct image as [bs|].
  - intros [Hbs ->]. cbn [truthy]. by rewrite dataURLtoBlob_dataUrl.
  - intros [Ht Hn].
    assert (truthy (scene !! "imageUrl") && negb (ComicBookDisplay.isMark (scene !! "imageUrl"))
            = false) as ->; [|done].
    unfold imageStatus, statusOfUrl, typedImageUrl, ComicBookDisplay.isMark in *.
    destruct (scene !! "imageUrl") as [[| | |s| |]|]; try done.
    cbn [strict_eq truthy].
    destruct (String.eqb s "RETRYING"); [by destruct (String.eqb s "")|].
    destruct (String.eqb s "FAILED"); [by destruct (String.eqb s "")|].
    destruct (String.eqb s ""); [done|]. by destruct (Hn s).
Qed.

Lemma downloadFrom_holds (index : nat) (scs : list Scene) (images : list (option (list N))) :
  Forall2 holds scs images →
  downloadFrom index scs = (omap id (imap (λ i, fmap (pngOf (index + i))) images), None).
Proof.
  intros H. revert index. induction H as [|scene image scs images Hh _ IH]; intros index.
  - done.
  - cbn [downloadFrom]. rewrite (downloadPanel_holds _ _ _ Hh), (IH (S index)).
    cbn [imap omap]. rewrite Nat.add_0_r.
    assert (imap (λ i, fmap (pngOf (S index + i))) images
            = imap ((λ i, fmap (pngOf (index + i))) ∘ S) images) as ->.
    { apply imap_ext. intros i x _. simpl. do 2 f_equal. lia. }
    by destruct image.
Qed.

Lemma dataURLtoBlob_no_semicolon (url : string) :
  (∀ i, String.get i url ≠ Some ";"%char) → dataURLtoBlob url = Fails "Invalid data URL".
Proof.
  intros Hs. unfold dataURLtoBlob.
  destruct (split_head "," url) as (piece & pieces & -> & Hsub).
  cbn [lookup list_lookup default id].
  rewrite mimeMatch_None; [done|].
  intros i Hi. destruct (Hsub _ _ Hi) as [j Hj]. by destruct (Hs j).
Qed.

End DownloadFacts.

(** X19.  [dataURLtoBlob] gives back the image that [generateSceneImage]
    wrapped: for every sequence of bytes written in base 64 behind the prefix
    [data:image/png;base64,], the blob holds exactly these bytes and has the
    type [image/png]. *)
Theorem dataURLtoBlob_reads_back_the_image (bs : list N) :
  octets bs →
  dataURLtoBlob (dataUrl (Encode.base64 bs)) = Done (mkBlob bs "image/png").
Proof. apply DownloadFacts.dataURLtoBlob_dataUrl. Qed.

Lemma dataURLtoBlob_reads_back_the_image_witness :
  dataURLtoBlob "data:image/png;base64,QUJDRA==" = Done (mkBlob [65; 66; 67; 68]%N "image/png").
Proof.
  apply (dataURLtoBlob_reads_back_the_image [65; 66; 67; 68]%N).
  repeat constructor.
Defined.

(** X20.  [handleDownloadAll] on a finished comic.  Every panel that holds an
    image gives one download, of its bytes as [image/png] under the name
    [panel-N.png] with [N] the position of the panel counted from one; panels
    that are loading, retrying or failed are passed over, and their numbers
    are left out of the names; nothing is thrown. *)
Theorem handleDownloadAll_downloads_the_ready_panels (st : AppState)
    (images : list (option (list N))) :
  Forall2 holds (scenes st) images →
  handleDownloadAll st = (omap id (imap (λ i, fmap (pngOf i)) images), None).
Proof.
  intros H. unfold handleDownloadAll.
  by rewrite (DownloadFacts.downloadFrom_holds 0 _ images).
Qed.

Lemma handleDownloadAll_downloads_the_ready_panels_witness :
  handleDownloadAll
    (mkApp "A lone astronaut" "Sci-Fi" false "Your comic is complete!"
       [<["imageUrl" := JString "FAILED"]> (pendingScene 0 (JObject ∅));
        <["imageUrl" := JString "data:image/png;base64,QUJD"]> (pendingScene 1 (JObject ∅))]
       true false false false None 2 (Some "Q0hBUg==") false false None)
  = ([pngOf 1 [65; 66; 67]%N], None).
Proof.
  apply (handleDownloadAll_downloads_the_ready_panels _ [None; Some [65; 66; 67]%N]).
  repeat constructor; try (by rewrite lookup_insert_eq); try (intros u; discriminate).
Defined.

(** X21.  Download All Panels in development mode.  The placeholder addresses
    are no data addresses: for a first panel whose address has no semicolon,
    [dataURLtoBlob] throws on it, the loop ends there, and nothing is
    downloaded. *)
Theorem development_mode_download_throws (random : nat → string) (w : World)
    (timer : Response) (scene : Scene) (rest : list Scene) :
  isDevMode (app w) = true →
  scenes (app w) = scene :: rest →
  (∀ i, String.get i (placeholderUrl random 0 scene) ≠ Some ";"%char) →
  handleDownloadAll
    (app (runHandler (handleStartImageGeneration random (app w)) [Reply timer] w).2)
  = ([], Some "Invalid data URL").
Proof.
  intros Hdev Hs Hno. unfold runHandler, handleStartImageGeneration. rewrite Hdev, Hs.
  cbn. unfold handleDownloadAll. cbn [scenes downloadFrom].
  unfold downloadPanel. rewrite lookup_insert_eq.
  change (truthy _ && negb _) with true. cbn iota.
  change (dataURLtoBlob _) with (dataURLtoBlob (placeholderUrl random 0 scene)).
  by rewrite (DownloadFacts.dataURLtoBlob_no_semicolon _ Hno).
Qed.

Lemma development_mode_download_throws_witness :
  handleDownloadAll
    (app (runHandler
            (handleStartImageGeneration (λ _, "0.5")
               (mkApp "A lone astronaut" "Sci-Fi" false "Please review the generated script."
                  (imap pendingScene [JObject ∅; JObject ∅]) false true false true None 2
                  None false false None))
            [Reply (Fulfilled None)]
            (mkWorld (mkApp "A lone astronaut" "Sci-Fi" false
                        "Please review the generated script."
                        (imap pendingScene [JObject ∅; JObject ∅]) false true false true
                        None 2 None false false None) false [])).2)
  = ([], Some "Invalid data URL").
Proof.
  apply (development_mode_download_throws (λ _, "0.5")
           (mkWorld (mkApp "A lone astronaut" "Sci-Fi" false
                       "Please review the generated script."
                       (imap pendingScene [JObject ∅; JObject ∅]) false true false true
                       None 2 None false false None) false [])
           (Fulfilled None) (pendingScene 0 (JObject ∅)) [pendingScene 1 (JObject ∅)]);
    [reflexivity | reflexivity |].
  intros i. change (placeholderUrl (λ _, "0.5") 0 (pendingScene 0 (JObject ∅)))
              with "https://picsum.photos/seed/10.5/1600/900".
  do 41 (destruct i as [|i]; [discriminate|]). discriminate.
Defined.

(** ** The slideshow, over any sequence of inputs *)

Module SlideshowMore.
Import SlideshowModal SlideshowFacts.

Section More.
Variable scenes : list Scene.

(** Once [isCompleted] is down it stays down through the commits. *)
Lemma settle_not_completed fuel old cur :
  isCompleted cur = false → isCompleted (settle scenes fuel old cur).1 = false.
Proof.
  revert old cur. induction fuel as [|fuel IH]; intros old cur Hc; [done|].
  destruct (decide ((pass scenes old cur).1 = cur)) as [H|H].
  - by rewrite settle_stable.
  - rewrite settle_again by done. cbn [fst]. apply IH.
    rewrite pass_state. destruct (bool_decide _); [|done].
    unfold keyEffect. by destruct (isOpen cur).
Qed.

(** When an open slideshow raises [isCompleted], the keyboard effect lowers
    it in the next commit. *)
Lemma settle_just_completed fuel i j :
  isCompleted (settle scenes (S (S fuel)) (mkState true i false) (mkState true j true)).1
  = false.
Proof.
  rewrite settle_again.
  - cbn [fst]. apply settle_not_completed.
    by rewrite pass_state, bool_decide_true by done.
  - by rewrite pass_state, bool_decide_true by done.
Qed.

Lemma goToNext_stays_open s : isOpen (goToNext scenes s) = isOpen s.
Proof. unfold goToNext. by destruct (_ <? _)%Z. Qed.

Lemma dispatch_not_completed input s :
  isCompleted s = false → isCompleted (dispatch scenes input s).1 = false.
Proof.
  intros Hc. unfold dispatch.
  assert (∀ s', isOpen s = true → isOpen s' = true →
                isCompleted (settle scenes 3 s s').1 = false) as Hopen.
  { intros [o' i' c'] Ho Ho'. destruct s as [o i c]. cbn [isOpen isCompleted] in *. subst.
    destruct c'; [apply (settle_just_completed 1) | by apply settle_not_completed]. }
  destruct input; cbn [handle].
  - by apply settle_not_completed.
  - destruct (isOpen s); by apply settle_not_completed.
  - destruct (isOpen s) eqn:Ho; [|by apply settle_not_completed].
    unfold handleKeyDown. rewrite Hc.
    destruct key; try (by apply settle_not_completed).
    apply Hopen; [done|]. by rewrite goToNext_stays_open.
  - destruct (_ && _); by apply settle_not_completed.
  - unfold panelShown. destruct (isOpen s) eqn:Ho; [|by apply settle_not_completed].
    destruct (_ && _); [|by apply settle_not_completed].
    apply Hopen; [done|]. by rewrite goToNext_stays_open.
  - rewrite Hc, andb_false_r. by apply settle_not_completed.
Qed.

Lemma dispatchAll_not_completed inputs s :
  isCompleted s = false → isCompleted (dispatchAll scenes inputs s) = false.
Proof.
  revert s. induction inputs as [|input inputs IH]; intros s Hs; [done|].
  cbn [dispatchAll]. by apply IH, dispatch_not_completed.
Qed.

Lemma at_index_nat (i : nat) : at_index scenes (Z.of_nat i) = scenes !! i.
Proof.
  unfold at_index. destruct (Z.ltb_spec (Z.of_nat i) 0); [lia|]. by rewrite Nat2Z.id.
Qed.

(** A move from one panel to another, with the slideshow open and not
    completed: one commit, in which the narration effect alone runs. *)
Lemma settle_move (i j : nat) :
  i ≠ j →
  settle scenes 3 (mkState true (Z.of_nat i) false) (mkState true (Z.of_nat j) false)
  = (mkState true (Z.of_nat j) false,
     narrate scenes (mkState true (Z.of_nat j) false)).
Proof.
  intros Hij. rewrite settle_stable.
  - rewrite pass_events, bool_decide_false, bool_decide_true; [done| |].
    + cbn. intros [=]. lia.
    + by intros H.
  - rewrite pass_state, bool_decide_false; [done|]. by intros H.
Qed.

End More.
End SlideshowMore.

(** X22.  Whatever the user does in the slideshow of a comic with at least one
    panel (opening, closing, keys, the two arrows, Restart), the index is on a
    panel once the effects have run: from the first render on it is never
    below zero and never past the last panel. *)
Theorem slideshow_index_stays_on_a_panel (scenes : list Scene)
    (inputs : list SlideshowModal.Input) :
  scenes ≠ [] →
  inRange scenes (SlideshowModal.dispatchAll scenes inputs SlideshowModal.initial).
Proof.
  intros Hne. apply SlideshowFacts.index_inRange; [done|].
  unfold inRange, SlideshowModal.initial. cbn.
  destruct scenes; [done|]. cbn [length]. lia.
Qed.

Lemma slideshow_index_stays_on_a_panel_witness :
  inRange [∅; ∅]
    (SlideshowModal.dispatchAll [∅; ∅]
       [SlideshowModal.OpenSlideshow; SlideshowModal.ClickNext; SlideshowModal.ClickNext;
        SlideshowModal.KeyDown SlideshowModal.ArrowLeft]
       SlideshowModal.initial).
Proof. by apply slideshow_index_stays_on_a_panel. Defined.

(** X23.  The slideshow never rests in its completed state.  After every
    input, once the effects have run, [isCompleted] is down: the keyboard
    effect, which depends on [isCompleted] and resets the slideshow whenever
    it runs while open, lowers the flag in the commit after the one that
    raised it.  The Slideshow Completed screen and its Restart button are
    therefore on the page for one commit at most. *)
Theorem slideshow_never_rests_completed (scenes : list Scene)
    (inputs : list SlideshowModal.Input) :
  SlideshowModal.isCompleted
    (SlideshowModal.dispatchAll scenes inputs SlideshowModal.initial) = false.
Proof. by apply SlideshowMore.dispatchAll_not_completed. Qed.

(** X24.  The slideshow narrates the panel it moves to.  With the slideshow
    open on panel [i] and a panel after it, the next arrow and the right arrow
    key both lead to panel [i + 1] in one commit, in which the running
    narration is cancelled and the text of the new panel is spoken; a panel
    without text is shown in silence. *)
Theorem next_panel_is_narrated (scenes : list Scene) (i : nat) (here next : Scene)
    (input : SlideshowModal.Input) :
  scenes !! i = Some here →
  scenes !! (i + 1) = Some next →
  input = SlideshowModal.ClickNext
  ∨ input = SlideshowModal.KeyDown SlideshowModal.ArrowRight →
  SlideshowModal.dispatch scenes input (SlideshowModal.mkState true (Z.of_nat i) false)
  = (SlideshowModal.mkState true (Z.of_nat (i + 1)) false,
     Cancelled :: if truthy (next !! "panel_text")
                  then [Spoke (textOf (next !! "panel_text"))] else []).
Proof.
  intros Hi Hn Hinput. unfold SlideshowModal.dispatch.
  assert (SlideshowModal.handle scenes input (SlideshowModal.mkState true (Z.of_nat i) false)
          = SlideshowModal.mkState true (Z.of_nat (i + 1)) false) as ->.
  { assert (SlideshowModal.goToNext scenes (SlideshowModal.mkState true (Z.of_nat i) false)
            = SlideshowModal.mkState true (Z.of_nat (i + 1)) false) as Hgo.
    { unfold SlideshowModal.goToNext. cbn [SlideshowModal.currentIndex].
      apply lookup_lt_Some in Hn.
      destruct (Z.ltb_spec (Z.of_nat i) (Z.of_nat (length scenes) - 1)); [|lia].
      cbn. do 2 f_equal. lia. }
    destruct Hinput as [-> | ->]; cbn [SlideshowModal.handle]; [|done].
    unfold SlideshowModal.panelShown. cbn [SlideshowModal.isOpen SlideshowModal.isCompleted
      SlideshowModal.currentIndex andb negb].
    by rewrite SlideshowMore.at_index_nat, Hi, bool_decide_true by done. }
  rewrite SlideshowMore.settle_move by lia. f_equal.
  unfold SlideshowModal.narrate.
  cbn [SlideshowModal.isOpen SlideshowModal.isCompleted SlideshowModal.currentIndex].
  rewrite SlideshowMore.at_index_nat, Hn.
  apply lookup_lt_Some in Hn. by destruct scenes; [simpl in Hn; lia|].
Qed.

Lemma next_panel_is_narrated_witness :
  SlideshowModal.dispatch
    [pendingScene 0 (JObject ∅); pendingScene 1 (JObject {["panel_text" := JString "Hello"]})]
    SlideshowModal.ClickNext (SlideshowModal.mkState true 0 false)
  = (SlideshowModal.mkState true 1 false, [Cancelled; Spoke "Hello"]).
Proof.
  etrans.
  - apply (next_panel_is_narrated
             [pendingScene 0 (JObject ∅);
              pendingScene 1 (JObject {["panel_text" := JString "Hello"]})]
             0 (pendingScene 0 (JObject ∅))
             (pendingScene 1 (JObject {["panel_text" := JString "Hello"]}))
             SlideshowModal.ClickNext eq_refl eq_refl (or_introl eq_refl)).
  - vm_compute. reflexivity.
Defined.

(** ** The voices *)

(** X25.  What [loadVoices] leaves in the state when the browser reports its
    voices, for every order that sorts, that is, permutes.  Without voices
    nothing changes.  Otherwise all voices are stored; the curated voices are
    at most twelve, each of them is one of the reported voices and has a
    language tag that starts with en, and all such voices are curated when
    there are at most twelve of them; and the selected voice becomes the first
    curated one whenever there is one, whatever was selected before, since the
    function reads the [selectedVoiceURI] of the first render. *)
Theorem loadVoices_curates (sortByName : list Voices.Voice → list Voices.Voice)
    (available : list Voices.Voice) (st : Voices.State) :
  (∀ l, sortByName l ≡ₚ l) →
  let english := filter (λ v, Voices.startsWith (Voices.lang v) "en" = true) available in
  let st' := Voices.onvoiceschanged sortByName available st in
  (available = [] → st' = st) ∧
  (available ≠ [] →
     Voices.allVoices st' = available ∧
     length (Voices.curatedVoices st') ≤ 12 ∧
     (∀ v, v ∈ Voices.curatedVoices st' → v ∈ english) ∧
     (length english ≤ 12 → Voices.curatedVoices st' ≡ₚ english) ∧
     Voices.selectedVoiceURI st'
     = match Voices.curatedVoices st' with
       | first :: _ => Some (Voices.voiceURI first)
       | [] => Voices.selectedVoiceURI st
       end).
Proof.
  intros Hsort english st'. unfold st', Voices.onvoiceschanged, Voices.loadVoices.
  fold english. split.
  - by intros ->.
  - intros Hne. destruct available as [|v0 rest]; [done|]. cbn [length Nat.ltb Nat.leb].
    cbn [Voices.allVoices Voices.curatedVoices Voices.selectedVoiceURI]. split_and!.
    + done.
    + rewrite length_take. lia.
    + intros v Hv. apply elem_of_take in Hv as (i & Hv & _).
      apply list_elem_of_lookup_2 in Hv. by rewrite Hsort in Hv.
    + intros Hlen. rewrite take_ge; [done|]. by rewrite Hsort.
    + done.
Qed.

Lemma loadVoices_curates_witness :
  let zira := Voices.mkVoice "Microsoft Zira - English (United States)" "en-US" "urn:zira" in
  let hedda := Voices.mkVoice "Microsoft Hedda - German (Germany)" "de-DE" "urn:hedda" in
  let david := Voices.mkVoice "Microsoft David - English (United States)" "en-US" "urn:david" in
  Voices.selectedVoiceURI
    (Voices.onvoiceschanged
       (merge_sort (λ a b, bool_decide (String.leb (Voices.name a) (Voices.name b) = true)))
       [zira; hedda; david] (Voices.mkState [] [] (Some "urn:zira")))
  = Some "urn:david".
Proof.
  intros zira hedda david.
  destruct (loadVoices_curates
              (merge_sort (λ a b, bool_decide (String.leb (Voices.name a) (Voices.name b) = true)))
              [zira; hedda; david] (Voices.mkState [] [] (Some "urn:zira")))
    as [_ H].
  - intros l. apply merge_sort_Permutation.
  - destruct H as (_ & _ & _ & _ & ->); [done|]. vm_compute. reflexivity.
Defined.
